(** * Ranking and swipe state of the Jellyfin ranking front end

    A shallow embedding of the state-carrying part of [frontend/script.js]:
    the pairwise ranker (normalisation of a loaded rank state, Thompson
    sampling, pair selection, coverage numbers, the ranking table) and the
    group swipe session (per-person progress, likes, matches, match
    notifications, decisions taken offline, the state sent to the server).

    Conventions of the embedding.
    - A finite JavaScript number is the rational [Q] it stands for; a value
      that [parseFloat] cannot read is kept apart as [Unparsable], and the
      numbers of a loaded state are finite.  The samples of pair selection
      are computed as doubles compute them, rounded and with the
      infinities; counts and their ratios are kept exact.
    - Titles and person names are taken to be strings other than the
      property names of [Object.prototype] ([object_prototype_names]): for
      such a name a lookup in a plain object finds the inherited member
      where the embedding finds nothing; [inherited_name] tells these
      names.
    - [Math.random] is an explicit argument: a sequence of draws that the
      functions consume from index 0 on and hand back shifted.  The values
      of [randomNormal()] are an explicit sequence too, one per call.
    - DOM updates, logging and [fetch] calls do not touch the modelled
      globals and are left out; every assignment to a modelled global is
      kept, in source order.
    - An object whose key order is observed ([Object.keys]) is an
      association list in enumeration order; objects that are only looked
      up are [gmap]s; the notification [Set]s are [gset]s or, where
      [forEach] order is observed, duplicate-free lists. *)

From Stdlib Require Import Ascii String QArith Qminmax.
From stdpp Require Import base option list gmap strings pretty sorting.

Local Open Scope string_scope.
Local Open Scope list_scope.
Local Open Scope Z_scope.

(** ** Strings: the three regular-expression tests and [split('/').pop()] *)

Definition lower_ascii (c : ascii) : ascii :=
  let n := N_of_ascii c in
  if ((65 <=? n) && (n <=? 90))%N then ascii_of_N (n + 32) else c.

Fixpoint lower_string (s : string) : string :=
  match s with
  | EmptyString => EmptyString
  | String c s' => String (lower_ascii c) (lower_string s')
  end.

(** [/^https?:/.test(s)] *)
Definition is_http (s : string) : bool :=
  String.prefix "http:" s || String.prefix "https:" s.

(** [/^https?:/i.test(s)] *)
Definition is_http_ci (s : string) : bool := is_http (lower_string s).

(** [/^https?:|^data:/.test(s)] *)
Definition is_http_or_data (s : string) : bool :=
  is_http s || String.prefix "data:" s.

Fixpoint last_segment_from (cur s : string) : string :=
  match s with
  | EmptyString => cur
  | String c s' =>
      if Ascii.eqb c "/"%char then last_segment_from "" s'
      else last_segment_from (cur +:+ String c "") s'
  end.

(** [s.split('/').pop()] *)
Definition last_segment (s : string) : string := last_segment_from "" s.

(** [a || b] on strings: the empty string is falsy. *)
Definition str_or (a b : string) : string :=
  if String.eqb a "" then b else a.

(** ** Movie objects *)

Record movie := Movie {
  title : string;
  display : string;
  image : string;
  imageAbsolute : string;
  addedBy : string;
  source : string
}.

Definition resolveMovieImage (API_BASE : string) (m : movie) : string :=
  let candidate := str_or (imageAbsolute m) (image m) in
  if is_http_or_data candidate then candidate
  else if String.eqb candidate "" then ""
  else API_BASE +:+ "/images/" +:+ candidate.

Definition normalizeMovieImage (API_BASE : string) (m : movie) : movie :=
  let img := str_or (image m) (imageAbsolute m) in
  let filename := if is_http_ci img then str_or (last_segment img) img else img in
  let abs := resolveMovieImage API_BASE (Movie "" "" filename "" "" "") in
  Movie (title m) (display m) filename abs (addedBy m) (str_or (source m) "manual").

(** [Object.fromEntries(movies.map(m => [m.title, m]))]: a later movie with
    the same title replaces an earlier one.  The global [movieByTitle] is
    assigned only in [applyState], right after [movies], and starts empty
    with [movies]; it is therefore this function of [movies].  The map holds
    the own properties of the object; see the conventions for a lookup of
    an [Object.prototype] name that no movie carries. *)
Definition fromEntries (ms : list movie) : gmap string movie :=
  foldl (fun acc m => <[title m := m]> acc) ∅ ms.

(** ** Objects in enumeration order *)

Definition digit_of (c : ascii) : option N :=
  let n := N_of_ascii c in
  if ((48 <=? n) && (n <=? 57))%N then Some (n - 48)%N else None.

Fixpoint digits_value (acc : N) (s : string) : option N :=
  match s with
  | EmptyString => Some acc
  | String c s' =>
      match digit_of c with
      | Some d => digits_value (10 * acc + d)%N s'
      | None => None
      end
  end.

(** A key that is a canonical array index ("0", "7", "1917", at most
    2^32 - 2): JavaScript enumerates such keys first, in numeric order. *)
Definition array_index (k : string) : option N :=
  match k with
  | EmptyString => None
  | String c rest =>
      if Ascii.eqb c "0"%char && negb (String.eqb rest "") then None
      else match digits_value 0 k with
           | Some n => if (n <=? 4294967294)%N then Some n else None
           | None => None
           end
  end.

Section Obj.
Context {V : Type}.

Fixpoint obj_get (o : list (string * V)) (k : string) : option V :=
  match o with
  | [] => None
  | (k', v) :: o' => if String.eqb k' k then Some v else obj_get o' k
  end.

Definition obj_keys (o : list (string * V)) : list string := o.*1.

Fixpoint obj_replace (k : string) (v : V) (o : list (string * V)) : list (string * V) :=
  match o with
  | [] => []
  | (k', v') :: o' =>
      if String.eqb k' k then (k, v) :: o' else (k', v') :: obj_replace k v o'
  end.

(** A new index key goes before the first key that is not an index or is
    a larger index. *)
Fixpoint obj_insert_index (n : N) (k : string) (v : V) (o : list (string * V))
  : list (string * V) :=
  match o with
  | [] => [(k, v)]
  | (k', v') :: o' =>
      match array_index k' with
      | Some n' =>
          if (n' <? n)%N then (k', v') :: obj_insert_index n k v o'
          else (k, v) :: (k', v') :: o'
      | None => (k, v) :: (k', v') :: o'
      end
  end.

(** [o[k] = v] *)
Definition obj_set (k : string) (v : V) (o : list (string * V)) : list (string * V) :=
  match obj_get o k with
  | Some _ => obj_replace k v o
  | None =>
      match array_index k with
      | Some n => obj_insert_index n k v o
      | None => o ++ [(k, v)]
      end
  end.
End Obj.

(** The property names of [Object.prototype]: a plain object without an own
    property of such a name answers a lookup of it with the inherited
    member, and an assignment to ["__proto__"] creates no property. *)
Definition object_prototype_names : list string :=
  ["constructor"; "__defineGetter__"; "__defineSetter__"; "hasOwnProperty";
   "__lookupGetter__"; "__lookupSetter__"; "isPrototypeOf";
   "propertyIsEnumerable"; "toString"; "valueOf"; "__proto__"; "toLocaleString"].

Definition inherited_name (k : string) : bool :=
  bool_decide (k ∈ object_prototype_names).

(** ** Doubles *)

(** The value of an arithmetic expression: a finite double, or an
    infinity.  [NegInf] is also the [-Infinity] that [thompsonSample]
    returns for a title without rating. *)
Inductive score :=
| NegInf
| Fin (q : Q)
| PosInf.

(** [floor (log2 (n / d))] for positive [n] and [d]. *)
Definition floor_log2 (n d : Z) : Z :=
  let k := Z.log2 n - Z.log2 d in
  if (if 0 <=? k then n <? d * 2 ^ k else n * 2 ^ (- k) <? d) then k - 1 else k.

(** [n / d], not negative, rounded to the nearest integer, a tie to the
    even one. *)
Definition round_half_even (n d : Z) : Z :=
  let q := n / d in
  match 2 * (n mod d) ?= d with
  | Lt => q
  | Eq => if Z.even q then q else q + 1
  | Gt => q + 1
  end.

(** The rounding of binary64 arithmetic: the nearest double, a tie to the
    even significand; below 2^-1022 the doubles are 2^-1074 apart; from
    2^1024 - 2^970 on the result is an infinity. *)
Definition round_double (x : Q) : score :=
  let n := Z.abs (Qnum x) in
  let d := Zpos (Qden x) in
  if n =? 0 then Fin 0
  else
    let e := Z.max (floor_log2 n d - 52) (-1074) in
    let m := if 0 <=? e then round_half_even n (d * 2 ^ e)
             else round_half_even (n * 2 ^ (- e)) d in
    if (971 <? e) || ((e =? 971) && (2 ^ 53 <=? m))
    then (if 0 <? Qnum x then PosInf else NegInf)
    else Fin (Qred (inject_Z (Z.sgn (Qnum x) * m) *
                    (if 0 <=? e then inject_Z (2 ^ e) else 1 # Z.to_pos (2 ^ (- e))))).

(** [x * y] and [x + s] on doubles, [x] and [y] finite. *)
Definition double_mul (x y : Q) : score := round_double (x * y).

Definition double_add (x : Q) (s : score) : score :=
  match s with
  | Fin y => round_double (x + y)
  | _ => s
  end.

(** ** Ratings *)

(** A numeric field as it arrives in a loaded state: absent or null, a
    value [parseFloat] reads as [NaN], or a value it reads as a number. *)
Inductive jsfield :=
| Nullish
| Unparsable
| Number (q : Q).

(** [a ?? b] *)
Definition nullish_or (a b : jsfield) : jsfield :=
  match a with Nullish => b | _ => a end.

(** [parseFloat], [None] standing for [NaN]. *)
Definition parseFloat (v : jsfield) : option Q :=
  match v with Number q => Some q | _ => None end.

(** An entry of the ratings of a loaded state.  [r_games] and [r_wins] are
    the fields as [parseInt] reads them: [None] when the field is absent or
    read as [NaN]; a stored integer below 10^21 in absolute value is read
    as itself, a larger one is printed with an exponent and read as its
    leading digit. *)
Record raw_rating := RawRating {
  r_ts_mu : jsfield;
  r_rating : jsfield;
  r_ts_sigma : jsfield;
  r_games : option Z;
  r_wins : option Z
}.

Record rating := Rating {
  ts_mu : Q;
  ts_sigma : Q;
  games : Z;
  wins : Z
}.

(** The double written [0.0001]: 1/10000 rounded, [round_double (1 # 10000)]. *)
Definition sigma_floor : Q := 7378697629483821 # 73786976294838206464.

Definition empty_entry : raw_rating := RawRating Nullish Nullish Nullish None None.

Definition ensureTsRating (TS_MU TS_SIGMA : Q) (entry : option raw_rating) : rating :=
  let base := default empty_entry entry in
  let mu := parseFloat (nullish_or (nullish_or (r_ts_mu base) (r_rating base)) (Number TS_MU)) in
  let sigma := parseFloat (nullish_or (r_ts_sigma base) (Number TS_SIGMA)) in
  {| ts_mu := match mu with None => TS_MU | Some m => m end;
     ts_sigma := match sigma with None => TS_SIGMA | Some s => Qmax s sigma_floor end;
     games := default 0 (r_games base);
     wins := default 0 (r_wins base) |}.

(** ** Coverage numbers *)

(** A coverage entry; a field is [None] when the loaded object lacks it. *)
Record coverage := Coverage {
  coveredPairs : option Q;
  totalPairs : option Q;
  ratio : option Q
}.

(** [total ? covered / total : 0] *)
Definition coverage_ratio (covered total : Q) : Q :=
  if Qeq_bool total 0 then 0%Q else (covered / total)%Q.

Definition normalizeCoverage (inferred : Q) (entry : coverage) : coverage :=
  let total := default inferred (totalPairs entry) in
  let covered := default 0%Q (coveredPairs entry) in
  Coverage (Some covered) (Some total) (Some (coverage_ratio covered total)).

(** ** The ranker state *)

(** The globals that pair selection, rating normalisation and the coverage
    numbers read or write; [currentPerson], [comparisonCount], [totalVotes]
    and the filter inputs are set by [applyState] too and read by none of
    these. *)

Record rank_state := RankState {
  TS_MU : Q;
  TS_SIGMA : Q;
  movies : list movie;
  ratings : list (string * rating);
  currentPair : option (option movie * option movie);
  personCount : Z;
  persons : list string;
  pairCoverage : coverage;
  pairCoveragePerPerson : gmap string coverage;
  rankerConfirmed : bool
}.

Definition movieByTitle (st : rank_state) : gmap string movie :=
  fromEntries (movies st).

Definition set_currentPair (p : option (option movie * option movie))
    (st : rank_state) : rank_state :=
  RankState (TS_MU st) (TS_SIGMA st) (movies st) (ratings st) p
    (personCount st) (persons st) (pairCoverage st)
    (pairCoveragePerPerson st) (rankerConfirmed st).

(** The values on page load. *)
Definition rank_init : rank_state :=
  RankState 1500 400 [] [] None 1 [] (Coverage (Some 0%Q) (Some 0%Q) (Some 0%Q)) ∅ false.

(** The part of a loaded rank state that the modelled globals are set from. *)
Record rank_snapshot := RankSnapshot {
  s_movies : list movie;
  s_tsConfig_mu : jsfield;
  s_tsConfig_sigma : jsfield;
  s_ratings : list (string * raw_rating);
  s_personCount : option Z;       (* [None]: absent or null *)
  s_pairCoverage : option coverage;
  s_pairCoveragePerPerson : gmap string coverage;
  s_rankerConfirmed : bool
}.

(** ** Thompson sampling and pair selection *)

(** The sign of [b.score - a.score], the value of the comparator passed to
    [sort]; [NaN] (the difference of two equal infinities) counts as zero. *)
Definition compareFn (a b : string * score) : comparison :=
  match a.2, b.2 with
  | Fin x, Fin y => (y ?= x)%Q
  | NegInf, NegInf => Eq
  | PosInf, PosInf => Eq
  | PosInf, _ => Lt
  | _, NegInf => Lt
  | _, PosInf => Gt
  | NegInf, _ => Gt
  end.

(** [Array.prototype.sort] is stable: an element moves behind a later one
    only when the comparator is positive. *)
Fixpoint sort_insert (x : string * score) (l : list (string * score))
  : list (string * score) :=
  match l with
  | [] => [x]
  | y :: l' =>
      match compareFn x y with
      | Gt => y :: sort_insert x l'
      | _ => x :: l
      end
  end.

Definition sort_samples (l : list (string * score)) : list (string * score) :=
  foldr sort_insert [] l.

(** [thompsonSample(title)] with the value [z] of its [randomNormal()] call:
    [mu + z * sigma], the product rounded, then the sum. *)
Definition thompsonSample (rs : list (string * rating)) (t : string) (z : Q) : score :=
  match obj_get rs t with
  | None => NegInf
  | Some entry => double_add (ts_mu entry) (double_mul z (ts_sigma entry))
  end.

(** [keys.map(title => ({ title, score: thompsonSample(title) }))]: the call
    for a rated title takes the next normal draw, [z n]. *)
Fixpoint sample_titles (rs : list (string * rating)) (keys : list string)
    (z : nat -> Q) (n : nat) : list (string * score) :=
  match keys with
  | [] => []
  | t :: keys' =>
      match obj_get rs t with
      | None => (t, NegInf) :: sample_titles rs keys' z n
      | Some _ => (t, thompsonSample rs t (z n)) :: sample_titles rs keys' z (S n)
      end
  end.

(** The test [leftStill && rightStill] of a current pair, giving the two
    refreshed movie objects. *)
Definition pairStill (st : rank_state) : option (movie * movie) :=
  match currentPair st with
  | Some (Some lft, Some rgt) =>
      match movieByTitle st !! title lft, movieByTitle st !! title rgt with
      | Some l, Some r => Some (l, r)
      | _, _ => None
      end
  | _ => None
  end.

Definition sampled (st : rank_state) (z : nat -> Q) : list (string * score) :=
  sample_titles (ratings st) (obj_keys (ratings st)) z 0.

Definition pickPair (st : rank_state) (z : nat -> Q) : rank_state :=
  if (length (movies st) <? 2)%nat then st
  else
    match pairStill st with
    | Some (l, r) => set_currentPair (Some (Some l, Some r)) st
    | None =>
        match sort_samples (sampled st z) with
        | s0 :: s1 :: _ =>
            set_currentPair
              (Some (movieByTitle st !! s0.1, movieByTitle st !! s1.1)) st
        | _ => st
        end
    end.

Definition updateVoteVisibility (preservePair skipPickPair : bool)
    (st : rank_state) (z : nat -> Q) : rank_state :=
  if negb (rankerConfirmed st && (2 <=? length (movies st))%nat) then st
  else if skipPickPair then
    match pairStill st with
    | Some (l, r) => set_currentPair (Some (Some l, Some r)) st
    | None => st
    end
  else
    match (if preservePair then pairStill st else None) with
    | Some (l, r) => set_currentPair (Some (Some l, Some r)) st
    | None => pickPair (set_currentPair None st) z
    end.

(** ** Loading a rank state *)

(** The two loops of [applyState] that fill [normalizedRatings]: an entry
    for every listed title, then one for every key of the incoming ratings
    that has none yet. *)
Definition normalizeRatings (TS_MU TS_SIGMA : Q) (ms : list movie)
    (incoming : list (string * raw_rating)) : list (string * rating) :=
  let from_movies :=
    foldl (fun acc m =>
             obj_set (title m) (ensureTsRating TS_MU TS_SIGMA (obj_get incoming (title m))) acc)
          [] ms in
  foldl (fun acc t =>
           match obj_get acc t with
           | Some _ => acc
           | None => obj_set t (ensureTsRating TS_MU TS_SIGMA (obj_get incoming t)) acc
           end)
        from_movies (obj_keys incoming).

Definition inferredTotalPairs (n : nat) (raw : coverage) : Q :=
  default (if (1 <? n)%nat then (inject_Z (Z.of_nat n * (Z.of_nat n - 1)) / 2)%Q else 0%Q)
          (totalPairs raw).

Definition default_coverage : coverage := Coverage (Some 0%Q) (Some 0%Q) (Some 0%Q).

Definition person_name (i : nat) : string := "person" +:+ pretty (S i).

Definition applyState (API_BASE : string) (s : rank_snapshot)
    (preservePair skipPickPair : bool) (st : rank_state) (z : nat -> Q) : rank_state :=
  let ms := normalizeMovieImage API_BASE <$> s_movies s in
  let mu := default (TS_MU st) (parseFloat (s_tsConfig_mu s)) in
  let sigma := default (TS_SIGMA st) (parseFloat (s_tsConfig_sigma s)) in
  let rs := normalizeRatings mu sigma ms (s_ratings s) in
  let requested := match s_personCount s with
                   | Some n => if (n =? 0)%Z then 1 else n
                   | None => 1
                   end in
  let pc := Z.max 1 requested in
  let ps := person_name <$> seq 0 (Z.to_nat pc) in
  let rawCoverage := default default_coverage (s_pairCoverage s) in
  let inferred := inferredTotalPairs (length ms) rawCoverage in
  let overall := normalizeCoverage inferred rawCoverage in
  let perPerson :=
    foldl (fun acc p =>
             let entry := default (Coverage (Some 0%Q) (Some inferred) (Some 0%Q)) (acc !! p) in
             <[p := normalizeCoverage inferred entry]> acc)
          (s_pairCoveragePerPerson s) ps in
  updateVoteVisibility preservePair skipPickPair
    (RankState mu sigma ms rs (currentPair st) pc ps overall perPerson (s_rankerConfirmed s)) z.

(** ** The random source *)

(** [Math.random] as a sequence of draws; draw [k] stands for a value [u]
    with [Math.floor(u * n) = k mod n]. *)
Definition rng := nat -> nat.

Definition rng_tail (r : rng) : rng := fun i => r (S i).

(** [[a[i], a[j]] = [a[j], a[i]]] *)
Definition swap {A} (i j : nat) (a : list A) : list A :=
  match a !! i, a !! j with
  | Some x, Some y => <[j := x]> (<[i := y]> a)
  | _, _ => a
  end.

(** The loop [for (i = ...; i > 0; i--)] of [shuffleArray], entered at [i]. *)
Fixpoint shuffle_from {A} (i : nat) (a : list A) (r : rng) : list A * rng :=
  match i with
  | O => (a, r)
  | S i' => shuffle_from i' (swap i (r O mod (S i)) a) (rng_tail r)
  end.

Definition shuffleArray {A} (arr : list A) (r : rng) : list A * rng :=
  shuffle_from (length arr - 1) arr r.

(** [clamp(val, min, max)] *)
Definition clamp (val min max : Z) : Z := Z.max min (Z.min max val).

(** ** The swipe session *)

Record progress := Progress {
  idx : Z;
  done : bool;
  order : list string
}.

(** A progress entry of a loaded swipe state. *)
Record raw_progress := RawProgress {
  p_idx : option Z;               (* [None]: absent, or [parseInt] gives [NaN] *)
  p_done : bool;
  p_order : option (list string)  (* [None]: not an array *)
}.

(** [enqueuedLog] and [shownLog] are history variables, not globals of the
    script: the titles pushed onto [matchQueue] and the titles passed to
    [showMatchModal], oldest first. *)
Record swipe_state := SwipeState {
  swipeSuggestionsMap : gmap string movie;
  swipeSelectedMovies : list movie;
  swipeLikes : gmap string (list string);
  swipeMatches : list string;
  swipePersonCount : nat;
  swipePersons : list string;
  swipeCurrentPerson : string;
  swipeCurrentIndex : Z;
  swipeOrder : list movie;
  swipeCompleted : bool;
  swipeProgress : gmap string progress;
  swipeLocked : bool;
  matchQueue : list string;
  seenMatches : gset string;
  matchModalOpen : bool;
  enqueuedLog : list string;
  shownLog : list string
}.

Definition set_swipeSelectedMovies (v : list movie) (st : swipe_state) : swipe_state :=
  SwipeState (swipeSuggestionsMap st) v (swipeLikes st) (swipeMatches st)
    (swipePersonCount st) (swipePersons st) (swipeCurrentPerson st)
    (swipeCurrentIndex st) (swipeOrder st) (swipeCompleted st)
    (swipeProgress st) (swipeLocked st) (matchQueue st) (seenMatches st)
    (matchModalOpen st) (enqueuedLog st) (shownLog st).

Definition set_swipeLikes (v : gmap string (list string)) (st : swipe_state) : swipe_state :=
  SwipeState (swipeSuggestionsMap st) (swipeSelectedMovies st) v
    (swipeMatches st) (swipePersonCount st) (swipePersons st)
    (swipeCurrentPerson st) (swipeCurrentIndex st) (swipeOrder st)
    (swipeCompleted st) (swipeProgress st) (swipeLocked st) (matchQueue st)
    (seenMatches st) (matchModalOpen st) (enqueuedLog st) (shownLog st).

Definition set_swipeMatches (v : list string) (st : swipe_state) : swipe_state :=
  SwipeState (swipeSuggestionsMap st) (swipeSelectedMovies st) (swipeLikes st)
    v (swipePersonCount st) (swipePersons st) (swipeCurrentPerson st)
    (swipeCurrentIndex st) (swipeOrder st) (swipeCompleted st)
    (swipeProgress st) (swipeLocked st) (matchQueue st) (seenMatches st)
    (matchModalOpen st) (enqueuedLog st) (shownLog st).

Definition set_swipePersonCount (v : nat) (st : swipe_state) : swipe_state :=
  SwipeState (swipeSuggestionsMap st) (swipeSelectedMovies st) (swipeLikes st)
    (swipeMatches st) v (swipePersons st) (swipeCurrentPerson st)
    (swipeCurrentIndex st) (swipeOrder st) (swipeCompleted st)
    (swipeProgress st) (swipeLocked st) (matchQueue st) (seenMatches st)
    (matchModalOpen st) (enqueuedLog st) (shownLog st).

Definition set_swipePersons (v : list string) (st : swipe_state) : swipe_state :=
  SwipeState (swipeSuggestionsMap st) (swipeSelectedMovies st) (swipeLikes st)
    (swipeMatches st) (swipePersonCount st) v (swipeCurrentPerson st)
    (swipeCurrentIndex st) (swipeOrder st) (swipeCompleted st)
    (swipeProgress st) (swipeLocked st) (matchQueue st) (seenMatches st)
    (matchModalOpen st) (enqueuedLog st) (shownLog st).

Definition set_swipeCurrentPerson (v : string) (st : swipe_state) : swipe_state :=
  SwipeState (swipeSuggestionsMap st) (swipeSelectedMovies st) (swipeLikes st)
    (swipeMatches st) (swipePersonCount st) (swipePersons st) v
    (swipeCurrentIndex st) (swipeOrder st) (swipeCompleted st)
    (swipeProgress st) (swipeLocked st) (matchQueue st) (seenMatches st)
    (matchModalOpen st) (enqueuedLog st) (shownLog st).

Definition set_swipeCurrentIndex (v : Z) (st : swipe_state) : swipe_state :=
  SwipeState (swipeSuggestionsMap st) (swipeSelectedMovies st) (swipeLikes st)
    (swipeMatches st) (swipePersonCount st) (swipePersons st)
    (swipeCurrentPerson st) v (swipeOrder st) (swipeCompleted st)
    (swipeProgress st) (swipeLocked st) (matchQueue st) (seenMatches st)
    (matchModalOpen st) (enqueuedLog st) (shownLog st).

Definition set_swipeOrder (v : list movie) (st : swipe_state) : swipe_state :=
  SwipeState (swipeSuggestionsMap st) (swipeSelectedMovies st) (swipeLikes st)
    (swipeMatches st) (swipePersonCount st) (swipePersons st)
    (swipeCurrentPerson st) (swipeCurrentIndex st) v (swipeCompleted st)
    (swipeProgress st) (swipeLocked st) (matchQueue st) (seenMatches st)
    (matchModalOpen st) (enqueuedLog st) (shownLog st).

Definition set_swipeCompleted (v : bool) (st : swipe_state) : swipe_state :=
  SwipeState (swipeSuggestionsMap st) (swipeSelectedMovies st) (swipeLikes st)
    (swipeMatches st) (swipePersonCount st) (swipePersons st)
    (swipeCurrentPerson st) (swipeCurrentIndex st) (swipeOrder st) v
    (swipeProgress st) (swipeLocked st) (matchQueue st) (seenMatches st)
    (matchModalOpen st) (enqueuedLog st) (shownLog st).

Definition set_swipeProgress (v : gmap string progress) (st : swipe_state) : swipe_state :=
  SwipeState (swipeSuggestionsMap st) (swipeSelectedMovies st) (swipeLikes st)
    (swipeMatches st) (swipePersonCount st) (swipePersons st)
    (swipeCurrentPerson st) (swipeCurrentIndex st) (swipeOrder st)
    (swipeCompleted st) v (swipeLocked st) (matchQueue st) (seenMatches st)
    (matchModalOpen st) (enqueuedLog st) (shownLog st).

Definition set_swipeLocked (v : bool) (st : swipe_state) : swipe_state :=
  SwipeState (swipeSuggestionsMap st) (swipeSelectedMovies st) (swipeLikes st)
    (swipeMatches st) (swipePersonCount st) (swipePersons st)
    (swipeCurrentPerson st) (swipeCurrentIndex st) (swipeOrder st)
    (swipeCompleted st) (swipeProgress st) v (matchQueue st) (seenMatches st)
    (matchModalOpen st) (enqueuedLog st) (shownLog st).

Definition set_matchQueue (v : list string) (st : swipe_state) : swipe_state :=
  SwipeState (swipeSuggestionsMap st) (swipeSelectedMovies st) (swipeLikes st)
    (swipeMatches st) (swipePersonCount st) (swipePersons st)
    (swipeCurrentPerson st) (swipeCurrentIndex st) (swipeOrder st)
    (swipeCompleted st) (swipeProgress st) (swipeLocked st) v (seenMatches st)
    (matchModalOpen st) (enqueuedLog st) (shownLog st).

Definition set_seenMatches (v : gset string) (st : swipe_state) : swipe_state :=
  SwipeState (swipeSuggestionsMap st) (swipeSelectedMovies st) (swipeLikes st)
    (swipeMatches st) (swipePersonCount st) (swipePersons st)
    (swipeCurrentPerson st) (swipeCurrentIndex st) (swipeOrder st)
    (swipeCompleted st) (swipeProgress st) (swipeLocked st) (matchQueue st) v
    (matchModalOpen st) (enqueuedLog st) (shownLog st).

Definition set_matchModalOpen (v : bool) (st : swipe_state) : swipe_state :=
  SwipeState (swipeSuggestionsMap st) (swipeSelectedMovies st) (swipeLikes st)
    (swipeMatches st) (swipePersonCount st) (swipePersons st)
    (swipeCurrentPerson st) (swipeCurrentIndex st) (swipeOrder st)
    (swipeCompleted st) (swipeProgress st) (swipeLocked st) (matchQueue st)
    (seenMatches st) v (enqueuedLog st) (shownLog st).

Definition set_enqueuedLog (v : list string) (st : swipe_state) : swipe_state :=
  SwipeState (swipeSuggestionsMap st) (swipeSelectedMovies st) (swipeLikes st)
    (swipeMatches st) (swipePersonCount st) (swipePersons st)
    (swipeCurrentPerson st) (swipeCurrentIndex st) (swipeOrder st)
    (swipeCompleted st) (swipeProgress st) (swipeLocked st) (matchQueue st)
    (seenMatches st) (matchModalOpen st) v (shownLog st).

Definition set_shownLog (v : list string) (st : swipe_state) : swipe_state :=
  SwipeState (swipeSuggestionsMap st) (swipeSelectedMovies st) (swipeLikes st)
    (swipeMatches st) (swipePersonCount st) (swipePersons st)
    (swipeCurrentPerson st) (swipeCurrentIndex st) (swipeOrder st)
    (swipeCompleted st) (swipeProgress st) (swipeLocked st) (matchQueue st)
    (seenMatches st) (matchModalOpen st) (enqueuedLog st) v.

(** The values on page load. *)
Definition swipe_init : swipe_state :=
  SwipeState ∅ [] ∅ [] 2 [] "p1" 0 [] false ∅ false [] ∅ false [] [].

(** A loaded swipe state; an absent field is the empty list or map. *)
Record swipe_snapshot := SwipeSnapshot {
  w_movies : list movie;
  w_persons : list string;
  w_likes : gmap string (list string);
  w_matches : list string;
  w_locked : bool;
  w_progress : gmap string raw_progress
}.

Definition titles_of (ms : list movie) : list string := title <$> ms.

(** [l.includes(x)] *)
Definition includes (l : list string) (x : string) : bool := bool_decide (x ∈ l).

(** [swipeSelectedMovies.find(m => m.title === t)] *)
Definition find_movie (ms : list movie) (t : string) : option movie :=
  list_find (fun m => title m = t) ms ≫= fun p => Some p.2.

(** [Set.prototype.add] and [new Set(array)] on duplicate-free lists. *)
Definition set_add (x : string) (s : list string) : list string :=
  if includes s x then s else s ++ [x].

Definition set_of_list (l : list string) : list string :=
  foldl (fun acc x => set_add x acc) [] l.

Definition randomOrderTitles (st : swipe_state) (r : rng) : list string * rng :=
  shuffleArray (titles_of (swipeSelectedMovies st)) r.

Definition getSwipeMovieByTitle (st : swipe_state) (t : string) : option movie :=
  if String.eqb t "" then None
  else Some (default (Movie t t "" "" "" "") (find_movie (swipeSelectedMovies st) t)).

Definition titlesToMovieOrder (st : swipe_state) (ts : list string) : list movie :=
  omap (getSwipeMovieByTitle st) ts.

(** *** Match notifications *)

Definition showMatchModal (t : string) (st : swipe_state) : swipe_state :=
  set_shownLog (shownLog st ++ [t])
    (set_seenMatches ({[t]} ∪ seenMatches st)
       (set_matchModalOpen true st)).

Definition processMatchQueue (st : swipe_state) : swipe_state :=
  if matchModalOpen st then st
  else match matchQueue st with
       | [] => st
       | next :: rest =>
           if String.eqb next "" then set_matchQueue rest st
           else showMatchModal next (set_matchQueue rest st)
       end.

Definition enqueueMatchModal (t : string) (st : swipe_state) : swipe_state :=
  if String.eqb t "" || bool_decide (t ∈ seenMatches st) then st
  else processMatchQueue
         (set_enqueuedLog (enqueuedLog st ++ [t])
            (set_matchQueue (matchQueue st ++ [t]) st)).

Definition closeMatchModal (st : swipe_state) : swipe_state :=
  processMatchQueue (set_matchModalOpen false st).

(** *** Progress *)

Definition resetProgressEntries (st : swipe_state) (r : rng)
  : gmap string progress * rng :=
  foldl (fun acc p =>
           let '(o, r') := randomOrderTitles st acc.2 in
           (<[p := Progress 0 false o]> acc.1, r'))
        (∅, r) (swipePersons st).

Definition resetSwipeProgressAll (st : swipe_state) (r : rng) : swipe_state * rng :=
  let '(pr, r1) := resetProgressEntries st r in
  let '(current, r2) :=
    match pr !! swipeCurrentPerson st with
    | Some c => (c, r1)
    | None => let '(o, r') := randomOrderTitles st r1 in (Progress 0 false o, r')
    end in
  let ord := titlesToMovieOrder st (order current) in
  (set_swipeCompleted (done current || (length ord =? 0)%nat)
     (set_swipeCurrentIndex (idx current)
        (set_swipeOrder ord
           (set_swipeProgress pr st))), r2).

Definition applySwipeProgress (person : string) (st : swipe_state) (r : rng)
  : swipe_state * rng :=
  if String.eqb person "" then (st, r)
  else
    let '(entry, pr, r1) :=
      match swipeProgress st !! person with
      | Some e =>
          if (length (order e) =? 0)%nat
          then let '(o, r') := randomOrderTitles st r in
               (Progress 0 false o, <[person := Progress 0 false o]> (swipeProgress st), r')
          else (e, swipeProgress st, r)
      | None =>
          let '(o, r') := randomOrderTitles st r in
          (Progress 0 false o, <[person := Progress 0 false o]> (swipeProgress st), r')
      end in
    let ord := titlesToMovieOrder st (order entry) in
    let maxIdx := Z.of_nat (length ord) in
    let i := Z.min (idx entry) maxIdx in
    (set_swipeCompleted (done entry || (maxIdx =? 0)%Z || (maxIdx <=? i)%Z)
       (set_swipeCurrentIndex i
          (set_swipeOrder ord
             (set_swipeProgress pr st))), r1).

Definition normalizeProgressEntry (st : swipe_state) (titles : list string)
    (entry : option raw_progress) (r : rng) : progress * rng :=
  let kept := match entry ≫= p_order with
              | Some o => filter (fun t => includes titles t = true) o
              | None => []
              end in
  let missing := filter (fun t => includes kept t = false) titles in
  let '(o1, r1) := match missing with
                   | [] => (kept, r)
                   | _ => let '(m, r') := shuffleArray missing r in (kept ++ m, r')
                   end in
  let '(o2, r2) := match o1 with
                   | [] => randomOrderTitles st r1
                   | _ => (o1, r1)
                   end in
  let i := clamp (default 0 (entry ≫= p_idx)) 0 (Z.of_nat (length o2)) in
  (Progress i (default false (p_done <$> entry) || (Z.of_nat (length o2) <=? i)%Z) o2, r2).

Definition normalizeSwipeProgress (st : swipe_state)
    (raw : gmap string raw_progress) (persons titles : list string) (r : rng)
  : gmap string progress * rng :=
  foldl (fun acc p =>
           let '(e, r') := normalizeProgressEntry st titles (raw !! p) acc.2 in
           (<[p := e]> acc.1, r'))
        (∅, r) persons.

(** *** Likes and matches *)

Definition recordSwipeLike (m person : string) (st : swipe_state) : swipe_state :=
  let likes0 := default [] (swipeLikes st !! m) in
  let likes1 := if includes likes0 person then likes0 else likes0 ++ [person] in
  let st1 := set_swipeLikes (<[m := likes1]> (swipeLikes st)) st in
  if (swipePersonCount st <=? length likes1)%nat
  then enqueueMatchModal m (set_swipeMatches (set_add m (swipeMatches st1)) st1)
  else st1.

Definition recordSwipeDislike (m person : string) (st : swipe_state) : swipe_state :=
  match swipeLikes st !! m with
  | None => st
  | Some likes =>
      set_swipeLikes (<[m := filter (fun p => p ≠ person) likes]> (swipeLikes st)) st
  end.

(** *** Editing the list *)

Definition addSwipeMovie (displayTitle : string) (st : swipe_state) (r : rng)
  : swipe_state * rng :=
  if String.eqb displayTitle "" then (st, r)
  else
    let info := default (Movie displayTitle "" "" "" "" "")
                        (swipeSuggestionsMap st !! displayTitle) in
    match find_movie (swipeSelectedMovies st) (title info) with
    | Some _ => (st, r)
    | None =>
        let movieObj :=
          Movie (title info) (str_or (display info) displayTitle) (image info)
                (if is_http (image info) then image info else "")
                (swipeCurrentPerson st) "manual" in
        let likes := <[title info := default [] (swipeLikes st !! title info)]> (swipeLikes st) in
        resetSwipeProgressAll
          (set_swipeLikes likes
             (set_swipeSelectedMovies (swipeSelectedMovies st ++ [movieObj]) st)) r
    end.

Definition removeSwipeMovie (t : string) (st : swipe_state) (r : rng)
  : swipe_state * rng :=
  resetSwipeProgressAll
    (set_swipeMatches (filter (fun x => x ≠ t) (swipeMatches st))
       (set_swipeLikes (delete t (swipeLikes st))
          (set_swipeSelectedMovies
             (filter (fun m => title m ≠ t) (swipeSelectedMovies st)) st))) r.

Definition performClearSwipeList (st : swipe_state) (r : rng) : swipe_state * rng :=
  resetSwipeProgressAll
    (set_swipeLocked false
       (set_swipeMatches []
          (set_swipeLikes ∅
             (set_swipeOrder []
                (set_swipeSelectedMovies [] st))))) r.

Definition swipe_person_name (i : nat) : string := "p" +:+ pretty (S i).

Definition setSwipePersons (n : Z) (st : swipe_state) (r : rng) : swipe_state * rng :=
  let count := Z.to_nat (Z.max 2 (Z.min 5 n)) in
  let ps := swipe_person_name <$> seq 0 count in
  let st1 := set_swipeCurrentPerson (default "" (head ps))
               (set_swipePersons ps (set_swipePersonCount count st)) in
  let '(st2, r2) := resetSwipeProgressAll st1 r in
  applySwipeProgress (swipeCurrentPerson st2) st2 r2.

(** The state changes of [confirmSwipeSetup], up to its request. *)
Definition confirmSwipeSetup (st : swipe_state) (r : rng) : swipe_state * rng :=
  let '(st1, r1) := resetSwipeProgressAll (set_swipeMatches [] (set_swipeLikes ∅ st)) r in
  let '(st2, r2) := applySwipeProgress (swipeCurrentPerson st1) st1 r1 in
  (set_swipeLocked true st2, r2).

(** *** Applying a loaded swipe state *)

Definition applySwipeStateFromServer (API_BASE : string) (s : swipe_snapshot)
    (st : swipe_state) (r : rng) : swipe_state * rng :=
  let prevMatches := swipeMatches st in
  let ms := normalizeMovieImage API_BASE <$> w_movies s in
  let ps := match w_persons s with
            | [] => match swipePersons st with
                    | [] => ["p1"; "p2"]
                    | _ => swipePersons st
                    end
            | _ => w_persons s
            end in
  let count := match length ps with O => 2%nat | n => n end in
  let matches := set_of_list (w_matches s) in
  let st1 := set_swipeMatches matches
               (set_swipeLikes (w_likes s)
                  (set_swipePersonCount count
                     (set_swipePersons ps
                        (set_swipeSelectedMovies ms st)))) in
  let st2 := foldl (fun acc m =>
                      if includes prevMatches m then acc else enqueueMatchModal m acc)
                   st1 matches in
  let st3 := set_swipeLocked (w_locked s)
               (set_seenMatches (seenMatches st2 ∪ list_to_set matches) st2) in
  let '(pr, r1) := normalizeSwipeProgress st3 (w_progress s) ps (titles_of ms) r in
  let st4 := set_swipeProgress pr st3 in
  let st5 := if includes ps (swipeCurrentPerson st4) then st4
             else set_swipeCurrentPerson (str_or (default "" (head ps)) "p1") st4 in
  applySwipeProgress (swipeCurrentPerson st5) st5 r1.

(** ** Properties the statements below are phrased with *)


(** Two different items of the movie list hold a rating. *)
Definition two_items_rated (st : rank_state) : Prop :=
  exists a b, a ∈ movies st /\ b ∈ movies st /\ title a <> title b /\
    is_Some (obj_get (ratings st) (title a)) /\
    is_Some (obj_get (ratings st) (title b)).

(** A progress entry whose order is a permutation of [titles] and whose
    cursor lies within the order. *)
Definition entry_ok (titles : list string) (e : progress) : Prop :=
  order e ≡ₚ titles /\ 0 <= idx e <= Z.of_nat (length (order e)).

(** Every person of the session has such an entry for the current titles. *)
Definition progress_ok (st : swipe_state) : Prop :=
  forall p, p ∈ swipePersons st ->
    exists e, swipeProgress st !! p = Some e /\
      entry_ok (titles_of (swipeSelectedMovies st)) e.

(** The like set of a title, empty when the title has no entry. *)
Definition likeSet (st : swipe_state) (m : string) : list string :=
  default [] (swipeLikes st !! m).

(** A like decision as the specification words it: the voter is in the like
    set afterwards, and a title not yet matched is in the match set
    afterwards exactly when the like set has as many voters as there are
    participants. *)
Definition like_matches_on_equal (m person : string) (st : swipe_state) : Prop :=
  let st' := recordSwipeLike m person st in
  person ∈ likeSet st' m /\
  (m ∉ swipeMatches st ->
   (m ∈ swipeMatches st' <-> length (likeSet st' m) = swipePersonCount st)).


(** A loaded swipe state whose titles are distinct and whose progress orders
    repeat no title. *)
Definition snapshot_distinct (s : swipe_snapshot) : Prop :=
  NoDup (titles_of (w_movies s)) /\
  forall p e o, w_progress s !! p = Some e -> p_order e = Some o -> NoDup o.

(** The pair as the specification words its keeping: both members hold a
    rating, and then a selection leaves the pair as it is, whatever the
    selection is asked to do. *)
Definition pair_in_ratings (st : rank_state) : Prop :=
  exists l r, currentPair st = Some (Some l, Some r) /\
    is_Some (obj_get (ratings st) (title l)) /\
    is_Some (obj_get (ratings st) (title r)).

Definition pair_kept_when_rated (st : rank_state) : Prop :=
  pair_in_ratings st ->
  forall preservePair skipPickPair z,
    currentPair (updateVoteVisibility preservePair skipPickPair st z) = currentPair st.

(** The same for the selections that are asked to preserve the pair. *)
Definition pair_preserved_when_rated (st : rank_state) : Prop :=
  pair_in_ratings st ->
  forall z, currentPair (updateVoteVisibility true false st z) = currentPair st.

(** ** Events of a swipe session *)

Inductive swipe_event :=
| EvLike (m person : string)
| EvDislike (m person : string)
| EvLoad (API_BASE : string) (s : swipe_snapshot)
| EvCloseModal
| EvAdd (displayTitle : string)
| EvRemove (t : string)
| EvClear
| EvPersons (n : Z)
| EvConfirm.

Definition step (c : swipe_state * rng) (ev : swipe_event) : swipe_state * rng :=
  match ev with
  | EvLike m p => (recordSwipeLike m p c.1, c.2)
  | EvDislike m p => (recordSwipeDislike m p c.1, c.2)
  | EvLoad api s => applySwipeStateFromServer api s c.1 c.2
  | EvCloseModal => (closeMatchModal c.1, c.2)
  | EvAdd d => addSwipeMovie d c.1 c.2
  | EvRemove t => removeSwipeMovie t c.1 c.2
  | EvClear => performClearSwipeList c.1 c.2
  | EvPersons n => setSwipePersons n c.1 c.2
  | EvConfirm => confirmSwipeSetup c.1 c.2
  end.

Definition run (c : swipe_state * rng) (evs : list swipe_event) : swipe_state * rng :=
  foldl step c evs.

(** From [st] to [st'] the enqueue history grew by titles that were not in
    the seen set of [st], and the seen set did not shrink. *)
Definition log_step (st st' : swipe_state) : Prop :=
  exists new, enqueuedLog st' = enqueuedLog st ++ new /\
    (forall x, x ∈ new -> x ∉ seenMatches st) /\
    seenMatches st ⊆ seenMatches st'.

(** ** Concrete inputs *)

Definition item (t : string) : movie := Movie t t "" "" "" "manual".

Definition no_rating : raw_rating := empty_entry.

(** Movies A and B; the ratings still carry C, which left the list. *)
Definition snapshot_stale (confirmed : bool) : rank_snapshot :=
  RankSnapshot [item "A"; item "B"] Nullish Nullish
    [("A", no_rating); ("B", no_rating); ("C", no_rating)]
    None None ∅ confirmed.

(** The list before C left it. *)
Definition snapshot_before : rank_snapshot :=
  RankSnapshot [item "C"; item "A"] Nullish Nullish
    [("C", no_rating); ("A", no_rating)]
    None None ∅ true.

Definition draws_zero : nat -> Q := fun _ => 0%Q.

(** The second sample drawn is one sigma above the mean. *)
Definition draws_second_high : nat -> Q := fun i => if (i =? 1)%nat then 1%Q else 0%Q.

(** The third sample drawn is one sigma above the mean. *)
Definition draws_third_high : nat -> Q := fun i => if (i =? 2)%nat then 1%Q else 0%Q.

(** Loaded, not yet confirmed: no pair has been picked. *)
Definition state_stale : rank_state :=
  applyState "" (snapshot_stale false) false false rank_init draws_zero.

(** The pair (C, A) was picked, then a poll loaded the list without C and
    kept the pair ([preservePair] and [skipPickPair] set). *)
Definition state_polled : rank_state :=
  applyState "" (snapshot_stale true) true true
    (applyState "" snapshot_before false false rank_init draws_zero) draws_zero.

(** Movies A and B with the pair (A, B) on screen. *)
Definition state_paired : rank_state :=
  applyState ""
    (RankSnapshot [item "A"; item "B"] Nullish Nullish
       [("A", no_rating); ("B", no_rating)] None None ∅ true)
    false false rank_init draws_zero.

(** One movie; the configured base sigma is 0 and the stored sigma of the
    movie is not a number. *)
Definition snapshot_unparsable_sigma : rank_snapshot :=
  RankSnapshot [item "A"] Nullish (Number 0)
    [("A", RawRating Nullish Nullish Unparsable None None)]
    None None ∅ false.

(** Three movies, no vote so far; the state carries no coverage object, or
    an empty one. *)
Definition snapshot_no_coverage : rank_snapshot :=
  RankSnapshot [item "A"; item "B"; item "C"] Nullish Nullish [] None None ∅ false.

Definition snapshot_empty_coverage : rank_snapshot :=
  RankSnapshot [item "A"; item "B"; item "C"] Nullish Nullish [] None
    (Some (Coverage None None None)) ∅ false.

Definition draws_fixed : rng := fun i => (7 * i + 3)%nat.

(** One title X in an open session of three persons; p1 and p3 liked it
    while the server was down, then the session was set to two persons,
    which keeps the likes. *)
Definition state_resized : swipe_state :=
  (setSwipePersons 2
     (recordSwipeLike "X" "p3"
        (recordSwipeLike "X" "p1"
           (setSwipePersons 3 (addSwipeMovie "X" swipe_init draws_fixed).1 draws_fixed).1))
     draws_fixed).1.

(** A confirmed, hence locked, session over the one title X. *)
Definition state_locked : swipe_state :=
  (confirmSwipeSetup
     (setSwipePersons 2 (addSwipeMovie "X" swipe_init draws_fixed).1 draws_fixed).1
     draws_fixed).1.

(** A loaded swipe state whose order for p1 names A twice. *)
Definition snapshot_repeated_order : swipe_snapshot :=
  SwipeSnapshot [item "A"; item "B"] ["p1"; "p2"] ∅ [] true
    {[ "p1" := RawProgress (Some 0) false (Some ["A"; "A"]) ]}.

(** Two persons, titles X and Y; Y has matched and its notification is on
    screen; p1 has liked X. *)
Definition state_modal_open : swipe_state :=
  recordSwipeLike "X" "p1"
    (recordSwipeLike "Y" "p2"
       (recordSwipeLike "Y" "p1"
          (setSwipePersons 2
             (addSwipeMovie "Y" (addSwipeMovie "X" swipe_init draws_fixed).1 draws_fixed).1
             draws_fixed).1)).

(** ** The ranking table *)

Section JsSort.
Context {A : Type} (cmp : A -> A -> comparison).

(** [Array.prototype.sort] with the comparator [cmp], as for the samples:
    an element moves behind a later one only when [cmp] is positive. *)
Fixpoint js_sort_insert (x : A) (l : list A) : list A :=
  match l with
  | [] => [x]
  | y :: l' =>
      match cmp x y with
      | Gt => y :: js_sort_insert x l'
      | _ => x :: l
      end
  end.

Definition js_sort (l : list A) : list A := foldr js_sort_insert [] l.
End JsSort.

Record ranking_row := RankingRow {
  row_title : string;
  row_rating : Q;
  row_sigma : Q;
  row_games : Z;
  row_wins : Z;
  row_rank : nat
}.

(** The sign of [b.rating - a.rating]. *)
Definition compareRating (a b : string * rating) : comparison :=
  (ts_mu b.2 ?= ts_mu a.2)%Q.

(** [computeRanking()]; the entries of [ratings] come from [ensureTsRating],
    so [r.ts_mu] and [r.ts_sigma] are never nullish and the defaults
    [?? r.rating ?? 0] and [?? TS_SIGMA] are not taken. *)
Definition computeRanking (rs : list (string * rating)) : list ranking_row :=
  let arr := omap (fun t => pair t <$> obj_get rs t) (obj_keys rs) in
  imap (fun i kv =>
          RankingRow kv.1 (ts_mu kv.2) (ts_sigma kv.2) (games kv.2) (wins kv.2) (S i))
       (js_sort compareRating arr).

(** The globals as [applyState] has set them when it calls
    [updateVoteVisibility]. *)
Definition applyState_assigned (API_BASE : string) (s : rank_snapshot)
    (st : rank_state) : rank_state :=
  let ms := normalizeMovieImage API_BASE <$> s_movies s in
  let mu := default (TS_MU st) (parseFloat (s_tsConfig_mu s)) in
  let sigma := default (TS_SIGMA st) (parseFloat (s_tsConfig_sigma s)) in
  let rs := normalizeRatings mu sigma ms (s_ratings s) in
  let requested := match s_personCount s with
                   | Some n => if (n =? 0)%Z then 1 else n
                   | None => 1
                   end in
  let pc := Z.max 1 requested in
  let ps := person_name <$> seq 0 (Z.to_nat pc) in
  let rawCoverage := default default_coverage (s_pairCoverage s) in
  let inferred := inferredTotalPairs (length ms) rawCoverage in
  let overall := normalizeCoverage inferred rawCoverage in
  let perPerson :=
    foldl (fun acc p =>
             let entry := default (Coverage (Some 0%Q) (Some inferred) (Some 0%Q)) (acc !! p) in
             <[p := normalizeCoverage inferred entry]> acc)
          (s_pairCoveragePerPerson s) ps in
  RankState mu sigma ms rs (currentPair st) pc ps overall perPerson (s_rankerConfirmed s).

(** What the two loops of [applyState] over the movies and over the
    incoming ratings keep: no key twice, and every entry is the normalised
    incoming entry of its title. *)
Definition ratings_from (mu sigma : Q) (incoming : list (string * raw_rating))
    (acc : list (string * rating)) : Prop :=
  NoDup (obj_keys acc) /\
  forall t e, obj_get acc t = Some e -> e = ensureTsRating mu sigma (obj_get incoming t).

(** A pair that is still listed is held with the current movie objects. *)
Definition pair_settled (st : rank_state) : Prop :=
  forall l r, pairStill st = Some (l, r) -> currentPair st = Some (Some l, Some r).

(** A rating as an entry of a stored state: every field present, the two
    counts as [parseInt] reads them back, which is as they are below
    10^21. *)
Definition stored_rating (r : rating) : raw_rating :=
  RawRating (Number (ts_mu r)) Nullish (Number (ts_sigma r)) (Some (games r)) (Some (wins r)).

(** ** Swipe: saving the view, deciding without the server, switching person *)

Definition saveSwipeProgress (person : string) (st : swipe_state) (r : rng)
  : swipe_state * rng :=
  if String.eqb person "" then (st, r)
  else
    let orderTitles := title <$> swipeOrder st in
    let stale := match swipeProgress st !! person with
                 | None => true
                 | Some e => negb (length (order e) =? length (swipeSelectedMovies st))%nat
                 end in
    (* the entry made here is overwritten field by field below; of the
       call [randomOrderTitles()] only the draws remain *)
    let r1 := if stale
              then match orderTitles with
                   | [] => (randomOrderTitles st r).2
                   | _ => r
                   end
              else r in
    let entry := Progress (Z.min (swipeCurrentIndex st) (Z.of_nat (length orderTitles)))
                          (swipeCompleted st) orderTitles in
    (set_swipeProgress (<[person := entry]> (swipeProgress st)) st, r1).

(** The [catch] branch of [sendSwipeDecision]: the decision is recorded
    locally; [like] stands for [decision === 'Ja']. *)
Definition swipeDecisionOffline (like : bool) (t person : string)
    (st : swipe_state) (r : rng) : swipe_state * rng :=
  let st1 := if like then recordSwipeLike t person st else recordSwipeDislike t person st in
  let len := Z.of_nat (length (swipeOrder st1)) in
  let i := Z.min (swipeCurrentIndex st1 + 1) len in
  saveSwipeProgress person
    (set_swipeCompleted (len <=? i) (set_swipeCurrentIndex i st1)) r.

(** The click handler of a person button of [renderSwiperPersonButtons]. *)
Definition selectSwipePerson (p : string) (st : swipe_state) (r : rng)
  : swipe_state * rng :=
  let '(st1, r1) := saveSwipeProgress (swipeCurrentPerson st) st r in
  applySwipeProgress p (set_swipeCurrentPerson p st1) r1.

(** ** Swipe: the state sent to the server *)

Definition serializeSwipeMovie (API_BASE : string) (m : movie) : movie :=
  Movie (title m) (display m) (image m) (resolveMovieImage API_BASE m)
        (addedBy m) (str_or (source m) "manual").

Definition serializeSwipeMovies (API_BASE : string) (st : swipe_state) : list movie :=
  serializeSwipeMovie API_BASE <$> swipeSelectedMovies st.

Definition stored_progress (e : progress) : raw_progress :=
  RawProgress (Some (idx e)) (done e) (Some (order e)).

(** The body of the request of [persistSwipeState]. *)
Definition persistSwipeState (API_BASE : string) (st : swipe_state) : swipe_snapshot :=
  SwipeSnapshot (serializeSwipeMovies API_BASE st) (swipePersons st) (swipeLikes st)
    (swipeMatches st) (swipeLocked st) (stored_progress <$> swipeProgress st).

(** ** Events of a session, with the local ones *)

Inductive session_event :=
| SeSwipe (ev : swipe_event)
| SeDecide (like : bool) (t person : string)
| SeSelect (p : string)
| SeSave (person : string).

Definition session_step (c : swipe_state * rng) (ev : session_event) : swipe_state * rng :=
  match ev with
  | SeSwipe e => step c e
  | SeDecide like t p => swipeDecisionOffline like t p c.1 c.2
  | SeSelect p => selectSwipePerson p c.1 c.2
  | SeSave p => saveSwipeProgress p c.1 c.2
  end.

Definition session_run (c : swipe_state * rng) (evs : list session_event)
  : swipe_state * rng :=
  foldl session_step c evs.

(** ** Properties of a session *)

(** The three groups of globals of the swipe session: notifications, the
    list with its votes, and the deck of the person on screen. *)
Definition queue_fields (st : swipe_state) :=
  (matchQueue st, seenMatches st, matchModalOpen st, enqueuedLog st, shownLog st).

Definition core_fields (st : swipe_state) :=
  (swipeSuggestionsMap st, swipeSelectedMovies st, swipeLikes st, swipeMatches st,
   swipePersonCount st, swipePersons st, swipeLocked st).

Definition view_fields (st : swipe_state) :=
  (swipeCurrentPerson st, swipeCurrentIndex st, swipeOrder st, swipeCompleted st,
   swipeProgress st).

(** The notifications are handed out in the order they were asked for:
    what was enqueued is what was shown followed by what still waits,
    nothing waits while no notification is on screen, no empty title was
    enqueued, and what was shown is in the seen set. *)
Definition queue_ok (st : swipe_state) : Prop :=
  enqueuedLog st = shownLog st ++ matchQueue st /\
  (matchModalOpen st = false -> matchQueue st = []) /\
  ("" ∉ enqueuedLog st) /\
  (forall t, t ∈ shownLog st -> t ∈ seenMatches st).

(** The deck on screen shows every title of the list once and the cursor
    lies within it. *)
Definition view_ok (st : swipe_state) : Prop :=
  title <$> swipeOrder st ≡ₚ titles_of (swipeSelectedMovies st) /\
  0 <= swipeCurrentIndex st <= Z.of_nat (length (swipeOrder st)).

(** A progress entry as a reset writes it: cursor 0, not done, the titles
    in some order. *)
Definition fresh_entry (titles : list string) (e : progress) : Prop :=
  idx e = 0 /\ done e = false /\ order e ≡ₚ titles.

(** Every progress entry, of a person or left over, is well formed. *)
Definition entries_ok (st : swipe_state) : Prop :=
  forall p e, swipeProgress st !! p = Some e ->
    entry_ok (titles_of (swipeSelectedMovies st)) e.

(** A well-formed session: no empty title, no empty person name, every
    person with a well-formed progress entry, a well-formed deck. *)
Definition session_ok (st : swipe_state) : Prop :=
  ("" ∉ titles_of (swipeSelectedMovies st)) /\
  ("" ∉ swipePersons st) /\
  progress_ok st /\ entries_ok st /\ view_ok st.



(** ** Every operation on the swipe session *)

(** The swipe globals as the success branch of [resetAllStates] leaves
    them: list, likes, matches and progress are emptied directly; the deck
    [swipeOrder], the persons and the notifications are not touched. *)
Definition resetAllStates (st : swipe_state) : swipe_state :=
  set_swipeCurrentIndex 0
    (set_swipeCompleted false
       (set_swipeLocked false
          (set_swipeProgress ∅
             (set_swipeMatches []
                (set_swipeLikes ∅
                   (set_swipeSelectedMovies [] st)))))).






(** No empty title in the list and no empty person name. *)
Definition names_ok (st : swipe_state) : Prop :=
  ("" ∉ titles_of (swipeSelectedMovies st)) /\ ("" ∉ swipePersons st).








(** [Math.random] with the draws [ks] first. *)
Definition rng_of (ks : list nat) (r : rng) : rng :=
  fun i => default (r (i - length ks)%nat) (ks !! i).

Fixpoint rng_drop (n : nat) (r : rng) : rng :=
  match n with
  | O => r
  | S n' => rng_drop n' (rng_tail r)
  end.

(** A string without a slash. *)
Fixpoint no_slash (s : string) : bool :=
  match s with
  | EmptyString => true
  | String c s' => negb (Ascii.eqb c "/"%char) && no_slash s'
  end.

(** ** Further concrete inputs *)

(** A confirmed list that names the title A twice: one rating, two movies. *)
Definition state_twins : rank_state :=
  applyState ""
    (RankSnapshot [item "A"; item "A"] Nullish Nullish [] None None ∅ true)
    false false rank_init draws_zero.




(** A poll of the list A, B, C with the ratings of A and B. *)
Definition snapshot_poll : rank_snapshot :=
  RankSnapshot [item "A"; item "B"; item "C"] Nullish Nullish
    [("A", no_rating); ("B", no_rating)] None None ∅ true.

(** * Proofs *)

(** ** The movie-by-title map *)

Lemma fromEntries_foldl (ms : list movie) (acc : gmap string movie) (t : string) (m : movie) :
  foldl (fun a x => <[title x := x]> a) acc ms !! t = Some m ->
  acc !! t = Some m \/ (m ∈ ms /\ title m = t).
Proof.
  revert acc. induction ms as [|x ms IH]; intros acc H; simpl in H.
  - by left.
  - destruct (IH _ H) as [Hacc | [Hin Ht]].
    + destruct (decide (title x = t)) as [<- | Hne].
      * rewrite lookup_insert_eq in Hacc. injection Hacc as ->.
        right. split; [apply list_elem_of_here | done].
      * rewrite lookup_insert_ne in Hacc by done. by left.
    + right. split; [by apply list_elem_of_further | done].
Qed.

Lemma fromEntries_lookup (ms : list movie) (t : string) (m : movie) :
  fromEntries ms !! t = Some m -> m ∈ ms /\ title m = t.
Proof.
  intros H. destruct (fromEntries_foldl _ _ _ _ H) as [Hemp | ?]; [|done].
  by rewrite lookup_empty in Hemp.
Qed.

Lemma fromEntries_foldl_is_Some (ms : list movie) (acc : gmap string movie) (t : string) :
  is_Some (acc !! t) \/ t ∈ titles_of ms ->
  is_Some (foldl (fun a x => <[title x := x]> a) acc ms !! t).
Proof.
  revert acc. induction ms as [|x ms IH]; intros acc H; simpl.
  - destruct H as [H | H]; [done | by apply elem_of_nil in H].
  - apply IH. unfold titles_of in H. rewrite fmap_cons in H.
    destruct (decide (title x = t)) as [<- | Hne].
    + left. rewrite lookup_insert_eq. by eexists.
    + destruct H as [H | H].
      * left. by rewrite lookup_insert_ne.
      * apply elem_of_cons in H as [H | H]; [congruence | by right].
Qed.

Lemma fromEntries_is_Some (ms : list movie) (t : string) :
  is_Some (fromEntries ms !! t) <-> t ∈ titles_of ms.
Proof.
  split.
  - intros [m Hm]. apply fromEntries_lookup in Hm as [Hin <-].
    unfold titles_of. by apply list_elem_of_fmap_2.
  - intros H. apply fromEntries_foldl_is_Some. by right.
Qed.

Lemma movieByTitle_set_currentPair p st :
  movieByTitle (set_currentPair p st) = movieByTitle st.
Proof. reflexivity. Qed.

(** ** Sorting the samples *)



Lemma sort_insert_perm x l : sort_insert x l ≡ₚ x :: l.
Proof.
  induction l as [|y l IH]; simpl; [done|].
  destruct (compareFn x y); try done.
  rewrite IH. apply Permutation_swap.
Qed.

Lemma sort_samples_perm l : sort_samples l ≡ₚ l.
Proof.
  induction l as [|x l IH]; simpl; [done|].
  rewrite sort_insert_perm. by constructor.
Qed.



(** ** Sampling *)

Lemma obj_get_is_Some {V} (o : list (string * V)) (t : string) :
  is_Some (obj_get o t) <-> t ∈ obj_keys o.
Proof.
  unfold obj_keys. induction o as [|[k v] o IH]; simpl.
  - split; [by intros [? ?] | by intros ?%elem_of_nil].
  - destruct (String.eqb_spec k t) as [-> | Hne].
    + split; [intros _; apply list_elem_of_here | by eexists].
    + rewrite IH. split; [apply list_elem_of_further|].
      intros [? | ?]%elem_of_cons; [congruence | done].
Qed.

Lemma sample_titles_fst rs keys z n : (sample_titles rs keys z n).*1 = keys.
Proof.
  revert n. induction keys as [|t keys IH]; intros n; simpl; [done|].
  destruct (obj_get rs t); simpl; by rewrite IH.
Qed.


Lemma sampled_length st z : length (sampled st z) = length (ratings st).
Proof.
  unfold sampled. rewrite <- (length_fmap fst), sample_titles_fst.
  unfold obj_keys. by rewrite length_fmap.
Qed.


(** ** Pair selection *)

Lemma set_currentPair_same st : set_currentPair (currentPair st) st = st.
Proof. by destruct st. Qed.

Lemma pairStill_titles st lft rgt l r :
  currentPair st = Some (Some lft, Some rgt) ->
  pairStill st = Some (l, r) ->
  movieByTitle st !! title lft = Some l /\ movieByTitle st !! title rgt = Some r /\
  title l = title lft /\ title r = title rgt.
Proof.
  unfold pairStill. intros ->.
  destruct (movieByTitle st !! title lft) as [l'|] eqn:Hl; [|done].
  destruct (movieByTitle st !! title rgt) as [r'|] eqn:Hr; [|done].
  intros [= <- <-]. repeat split.
  - by apply fromEntries_lookup in Hl as [_ ?].
  - by apply fromEntries_lookup in Hr as [_ ?].
Qed.

Lemma pairStill_refreshed st l r :
  movieByTitle st !! title l = Some l -> movieByTitle st !! title r = Some r ->
  pairStill (set_currentPair (Some (Some l, Some r)) st) = Some (l, r).
Proof.
  intros Hl Hr. unfold pairStill. simpl.
  rewrite movieByTitle_set_currentPair. by rewrite Hl, Hr.
Qed.


(** C1 (code defect, shared with C10).  Movies A and B are rated and no pair
    is on screen, so the precondition of the claim holds; the ratings also
    carry the departed title C.  C gets a sample too, the highest one, and
    the pair is (undefined, A): not the two items with the highest
    samples. *)
Theorem pickPair_pair_not_two_items :
  two_items_rated state_stale /\
  pairStill state_stale = None /\
  sort_samples (sampled state_stale draws_third_high) =
    [("C", Fin (1500 + 1 * 400)); ("A", Fin (1500 + 0 * 400)); ("B", Fin (1500 + 0 * 400))] /\
  currentPair (pickPair state_stale draws_third_high) = Some (None, Some (item "A")).
Proof.
  split.
  { exists (item "A"), (item "B"). repeat split.
    - apply list_elem_of_here.
    - apply list_elem_of_further, list_elem_of_here.
    - discriminate.
    - by eexists.
    - by eexists. }
  repeat split; vm_compute; reflexivity.
Qed.

(** C10 (code defect).  Loading a confirmed state whose ratings retain the
    title C, absent from the movie list, makes pair selection put
    [movieByTitle["C"]], which is undefined, into the pair: C is sampled
    like the listed titles and wins with a draw one sigma above the mean. *)
Theorem applyState_pair_has_undefined :
  movieByTitle (applyState "" (snapshot_stale true) false false rank_init draws_third_high)
    !! "C" = None /\
  is_Some (obj_get (ratings (applyState "" (snapshot_stale true) false false
                               rank_init draws_third_high)) "C") /\
  currentPair (applyState "" (snapshot_stale true) false false rank_init draws_third_high)
    = Some (None, Some (item "A")).
Proof.
  split; [vm_compute; reflexivity|]. split; [|vm_compute; reflexivity].
  exists (Rating 1500 400 0 0). vm_compute. reflexivity.
Qed.

(** C2, as stated, fails twice over.  With the pair (A, B) on screen over
    the movies A and B, a selection that is asked neither to preserve the
    pair nor to skip the selection draws again and shows (B, A), with no
    vote in between.  And after a poll that dropped movie C the pair (C, A)
    still has both titles in the ratings, yet a selection that is asked to
    preserve the pair replaces it by (A, B). *)
Lemma pair_in_ratings_not_kept :
  ~ pair_kept_when_rated state_paired /\ ~ pair_preserved_when_rated state_polled.
Proof.
  split; intros H.
  - assert (pair_in_ratings state_paired) as Hin.
    { exists (item "A"), (item "B"). split; [vm_compute; reflexivity|].
      split; exists (Rating 1500 400 0 0); vm_compute; reflexivity. }
    specialize (H Hin false false draws_second_high). vm_compute in H. discriminate.
  - assert (pair_in_ratings state_polled) as Hin.
    { exists (item "C"), (item "A"). split; [vm_compute; reflexivity|].
      split; exists (Rating 1500 400 0 0); vm_compute; reflexivity. }
    specialize (H Hin draws_zero). vm_compute in H. discriminate.
Qed.

(** C2 (amended).  When the two members of the current pair are titles of
    the movie-by-title map, a selection that is asked to preserve the pair
    or to skip the selection keeps the pair: where the vote section is on
    show the pair becomes the current movie objects of the same two titles,
    elsewhere the state is returned untouched; nothing but the pair is
    written, no draw is used, the state is returned as it is when the pair
    already holds the current objects, and a further such selection changes
    nothing.  A selection that is asked for neither does not look at the
    pair: it clears it and calls [pickPair].  [applyState] ends with this
    selection on the globals it has assigned. *)
Theorem updateVoteVisibility_keeps_listed_pair (st : rank_state) (lft rgt l r : movie)
    (preservePair skipPickPair : bool) (z : nat -> Q) :
  currentPair st = Some (Some lft, Some rgt) ->
  movieByTitle st !! title lft = Some l ->
  movieByTitle st !! title rgt = Some r ->
  preservePair || skipPickPair = true ->
  let shown := rankerConfirmed st && (2 <=? length (movies st))%nat in
  let st' := updateVoteVisibility preservePair skipPickPair st z in
  st' = (if shown then set_currentPair (Some (Some l, Some r)) st else st) /\
  l ∈ movies st /\ r ∈ movies st /\ title l = title lft /\ title r = title rgt /\
  (l = lft -> r = rgt -> st' = st) /\
  (forall z', updateVoteVisibility preservePair skipPickPair st z' = st') /\
  (forall pp sk z', pp || sk = true -> updateVoteVisibility pp sk st' z' = st') /\
  (forall z', updateVoteVisibility false false st z' =
              if shown then pickPair (set_currentPair None st) z' else st) /\
  (forall api s st0, st = applyState_assigned api s st0 ->
     applyState api s preservePair skipPickPair st0 z = st').
Proof.
  intros Hpair Hl Hr Hflags shown st'.
  assert (pairStill st = Some (l, r)) as Hstill.
  { unfold pairStill. by rewrite Hpair, Hl, Hr. }
  pose proof Hl as Hl'. pose proof Hr as Hr'. unfold movieByTitle in Hl', Hr'.
  apply fromEntries_lookup in Hl' as [Hlin Htl]. apply fromEntries_lookup in Hr' as [Hrin Htr].
  assert (forall pp sk z', pp || sk = true ->
            updateVoteVisibility pp sk st z' =
              if shown then set_currentPair (Some (Some l, Some r)) st else st) as Hkeep.
  { intros pp sk z' Hf. unfold updateVoteVisibility. fold shown.
    destruct shown; [|done]. cbn [negb].
    destruct sk; [by rewrite Hstill|].
    rewrite orb_false_r in Hf. subst pp. by rewrite Hstill. }
  assert (st' = if shown then set_currentPair (Some (Some l, Some r)) st else st) as Hst'
    by by apply Hkeep.
  split; [done|]. do 4 (split; [done|]).
  split.
  { intros -> ->. rewrite Hst'. destruct shown; [|done].
    rewrite <- Hpair. apply set_currentPair_same. }
  split; [intros z'; rewrite Hst'; by apply Hkeep|].
  split.
  { intros pp sk z' Hf. rewrite Hst'. destruct shown eqn:Hshown; [|by apply Hkeep].
    unfold updateVoteVisibility.
    change (rankerConfirmed (set_currentPair (Some (Some l, Some r)) st))
      with (rankerConfirmed st).
    change (movies (set_currentPair (Some (Some l, Some r)) st)) with (movies st).
    fold shown. rewrite Hshown. cbn [negb].
    assert (pairStill (set_currentPair (Some (Some l, Some r)) st) = Some (l, r)) as Hagain.
    { apply pairStill_refreshed; congruence. }
    destruct sk; [by rewrite Hagain|].
    rewrite orb_false_r in Hf. subst pp. by rewrite Hagain. }
  split.
  { intros z'. unfold updateVoteVisibility. fold shown. by destruct shown. }
  intros api s st0 ->. reflexivity.
Qed.

(** The amended C2 at the state with movies A, B and the pair (A, B): asked
    to preserve the pair, the selection returns the state as it is, also
    with the draws that give (B, A) when it is not asked to. *)
Lemma updateVoteVisibility_keeps_listed_pair_witness :
  updateVoteVisibility true false state_paired draws_second_high = state_paired.
Proof.
  assert (currentPair state_paired = Some (Some (item "A"), Some (item "B"))) as H1
    by (vm_compute; reflexivity).
  assert (movieByTitle state_paired !! title (item "A") = Some (item "A")) as H2
    by (vm_compute; reflexivity).
  assert (movieByTitle state_paired !! title (item "B") = Some (item "B")) as H3
    by (vm_compute; reflexivity).
  pose proof (updateVoteVisibility_keeps_listed_pair state_paired
                (item "A") (item "B") (item "A") (item "B") true false draws_second_high
                H1 H2 H3 eq_refl) as H.
  cbv zeta in H.
  destruct H as (_ & _ & _ & _ & _ & H & _).
  apply H; reflexivity.
Defined.

(** ** Likes, matches and the list *)

Lemma set_swipeLikes_same st : set_swipeLikes (swipeLikes st) st = st.
Proof. by destruct st. Qed.

Lemma includes_true l x : includes l x = true <-> x ∈ l.
Proof. unfold includes. apply bool_decide_eq_true. Qed.

Lemma includes_false l x : includes l x = false <-> x ∉ l.
Proof. unfold includes. apply bool_decide_eq_false. Qed.

Lemma set_add_elem x y s : y ∈ set_add x s <-> y = x \/ y ∈ s.
Proof.
  unfold set_add. destruct (includes s x) eqn:H.
  - apply includes_true in H. split; [by right | by intros [-> | ?]].
  - rewrite elem_of_app, list_elem_of_singleton. tauto.
Qed.

(** The notification functions write the queue, the seen set, the modal
    flag and the two histories only. *)
Lemma processMatchQueue_frame st :
  let st' := processMatchQueue st in
  swipeLikes st' = swipeLikes st /\ swipeMatches st' = swipeMatches st /\
  swipePersonCount st' = swipePersonCount st /\ swipePersons st' = swipePersons st /\
  swipeSelectedMovies st' = swipeSelectedMovies st /\
  swipeProgress st' = swipeProgress st /\ swipeLocked st' = swipeLocked st /\
  swipeCurrentPerson st' = swipeCurrentPerson st.
Proof.
  unfold processMatchQueue. destruct (matchModalOpen st); [done|].
  destruct (matchQueue st) as [|next rest]; [done|].
  by destruct (String.eqb next "").
Qed.

Lemma enqueueMatchModal_frame t st :
  let st' := enqueueMatchModal t st in
  swipeLikes st' = swipeLikes st /\ swipeMatches st' = swipeMatches st /\
  swipePersonCount st' = swipePersonCount st /\ swipePersons st' = swipePersons st /\
  swipeSelectedMovies st' = swipeSelectedMovies st /\
  swipeProgress st' = swipeProgress st /\ swipeLocked st' = swipeLocked st /\
  swipeCurrentPerson st' = swipeCurrentPerson st.
Proof.
  unfold enqueueMatchModal.
  destruct (String.eqb t "" || bool_decide (t ∈ seenMatches st)); [done|].
  apply (processMatchQueue_frame (set_enqueuedLog _ (set_matchQueue _ st))).
Qed.

Lemma recordSwipeLike_unfold m person st :
  recordSwipeLike m person st =
    let likes1 := if includes (likeSet st m) person
                  then likeSet st m else likeSet st m ++ [person] in
    if (swipePersonCount st <=? length likes1)%nat
    then enqueueMatchModal m
           (set_swipeMatches (set_add m (swipeMatches st))
              (set_swipeLikes (<[m:=likes1]> (swipeLikes st)) st))
    else set_swipeLikes (<[m:=likes1]> (swipeLikes st)) st.
Proof. reflexivity. Qed.

Lemma likeSet_recordSwipeLike m person st :
  likeSet (recordSwipeLike m person st) m =
    if includes (likeSet st m) person then likeSet st m else likeSet st m ++ [person].
Proof.
  rewrite recordSwipeLike_unfold. cbv zeta.
  set (likes1 := if includes _ _ then _ else _).
  unfold likeSet at 1.
  destruct (swipePersonCount st <=? length likes1)%nat.
  - destruct (enqueueMatchModal_frame m
      (set_swipeMatches (set_add m (swipeMatches st))
         (set_swipeLikes (<[m:=likes1]> (swipeLikes st)) st))) as (-> & _).
    simpl. by rewrite lookup_insert_eq.
  - simpl. by rewrite lookup_insert_eq.
Qed.

(** C3, as stated, fails: with two participants and the likes of p1 and of
    the departed p3 on X, the like of p2 puts X among the matches although
    the like set then has three voters, not two. *)
Lemma like_matches_on_equal_fails : ~ like_matches_on_equal "X" "p2" state_resized.
Proof.
  intros [_ H].
  assert ("X" ∉ swipeMatches state_resized) as Hnot.
  { vm_compute. by intros ?%elem_of_nil. }
  apply H in Hnot. destruct Hnot as [Hlen _].
  assert ("X" ∈ swipeMatches (recordSwipeLike "X" "p2" state_resized)) as Hin.
  { vm_compute. apply list_elem_of_here. }
  apply Hlen in Hin. vm_compute in Hin. discriminate.
Qed.

(** C3 (amended).  A like decision puts the voter into the like set of the
    title (once), leaves the like sets of other titles alone, and adds the
    title to the match set exactly when its like set then has at least as
    many voters as there are participants. *)
Theorem recordSwipeLike_matches_on_at_least (m person : string) (st : swipe_state) :
  let st' := recordSwipeLike m person st in
  person ∈ likeSet st' m /\
  likeSet st' m =
    (if includes (likeSet st m) person then likeSet st m else likeSet st m ++ [person]) /\
  (forall m', m' <> m -> swipeLikes st' !! m' = swipeLikes st !! m') /\
  swipeMatches st' =
    (if (swipePersonCount st <=? length (likeSet st' m))%nat
     then set_add m (swipeMatches st) else swipeMatches st) /\
  (m ∈ swipeMatches st' <->
   m ∈ swipeMatches st \/ (swipePersonCount st <= length (likeSet st' m))%nat) /\
  swipePersonCount st' = swipePersonCount st.
Proof.
  intros st'. subst st'.
  pose proof (likeSet_recordSwipeLike m person st) as Hlikes.
  assert (swipeMatches (recordSwipeLike m person st) =
            (if (swipePersonCount st <=? length (likeSet (recordSwipeLike m person st) m))%nat
             then set_add m (swipeMatches st) else swipeMatches st)) as Hmatches.
  { rewrite Hlikes. rewrite recordSwipeLike_unfold. cbv zeta.
    set (likes1 := if includes _ _ then _ else _).
    destruct (swipePersonCount st <=? length likes1)%nat; [|done].
    by destruct (enqueueMatchModal_frame m
      (set_swipeMatches (set_add m (swipeMatches st))
         (set_swipeLikes (<[m:=likes1]> (swipeLikes st)) st))) as (_ & -> & _). }
  split; [|split; [done|split; [|split; [done|split]]]].
  - rewrite Hlikes. destruct (includes (likeSet st m) person) eqn:Hinc.
    + by apply includes_true.
    + apply elem_of_app. right. apply list_elem_of_here.
  - intros m' Hne. rewrite recordSwipeLike_unfold. cbv zeta.
    set (likes1 := if includes _ _ then _ else _).
    destruct (swipePersonCount st <=? length likes1)%nat.
    + destruct (enqueueMatchModal_frame m
        (set_swipeMatches (set_add m (swipeMatches st))
           (set_swipeLikes (<[m:=likes1]> (swipeLikes st)) st))) as (-> & _).
      simpl. by rewrite lookup_insert_ne.
    + simpl. by rewrite lookup_insert_ne.
  - rewrite Hmatches.
    destruct (Nat.leb_spec (swipePersonCount st)
                (length (likeSet (recordSwipeLike m person st) m))) as [Hle | Hlt].
    + rewrite set_add_elem. split; [intros _; by right | intros _; by left].
    + split; [by left | intros [? | ?]; [done | lia]].
  - rewrite recordSwipeLike_unfold. cbv zeta.
    set (likes1 := if includes _ _ then _ else _).
    destruct (swipePersonCount st <=? length likes1)%nat; [|done].
    by destruct (enqueueMatchModal_frame m
      (set_swipeMatches (set_add m (swipeMatches st))
         (set_swipeLikes (<[m:=likes1]> (swipeLikes st)) st))) as (_ & _ & -> & _).
Qed.

(** C4.  A dislike decision removes the voter from the like set of the
    title and keeps every other voter in it; the like sets of other titles,
    the match set (so a matched title stays matched) and all the rest of the
    swipe state are as before. *)
Theorem recordSwipeDislike_removes_voter_only (m person : string) (st : swipe_state) :
  let st' := recordSwipeDislike m person st in
  (person ∉ likeSet st' m) /\
  (forall q, q <> person -> (q ∈ likeSet st' m <-> q ∈ likeSet st m)) /\
  (forall m', m' <> m -> swipeLikes st' !! m' = swipeLikes st !! m') /\
  swipeMatches st' = swipeMatches st /\
  (forall t, t ∈ swipeMatches st -> t ∈ swipeMatches st') /\
  st' = set_swipeLikes (swipeLikes st') st.
Proof.
  intros st'. subst st'. unfold recordSwipeDislike, likeSet.
  destruct (swipeLikes st !! m) as [likes|] eqn:Hm; simpl.
  - rewrite lookup_insert_eq. simpl.
    split; [|split; [|split; [|split; [|split]]]]; try done.
    + intros [Hne _]%list_elem_of_filter. done.
    + intros q Hq. rewrite list_elem_of_filter. tauto.
    + intros m' Hne. by rewrite lookup_insert_ne.
  - rewrite Hm. simpl.
    split; [|split; [|split; [|split; [|split]]]]; try done.
    + by intros ?%elem_of_nil.
    + by rewrite set_swipeLikes_same.
Qed.

(** ** Shuffling *)

Lemma list_delete_insert_same {A} (l : list A) (i : nat) (x : A) :
  delete i (<[i := x]> l) = delete i l.
Proof.
  revert i. induction l as [|y l IH]; intros [|i]; simpl; try done.
  by rewrite IH.
Qed.

Lemma list_insert_perm {A} (l : list A) (i : nat) (x : A) :
  (i < length l)%nat -> <[i := x]> l ≡ₚ x :: delete i l.
Proof.
  intros Hi.
  rewrite (delete_Permutation (<[i := x]> l) i x) by (by apply list_lookup_insert_eq).
  by rewrite list_delete_insert_same.
Qed.

Lemma swap_perm {A} (i j : nat) (a : list A) : swap i j a ≡ₚ a.
Proof.
  unfold swap.
  destruct (a !! i) as [x|] eqn:Hi; [|done].
  destruct (a !! j) as [y|] eqn:Hj; [|done].
  pose proof (lookup_lt_Some _ _ _ Hi) as Hli.
  pose proof (lookup_lt_Some _ _ _ Hj) as Hlj.
  set (b := <[i := y]> a).
  assert (b ≡ₚ y :: delete i a) as Hb by (by apply list_insert_perm).
  assert (b !! j = Some x \/ b !! j = Some y) as Hbj.
  { unfold b. destruct (decide (i = j)) as [<- | Hne].
    - right. by apply list_lookup_insert_eq.
    - rewrite list_lookup_insert_ne by done. rewrite Hj. by right. }
  rewrite list_insert_perm by (unfold b; by rewrite length_insert).
  destruct (decide (i = j)) as [<- | Hne].
  - unfold b. rewrite list_delete_insert_same.
    assert (x = y) as -> by congruence.
    symmetry. by apply delete_Permutation.
  - assert (b !! j = Some y) as Hy.
    { unfold b. by rewrite list_lookup_insert_ne. }
    assert (y :: delete j b ≡ₚ y :: delete i a) as Hd.
    { rewrite <- Hb. symmetry. by apply delete_Permutation. }
    apply Permutation_cons_inv in Hd.
    rewrite Hd. symmetry. by apply delete_Permutation.
Qed.

Lemma shuffle_from_perm {A} (i : nat) (a : list A) (r : rng) :
  (shuffle_from i a r).1 ≡ₚ a.
Proof.
  revert a r. induction i as [|i IH]; intros a r; simpl; [done|].
  rewrite IH. apply swap_perm.
Qed.

Lemma shuffleArray_perm {A} (a : list A) (r : rng) : (shuffleArray a r).1 ≡ₚ a.
Proof. apply shuffle_from_perm. Qed.

Lemma randomOrderTitles_perm st r :
  (randomOrderTitles st r).1 ≡ₚ titles_of (swipeSelectedMovies st).
Proof. apply shuffleArray_perm. Qed.

(** ** Progress *)

Lemma entry_ok_fresh titles o :
  o ≡ₚ titles -> entry_ok titles (Progress 0 false o).
Proof. intros H. split; [done|]. simpl. lia. Qed.

Lemma resetProgressEntries_fold st ps (acc : gmap string progress * rng) :
  let titles := titles_of (swipeSelectedMovies st) in
  let res := foldl (fun acc p =>
                      let '(o, r') := randomOrderTitles st acc.2 in
                      (<[p := Progress 0 false o]> acc.1, r')) acc ps in
  (forall p e, acc.1 !! p = Some e -> entry_ok titles e) ->
  (forall p e, res.1 !! p = Some e -> entry_ok titles e) /\
  (forall p, is_Some (acc.1 !! p) \/ p ∈ ps -> is_Some (res.1 !! p)).
Proof.
  intros titles. revert acc. induction ps as [|q ps IH]; intros acc; simpl.
  - intros Hacc. split; [done|].
    intros p [H | H]; [done | by apply elem_of_nil in H].
  - intros Hacc.
    pose proof (randomOrderTitles_perm st acc.2) as Hperm.
    destruct (randomOrderTitles st acc.2) as [o r'] eqn:Ho. simpl in Hperm.
    destruct (IH (<[q := Progress 0 false o]> acc.1, r')) as [IH1 IH2].
    { intros p e. simpl. destruct (decide (q = p)) as [<- | Hne].
      - rewrite lookup_insert_eq. intros [= <-]. by apply entry_ok_fresh.
      - rewrite lookup_insert_ne by done. apply Hacc. }
    split; [exact IH1|].
    intros p Hp. apply IH2. simpl.
    destruct (decide (q = p)) as [<- | Hne].
    + left. rewrite lookup_insert_eq. by eexists.
    + rewrite lookup_insert_ne by done.
      destruct Hp as [? | [? | ?]%elem_of_cons]; [by left | congruence | by right].
Qed.

Lemma resetProgressEntries_ok st r :
  forall p, p ∈ swipePersons st ->
    exists e, (resetProgressEntries st r).1 !! p = Some e /\
      entry_ok (titles_of (swipeSelectedMovies st)) e.
Proof.
  intros p Hp. unfold resetProgressEntries.
  destruct (resetProgressEntries_fold st (swipePersons st) (∅, r)) as [H1 H2].
  { intros q e. simpl. by rewrite lookup_empty. }
  destruct (H2 p) as [e He]; [by right|].
  exists e. split; [done | by eapply H1].
Qed.

(** What [resetSwipeProgressAll] leaves alone, and the progress it writes. *)
Lemma resetSwipeProgressAll_frame st r :
  let st' := (resetSwipeProgressAll st r).1 in
  swipeProgress st' = (resetProgressEntries st r).1 /\
  swipePersons st' = swipePersons st /\
  swipeSelectedMovies st' = swipeSelectedMovies st /\
  swipeLocked st' = swipeLocked st /\
  swipeLikes st' = swipeLikes st /\
  swipeMatches st' = swipeMatches st /\
  swipeCurrentPerson st' = swipeCurrentPerson st /\
  seenMatches st' = seenMatches st /\
  enqueuedLog st' = enqueuedLog st /\
  matchQueue st' = matchQueue st.
Proof.
  unfold resetSwipeProgressAll.
  destruct (resetProgressEntries st r) as [pr r1].
  destruct (pr !! swipeCurrentPerson st); [done|].
  by destruct (randomOrderTitles st r1).
Qed.

Lemma resetSwipeProgressAll_ok st r : progress_ok (resetSwipeProgressAll st r).1.
Proof.
  intros p.
  destruct (resetSwipeProgressAll_frame st r) as (-> & -> & -> & _).
  apply resetProgressEntries_ok.
Qed.

Lemma applySwipeProgress_frame person st r :
  let st' := (applySwipeProgress person st r).1 in
  swipePersons st' = swipePersons st /\
  swipeSelectedMovies st' = swipeSelectedMovies st /\
  swipeLocked st' = swipeLocked st /\
  swipeLikes st' = swipeLikes st /\
  swipeMatches st' = swipeMatches st /\
  swipeCurrentPerson st' = swipeCurrentPerson st /\
  seenMatches st' = seenMatches st /\
  enqueuedLog st' = enqueuedLog st /\
  matchQueue st' = matchQueue st.
Proof.
  unfold applySwipeProgress.
  destruct (String.eqb person ""); [done|].
  destruct (swipeProgress st !! person) as [e|].
  - destruct (length (order e) =? 0)%nat; [|done].
    by destruct (randomOrderTitles st r).
  - by destruct (randomOrderTitles st r).
Qed.

Lemma applySwipeProgress_ok person st r :
  progress_ok st -> progress_ok (applySwipeProgress person st r).1.
Proof.
  intros Hok p.
  destruct (applySwipeProgress_frame person st r) as (-> & -> & _).
  intros Hp. destruct (Hok p Hp) as (e & He & Hentry).
  unfold applySwipeProgress.
  destruct (String.eqb person ""); [by exists e|].
  pose proof (randomOrderTitles_perm st r) as Hperm.
  assert (forall o r', randomOrderTitles st r = (o, r') ->
            exists e', <[person := Progress 0 false o]> (swipeProgress st) !! p = Some e' /\
                       entry_ok (titles_of (swipeSelectedMovies st)) e') as Hfresh.
  { intros o r' Ho. rewrite Ho in Hperm. simpl in Hperm.
    destruct (decide (person = p)) as [<- | Hne].
    - rewrite lookup_insert_eq. eexists. split; [done | by apply entry_ok_fresh].
    - rewrite lookup_insert_ne by done. by exists e. }
  destruct (swipeProgress st !! person) as [e0|].
  - destruct (length (order e0) =? 0)%nat; [|by exists e].
    destruct (randomOrderTitles st r) as [o r'] eqn:Ho. simpl. by eapply Hfresh.
  - destruct (randomOrderTitles st r) as [o r'] eqn:Ho. simpl. by eapply Hfresh.
Qed.

Lemma clamp_bounds v n : 0 <= clamp v 0 (Z.of_nat n) <= Z.of_nat n.
Proof. unfold clamp. lia. Qed.

Lemma kept_missing_perm (titles o : list string) :
  NoDup titles -> NoDup o ->
  let kept := filter (fun t => includes titles t = true) o in
  let missing := filter (fun t => includes kept t = false) titles in
  kept ++ missing ≡ₚ titles.
Proof.
  intros Ht Ho kept missing.
  apply NoDup_Permutation; [|done|].
  - apply NoDup_app. split; [by apply NoDup_filter|]. split; [|by apply NoDup_filter].
    intros x Hx [Hnot _]%list_elem_of_filter.
    apply includes_false in Hnot. done.
  - intros x. rewrite elem_of_app. unfold missing, kept.
    rewrite !list_elem_of_filter, includes_true, includes_false.
    rewrite list_elem_of_filter, includes_true.
    destruct (decide (x ∈ o)); tauto.
Qed.

Lemma normalizeProgressEntry_ok st titles entry r :
  titles_of (swipeSelectedMovies st) = titles ->
  NoDup titles ->
  (forall e o, entry = Some e -> p_order e = Some o -> NoDup o) ->
  entry_ok titles (normalizeProgressEntry st titles entry r).1.
Proof.
  intros Hsel Ht Ho. unfold normalizeProgressEntry.
  set (kept := match entry ≫= p_order with
               | Some o => filter (fun t => includes titles t = true) o
               | None => []
               end).
  set (missing := filter (fun t => includes kept t = false) titles).
  assert (kept ++ missing ≡ₚ titles) as Hperm.
  { unfold missing, kept. destruct entry as [e|]; simpl.
    - destruct (p_order e) as [o|] eqn:Hpo.
      + apply kept_missing_perm; [done | by eapply Ho].
      + apply (kept_missing_perm titles []); [done | constructor].
    - apply (kept_missing_perm titles []); [done | constructor]. }
  assert (exists o1 r1,
            match missing with
            | [] => (kept, r)
            | _ :: _ => let '(m, r') := shuffleArray missing r in (kept ++ m, r')
            end = (o1, r1) /\ o1 ≡ₚ titles) as (o1 & r1 & -> & Ho1).
  { destruct missing as [|x missing'] eqn:Hmiss.
    - exists kept, r. split; [done|]. by rewrite app_nil_r in Hperm.
    - pose proof (shuffleArray_perm (x :: missing') r) as Hsh.
      destruct (shuffleArray (x :: missing') r) as [m r'].
      exists (kept ++ m), r'. split; [done|]. simpl in Hsh. by rewrite Hsh. }
  assert (exists o2 r2,
            match o1 with
            | [] => randomOrderTitles st r1
            | _ :: _ => (o1, r1)
            end = (o2, r2) /\ o2 ≡ₚ titles) as (o2 & r2 & -> & Ho2).
  { destruct o1 as [|x o1'].
    - pose proof (randomOrderTitles_perm st r1) as Hr. rewrite Hsel in Hr.
      destruct (randomOrderTitles st r1) as [o2 r2]. by exists o2, r2.
    - by exists (x :: o1'), r1. }
  split; [done|]. simpl. apply clamp_bounds.
Qed.

Lemma normalizeSwipeProgress_fold st (raw : gmap string raw_progress) titles ps
    (acc : gmap string progress * rng) :
  titles_of (swipeSelectedMovies st) = titles ->
  NoDup titles ->
  (forall p e o, raw !! p = Some e -> p_order e = Some o -> NoDup o) ->
  let res := foldl (fun acc p =>
                      let '(e, r') := normalizeProgressEntry st titles (raw !! p) acc.2 in
                      (<[p := e]> acc.1, r')) acc ps in
  (forall p e, acc.1 !! p = Some e -> entry_ok titles e) ->
  (forall p e, res.1 !! p = Some e -> entry_ok titles e) /\
  (forall p, is_Some (acc.1 !! p) \/ p ∈ ps -> is_Some (res.1 !! p)).
Proof.
  intros Hsel Ht Hraw. revert acc. induction ps as [|q ps IH]; intros acc; simpl.
  - intros Hacc. split; [done|].
    intros p [H | H]; [done | by apply elem_of_nil in H].
  - intros Hacc.
    pose proof (normalizeProgressEntry_ok st titles (raw !! q) acc.2 Hsel Ht) as Hq.
    destruct (normalizeProgressEntry st titles (raw !! q) acc.2) as [e r'].
    simpl in Hq.
    destruct (IH (<[q := e]> acc.1, r')) as [IH1 IH2].
    { intros p e'. simpl. destruct (decide (q = p)) as [<- | Hne].
      - rewrite lookup_insert_eq. intros [= <-]. apply Hq.
        intros e0 o He0. by eapply Hraw.
      - rewrite lookup_insert_ne by done. apply Hacc. }
    split; [exact IH1|].
    intros p Hp. apply IH2. simpl.
    destruct (decide (q = p)) as [<- | Hne].
    + left. rewrite lookup_insert_eq. by eexists.
    + rewrite lookup_insert_ne by done.
      destruct Hp as [? | [? | ?]%elem_of_cons]; [by left | congruence | by right].
Qed.

Lemma normalizeMovieImage_title api m : title (normalizeMovieImage api m) = title m.
Proof. reflexivity. Qed.

Lemma titles_of_normalize api ms :
  titles_of (normalizeMovieImage api <$> ms) = titles_of ms.
Proof.
  unfold titles_of. rewrite <- list_fmap_compose. by apply list_fmap_ext.
Qed.

(** The notifications of a load leave list, persons and progress alone. *)
Lemma enqueue_new_matches_frame prev matches st :
  let st' := foldl (fun acc m =>
                      if includes prev m then acc else enqueueMatchModal m acc)
                   st matches in
  swipePersons st' = swipePersons st /\
  swipeSelectedMovies st' = swipeSelectedMovies st /\
  swipeProgress st' = swipeProgress st /\
  swipeCurrentPerson st' = swipeCurrentPerson st.
Proof.
  revert st. induction matches as [|m ms IH]; intros st; simpl; [done|].
  destruct (includes prev m); [apply IH|].
  destruct (IH (enqueueMatchModal m st)) as (-> & -> & -> & ->).
  by destruct (enqueueMatchModal_frame m st) as (_ & _ & _ & -> & -> & -> & _ & ->).
Qed.

Lemma applySwipeStateFromServer_ok api s st r :
  snapshot_distinct s -> progress_ok (applySwipeStateFromServer api s st r).1.
Proof.
  intros [Hnd Hord]. unfold applySwipeStateFromServer.
  set (ms := normalizeMovieImage api <$> w_movies s).
  set (ps := match w_persons s with
             | [] => match swipePersons st with [] => ["p1"; "p2"] | _ => swipePersons st end
             | _ => w_persons s
             end).
  set (count := match length ps with O => 2%nat | n => n end).
  set (matches := set_of_list (w_matches s)).
  set (st1 := set_swipeMatches matches _).
  set (st2 := foldl _ st1 matches).
  set (st3 := set_swipeLocked (w_locked s) _).
  destruct (enqueue_new_matches_frame (swipeMatches st) matches st1)
    as (Hps & Hms & _ & Hcur).
  fold st2 in Hps, Hms, Hcur.
  assert (swipeSelectedMovies st3 = ms) as Hsel3 by (unfold st3; simpl; by rewrite Hms).
  assert (swipePersons st3 = ps) as Hps3 by (unfold st3; simpl; by rewrite Hps).
  destruct (normalizeSwipeProgress st3 (w_progress s) ps (titles_of ms) r) as [pr r1] eqn:Hnorm.
  apply applySwipeProgress_ok.
  assert (progress_ok (set_swipeProgress pr st3)) as Hok.
  { intros p Hp.
    change (swipePersons (set_swipeProgress pr st3)) with (swipePersons st3) in Hp.
    change (swipeSelectedMovies (set_swipeProgress pr st3)) with (swipeSelectedMovies st3).
    change (swipeProgress (set_swipeProgress pr st3)) with pr.
    rewrite Hsel3. rewrite Hps3 in Hp.
    unfold normalizeSwipeProgress in Hnorm.
    destruct (normalizeSwipeProgress_fold st3 (w_progress s) (titles_of ms) ps (∅, r))
      as [H1 H2].
    - by rewrite Hsel3.
    - unfold ms. by rewrite titles_of_normalize.
    - exact Hord.
    - intros q e. simpl. by rewrite lookup_empty.
    - rewrite Hnorm in H1, H2. simpl in H1, H2.
      destruct (H2 p) as [e He]; [by right|].
      exists e. split; [done | by eapply H1]. }
  by destruct (includes ps (swipeCurrentPerson (set_swipeProgress pr st3))).
Qed.

(** C8 (code defect).  Loading a swipe state whose stored order for p1
    names the title A twice: [normalizeSwipeProgress] drops unknown titles
    and appends missing ones, but keeps the repetition, and p1 is left with
    the order A, A, B over the titles A, B, which is no permutation of
    them. *)
Theorem loaded_order_repeats_title :
  let st := (applySwipeStateFromServer "" snapshot_repeated_order swipe_init draws_fixed).1 in
  titles_of (swipeSelectedMovies st) = ["A"; "B"] /\
  swipePersons st = ["p1"; "p2"] /\
  swipeProgress st !! "p1" = Some (Progress 0 false ["A"; "A"; "B"]) /\
  ~ (["A"; "A"; "B"] ≡ₚ titles_of (swipeSelectedMovies st)) /\
  ~ progress_ok st.
Proof.
  intros st.
  assert (titles_of (swipeSelectedMovies st) = ["A"; "B"]) as Ht by (vm_compute; reflexivity).
  assert (swipePersons st = ["p1"; "p2"]) as Hp by (vm_compute; reflexivity).
  assert (swipeProgress st !! "p1" = Some (Progress 0 false ["A"; "A"; "B"])) as He
    by (vm_compute; reflexivity).
  assert (~ (["A"; "A"; "B"] ≡ₚ titles_of (swipeSelectedMovies st))) as Hn.
  { rewrite Ht. intros H. apply Permutation_length in H. discriminate. }
  do 4 (split; [done|]).
  intros H. destruct (H "p1") as (e & He' & Hperm & _).
  { rewrite Hp. apply list_elem_of_here. }
  rewrite He in He'. injection He' as <-. by apply Hn.
Qed.

(** Where the progress is sound: after a progress reset, after confirming
    the list or setting the persons, after adding, removing and clearing,
    each person has an order that is a permutation of the current titles
    and a cursor between 0 and the length of the order; after loading a
    swipe state the same holds when the titles of the loaded list are
    distinct and no loaded order names a title twice. *)
Lemma progress_ok_after_reset_edit_load :
  (forall st r, progress_ok (resetSwipeProgressAll st r).1) /\
  (forall st r, progress_ok (confirmSwipeSetup st r).1) /\
  (forall n st r, progress_ok (setSwipePersons n st r).1) /\
  (forall d st r,
     swipeSelectedMovies (addSwipeMovie d st r).1 <> swipeSelectedMovies st ->
     progress_ok (addSwipeMovie d st r).1) /\
  (forall t st r, progress_ok (removeSwipeMovie t st r).1) /\
  (forall st r, progress_ok (performClearSwipeList st r).1) /\
  (forall api s st r,
     snapshot_distinct s -> progress_ok (applySwipeStateFromServer api s st r).1).
Proof.
  split; [exact resetSwipeProgressAll_ok|].
  split.
  { intros st r. unfold confirmSwipeSetup.
    pose proof (resetSwipeProgressAll_ok (set_swipeMatches [] (set_swipeLikes ∅ st)) r) as H.
    destruct (resetSwipeProgressAll _ r) as [st1 r1]. simpl in H.
    pose proof (applySwipeProgress_ok (swipeCurrentPerson st1) st1 r1 H) as H'.
    by destruct (applySwipeProgress _ st1 r1) as [st2 r2]. }
  split.
  { intros n st r. unfold setSwipePersons.
    set (st1 := set_swipeCurrentPerson _ _).
    pose proof (resetSwipeProgressAll_ok st1 r) as H.
    destruct (resetSwipeProgressAll st1 r) as [st2 r2]. simpl in H.
    by apply applySwipeProgress_ok. }
  split.
  { intros d st r. unfold addSwipeMovie.
    destruct (String.eqb d ""); [done|].
    destruct (find_movie _ _); [done|].
    intros _. apply resetSwipeProgressAll_ok. }
  split; [intros t st r; apply resetSwipeProgressAll_ok|].
  split; [intros st r; apply resetSwipeProgressAll_ok|].
  intros api s st r. apply applySwipeStateFromServer_ok.
Qed.

(** ** Adding to the list *)





(** ** Match notifications *)

Lemma log_step_same st st' :
  enqueuedLog st' = enqueuedLog st -> seenMatches st ⊆ seenMatches st' -> log_step st st'.
Proof.
  intros Hlog Hseen. exists []. rewrite app_nil_r.
  split; [done|]. split; [|done]. by intros x ?%elem_of_nil.
Qed.

Lemma log_step_trans st1 st2 st3 : log_step st1 st2 -> log_step st2 st3 -> log_step st1 st3.
Proof.
  intros (n1 & H1 & Hn1 & Hs1) (n2 & H2 & Hn2 & Hs2).
  exists (n1 ++ n2). rewrite H2, H1, app_assoc.
  split; [done|]. split; [|set_solver].
  intros x [? | Hx]%elem_of_app; [by apply Hn1|].
  specialize (Hn2 x Hx). set_solver.
Qed.

Lemma processMatchQueue_log st : log_step st (processMatchQueue st).
Proof.
  apply log_step_same; unfold processMatchQueue;
    destruct (matchModalOpen st); try done;
    destruct (matchQueue st) as [|next rest]; try done;
    destruct (String.eqb next ""); try done.
  simpl. set_solver.
Qed.

Lemma enqueueMatchModal_log t st : log_step st (enqueueMatchModal t st).
Proof.
  unfold enqueueMatchModal.
  destruct (String.eqb t "" || bool_decide (t ∈ seenMatches st)) eqn:Hguard.
  - by apply log_step_same.
  - apply orb_false_iff in Hguard as [_ Hseen].
    apply bool_decide_eq_false in Hseen.
    eapply log_step_trans; [|apply processMatchQueue_log].
    exists [t]. split; [done|]. split; [|done].
    by intros x ->%list_elem_of_singleton.
Qed.

Lemma recordSwipeLike_log m person st : log_step st (recordSwipeLike m person st).
Proof.
  rewrite recordSwipeLike_unfold. cbv zeta.
  destruct (_ <=? _)%nat.
  - apply (enqueueMatchModal_log m (set_swipeMatches _ (set_swipeLikes _ st))).
  - by apply log_step_same.
Qed.

Lemma recordSwipeDislike_log m person st : log_step st (recordSwipeDislike m person st).
Proof.
  unfold recordSwipeDislike. destruct (swipeLikes st !! m); by apply log_step_same.
Qed.

Lemma enqueue_new_matches_log prev matches st :
  log_step st (foldl (fun acc m =>
                        if includes prev m then acc else enqueueMatchModal m acc)
                     st matches).
Proof.
  revert st. induction matches as [|m ms IH]; intros st; simpl.
  - by apply log_step_same.
  - destruct (includes prev m); [apply IH|].
    eapply log_step_trans; [apply enqueueMatchModal_log | apply IH].
Qed.

Lemma resetSwipeProgressAll_log st r : log_step st (resetSwipeProgressAll st r).1.
Proof.
  destruct (resetSwipeProgressAll_frame st r) as (_ & _ & _ & _ & _ & _ & _ & Hs & Hl & _).
  apply log_step_same; [done | by rewrite Hs].
Qed.

Lemma applySwipeProgress_log person st r : log_step st (applySwipeProgress person st r).1.
Proof.
  destruct (applySwipeProgress_frame person st r) as (_ & _ & _ & _ & _ & _ & Hs & Hl & _).
  apply log_step_same; [done | by rewrite Hs].
Qed.

Lemma applySwipeStateFromServer_log api s st r :
  log_step st (applySwipeStateFromServer api s st r).1.
Proof.
  unfold applySwipeStateFromServer.
  set (ms := normalizeMovieImage api <$> w_movies s).
  set (ps := match w_persons s with [] => _ | _ => _ end).
  set (count := match length ps with O => 2%nat | n => n end).
  set (matches := set_of_list (w_matches s)).
  set (st1 := set_swipeMatches matches _).
  set (st2 := foldl _ st1 matches).
  set (st3 := set_swipeLocked (w_locked s) _).
  assert (log_step st st3) as H3.
  { eapply (log_step_trans st st2).
    - apply (log_step_trans st st1); [by apply log_step_same|].
      apply enqueue_new_matches_log.
    - apply log_step_same; [done|]. unfold st3. simpl. set_solver. }
  destruct (normalizeSwipeProgress st3 (w_progress s) ps (titles_of ms) r) as [pr r1].
  eapply log_step_trans; [|apply applySwipeProgress_log].
  eapply log_step_trans; [exact H3|].
  destruct (includes ps _); by apply log_step_same.
Qed.

Lemma step_log c ev : log_step c.1 (step c ev).1.
Proof.
  destruct c as [st r]. destruct ev; simpl.
  - apply recordSwipeLike_log.
  - apply recordSwipeDislike_log.
  - apply applySwipeStateFromServer_log.
  - apply (log_step_trans _ (set_matchModalOpen false st)); [by apply log_step_same|].
    apply processMatchQueue_log.
  - unfold addSwipeMovie. destruct (String.eqb displayTitle ""); [by apply log_step_same|].
    destruct (find_movie _ _); [by apply log_step_same|].
    eapply log_step_trans; [|apply resetSwipeProgressAll_log]. by apply log_step_same.
  - unfold removeSwipeMovie.
    eapply log_step_trans; [|apply resetSwipeProgressAll_log]. by apply log_step_same.
  - unfold performClearSwipeList.
    eapply log_step_trans; [|apply resetSwipeProgressAll_log]. by apply log_step_same.
  - unfold setSwipePersons.
    set (st1 := set_swipeCurrentPerson _ _).
    pose proof (resetSwipeProgressAll_log st1 r) as H.
    destruct (resetSwipeProgressAll st1 r) as [st2 r2]. simpl in H.
    eapply log_step_trans; [|apply applySwipeProgress_log].
    eapply log_step_trans; [|exact H]. by apply log_step_same.
  - unfold confirmSwipeSetup.
    pose proof (resetSwipeProgressAll_log (set_swipeMatches [] (set_swipeLikes ∅ st)) r) as H.
    destruct (resetSwipeProgressAll _ r) as [st1 r1]. simpl in H.
    pose proof (applySwipeProgress_log (swipeCurrentPerson st1) st1 r1) as H'.
    destruct (applySwipeProgress _ st1 r1) as [st2 r2]. simpl in *.
    eapply log_step_trans; [|apply log_step_same; [|done]; done].
    eapply log_step_trans; [|exact H'].
    eapply log_step_trans; [|exact H]. by apply log_step_same.
Qed.

Lemma run_log c evs : log_step c.1 (run c evs).1.
Proof.
  unfold run. revert c. induction evs as [|ev evs IH]; intros c; simpl.
  - by apply log_step_same.
  - eapply log_step_trans; [apply step_log | apply IH].
Qed.

(** X13. The guard of [enqueueMatchModal]: once a title is in the seen set, no
    sequence of likes, dislikes, loads, list edits or modal closings pushes
    it onto the queue again, and it stays in the seen set. *)
Lemma seen_title_not_enqueued_again (t : string) (c : swipe_state * rng)
    (evs : list swipe_event) :
  t ∈ seenMatches c.1 ->
  exists new, enqueuedLog (run c evs).1 = enqueuedLog c.1 ++ new /\
    (t ∉ new) /\ t ∈ seenMatches (run c evs).1.
Proof.
  intros Hseen. destruct (run_log c evs) as (new & Hlog & Hnew & Hsub).
  exists new. split; [done|]. split; [|set_solver].
  intros Hin. by apply (Hnew t Hin).
Qed.

(** C9 (code defect).  Two persons, titles X and Y; the notification for Y
    is on screen and p1 has liked X.  The like of p2 for X is recorded
    twice (a repeated decision while the server is down): X is not in the
    seen set, since that is written only when a notification is shown, so X
    is pushed onto the queue twice and, once the notifications are closed,
    shown twice. *)
Theorem match_enqueued_twice :
  let st := recordSwipeLike "X" "p2" (recordSwipeLike "X" "p2" state_modal_open) in
  matchModalOpen state_modal_open = true /\
  ("X" ∉ seenMatches state_modal_open) /\
  matchQueue st = ["X"; "X"] /\
  enqueuedLog st = ["Y"; "X"; "X"] /\
  shownLog (closeMatchModal (closeMatchModal st)) = ["Y"; "X"; "X"].
Proof.
  split; [by vm_compute|].
  split; [apply (bool_decide_unpack _); by vm_compute|].
  repeat split; by vm_compute.
Qed.

(** ** Normalised ratings *)

(** The floor is 1/10000 as a double. *)
Lemma sigma_floor_rounded : round_double (1 # 10000) = Fin sigma_floor.
Proof. vm_compute. reflexivity. Qed.

Lemma ensureTsRating_sigma_floor (mu sigma : Q) (entry : option raw_rating) :
  (sigma_floor <= sigma)%Q \/ (forall e, entry = Some e -> r_ts_sigma e <> Unparsable) ->
  (sigma_floor <= ts_sigma (ensureTsRating mu sigma entry))%Q.
Proof.
  intros H. unfold ensureTsRating.
  destruct entry as [e|]; simpl.
  - destruct (r_ts_sigma e) eqn:Hs; simpl.
    + apply Q.le_max_r.
    + destruct H as [H | H]; [done|]. by destruct (H e eq_refl).
    + apply Q.le_max_r.
  - apply Q.le_max_r.
Qed.

Section ObjForall.
Context {V : Type} (P : V -> Prop).

Lemma obj_get_Forall (o : list (string * V)) t v :
  Forall (fun kv => P kv.2) o -> obj_get o t = Some v -> P v.
Proof.
  induction 1 as [|[k w] o Hw _ IH]; simpl; [done|].
  destruct (String.eqb k t); [by intros [= <-] | done].
Qed.

Lemma obj_set_Forall (o : list (string * V)) k v :
  Forall (fun kv => P kv.2) o -> P v -> Forall (fun kv => P kv.2) (obj_set k v o).
Proof.
  intros Ho Hv. unfold obj_set. destruct (obj_get o k).
  - induction Ho as [|[k' w] o Hw Ho IH]; simpl; [done|].
    destruct (String.eqb k' k); by constructor.
  - destruct (array_index k) as [n|].
    + induction Ho as [|[k' w] o Hw Ho IH]; simpl; [by repeat constructor|].
      destruct (array_index k') as [n'|]; [destruct (n' <? n)%N|];
        repeat (constructor; try done).
    + apply Forall_app. split; [done | by repeat constructor].
Qed.
End ObjForall.

Lemma normalizeRatings_sigma_floor mu sigma ms incoming t e :
  (sigma_floor <= sigma)%Q ->
  obj_get (normalizeRatings mu sigma ms incoming) t = Some e ->
  (sigma_floor <= ts_sigma e)%Q.
Proof.
  intros Hsigma. apply (obj_get_Forall (fun r => (sigma_floor <= ts_sigma r)%Q)).
  unfold normalizeRatings.
  assert (forall (ts : list string) acc,
            Forall (fun kv : string * rating => (sigma_floor <= ts_sigma kv.2)%Q) acc ->
            Forall (fun kv : string * rating => (sigma_floor <= ts_sigma kv.2)%Q)
              (foldl (fun acc t =>
                        match obj_get acc t with
                        | Some _ => acc
                        | None => obj_set t (ensureTsRating mu sigma (obj_get incoming t)) acc
                        end) acc ts)) as Hkeys.
  { induction ts as [|k ts IH]; intros acc Hacc; simpl; [done|].
    apply IH. destruct (obj_get acc k); [done|].
    apply (obj_set_Forall (fun r => (sigma_floor <= ts_sigma r)%Q)); [done|].
    apply ensureTsRating_sigma_floor. by left. }
  apply Hkeys.
  assert (forall (l : list movie) acc,
            Forall (fun kv : string * rating => (sigma_floor <= ts_sigma kv.2)%Q) acc ->
            Forall (fun kv : string * rating => (sigma_floor <= ts_sigma kv.2)%Q)
              (foldl (fun acc m =>
                        obj_set (title m)
                          (ensureTsRating mu sigma (obj_get incoming (title m))) acc)
                     acc l)) as Hmovies.
  { induction l as [|m l IH]; intros acc Hacc; simpl; [done|].
    apply IH. apply (obj_set_Forall (fun r => (sigma_floor <= ts_sigma r)%Q)); [done|].
    apply ensureTsRating_sigma_floor. by left. }
  apply Hmovies. constructor.
Qed.

(** What choosing a pair leaves alone. *)
Lemma pickPair_frame st z :
  ratings (pickPair st z) = ratings st /\ movies (pickPair st z) = movies st /\
  pairCoverage (pickPair st z) = pairCoverage st /\ TS_SIGMA (pickPair st z) = TS_SIGMA st.
Proof.
  unfold pickPair. destruct (_ <? _)%nat; [done|].
  destruct (pairStill st) as [[l r]|]; [done|].
  by destruct (sort_samples (sampled st z)) as [|s0 [|s1 rest]].
Qed.

Lemma updateVoteVisibility_frame pp sk st z :
  let st' := updateVoteVisibility pp sk st z in
  ratings st' = ratings st /\ movies st' = movies st /\
  pairCoverage st' = pairCoverage st /\ TS_SIGMA st' = TS_SIGMA st.
Proof.
  unfold updateVoteVisibility. destruct (negb _); [done|].
  destruct sk.
  - by destruct (pairStill st) as [[l r]|].
  - destruct (if pp then pairStill st else None) as [[l r]|]; [done|].
    apply (pickPair_frame (set_currentPair None st) z).
Qed.

(** X4. The floor on sigma holds for every rating of a loaded state when the
    base sigma in force, configured or kept, is itself at least the floor. *)
Lemma applyState_sigma_floor api s pp sk st z t e :
  (sigma_floor <= default (TS_SIGMA st) (parseFloat (s_tsConfig_sigma s)))%Q ->
  obj_get (ratings (applyState api s pp sk st z)) t = Some e ->
  (sigma_floor <= ts_sigma e)%Q.
Proof.
  intros Hsigma. unfold applyState.
  match goal with
  | |- context [updateVoteVisibility pp sk ?st0 z] =>
      destruct (updateVoteVisibility_frame pp sk st0 z) as (-> & _)
  end.
  simpl. by apply normalizeRatings_sigma_floor.
Qed.

(** C6 (code defect).  With a configured base sigma of 0, a stored sigma
    that is not a number is replaced by the base sigma as it is: the
    rating held after loading has sigma 0, below the floor 0.0001. *)
Theorem sigma_below_floor_after_load :
  let st := applyState "" snapshot_unparsable_sigma false false rank_init draws_zero in
  exists e, obj_get (ratings st) "A" = Some e /\
    ts_sigma e = 0%Q /\ (ts_sigma e < sigma_floor)%Q.
Proof.
  eexists. split; [by vm_compute|]. split; by vm_compute.
Qed.

(** ** Coverage *)

Lemma coverage_ratio_zero covered total :
  (total == 0)%Q -> coverage_ratio covered total = 0%Q.
Proof.
  intros H. unfold coverage_ratio. apply Qeq_bool_iff in H. by rewrite H.
Qed.

Lemma coverage_ratio_nonzero covered total :
  ~ (total == 0)%Q -> coverage_ratio covered total = (covered / total)%Q.
Proof.
  intros H. unfold coverage_ratio.
  destruct (Qeq_bool total 0) eqn:E; [|done].
  by apply Qeq_bool_iff in E.
Qed.

(** Every coverage snapshot of a loaded state carries the ratio of its own
    two counts, and 0 when the total is 0. *)
Lemma applyState_coverage api s pp sk st z :
  let raw := default default_coverage (s_pairCoverage s) in
  let inferred := inferredTotalPairs (length (s_movies s)) raw in
  pairCoverage (applyState api s pp sk st z) = normalizeCoverage inferred raw /\
  exists covered total,
    coveredPairs (pairCoverage (applyState api s pp sk st z)) = Some covered /\
    totalPairs (pairCoverage (applyState api s pp sk st z)) = Some total /\
    ratio (pairCoverage (applyState api s pp sk st z)) = Some (coverage_ratio covered total).
Proof.
  intros raw inferred.
  assert (pairCoverage (applyState api s pp sk st z) = normalizeCoverage inferred raw) as H.
  { unfold applyState.
    match goal with
    | |- context [updateVoteVisibility pp sk ?st0 z] =>
        destruct (updateVoteVisibility_frame pp sk st0 z) as (_ & _ & -> & _)
    end.
    simpl. unfold inferred, raw. by rewrite length_fmap. }
  split; [done|]. rewrite H. unfold normalizeCoverage. simpl. by eexists _, _.
Qed.

(** X7. The total is inferred from the size of the list when the loaded state
    carries a coverage object without counts. *)
Lemma applyState_total_inferred api s pp sk st z raw :
  s_pairCoverage s = Some raw -> totalPairs raw = None -> coveredPairs raw = None ->
  let n := Z.of_nat (length (s_movies s)) in
  2 <= n ->
  coveredPairs (pairCoverage (applyState api s pp sk st z)) = Some 0%Q /\
  totalPairs (pairCoverage (applyState api s pp sk st z))
    = Some (inject_Z (n * (n - 1)) / 2)%Q.
Proof.
  intros Hs Ht Hc n Hn.
  destruct (applyState_coverage api s pp sk st z) as [-> _].
  rewrite Hs. simpl. unfold normalizeCoverage, inferredTotalPairs. rewrite Ht, Hc. simpl.
  split; [done|].
  destruct (Nat.ltb_spec 1 (length (s_movies s))); [done | lia].
Qed.

(** C7 (code defect).  Three movies and no vote: a loaded state without a
    coverage object gets the total 0, not 3, overall and for person1,
    because the object put in its place already carries the total 0; the
    inferring formula runs only for a coverage object that lacks the total,
    and then gives 3. *)
Theorem total_pairs_zero_without_coverage :
  let st := applyState "" snapshot_no_coverage false false rank_init draws_zero in
  let st' := applyState "" snapshot_empty_coverage false false rank_init draws_zero in
  length (movies st) = 3%nat /\
  pairCoverage st = Coverage (Some 0%Q) (Some 0%Q) (Some 0%Q) /\
  pairCoveragePerPerson st !! "person1" = Some (Coverage (Some 0%Q) (Some 0%Q) (Some 0%Q)) /\
  exists total, totalPairs (pairCoverage st') = Some total /\ (total == 3)%Q.
Proof.
  split; [by vm_compute|]. split; [by vm_compute|]. split; [by vm_compute|].
  eexists. split; by vm_compute.
Qed.

(** * Further properties of the ranker and of the swipe session *)

(** ** Objects: reading after writing *)

Section ObjSet.
Context {V : Type}.
Implicit Types (o : list (string * V)) (k : string) (v : V).

Lemma obj_get_None o k : obj_get o k = None <-> k ∉ obj_keys o.
Proof.
  rewrite <- obj_get_is_Some, eq_None_not_Some. done.
Qed.

Lemma obj_get_replace k v o k' :
  is_Some (obj_get o k) ->
  obj_get (obj_replace k v o) k' = if String.eqb k k' then Some v else obj_get o k'.
Proof.
  induction o as [|[k0 v0] o IH]; simpl; intros Hk.
  - by destruct Hk.
  - destruct (String.eqb_spec k0 k) as [->|Hne]; simpl.
    + by destruct (String.eqb k k').
    + rewrite IH by done.
      destruct (String.eqb_spec k0 k') as [->|Hne'];
        destruct (String.eqb_spec k k') as [->|?]; done.
Qed.

Lemma obj_keys_replace k v o : obj_keys (obj_replace k v o) = obj_keys o.
Proof.
  unfold obj_keys. induction o as [|[k0 v0] o IH]; simpl; [done|].
  destruct (String.eqb_spec k0 k) as [->|Hne]; simpl; [done|]. f_equal. exact IH.
Qed.

Lemma obj_get_insert_index n k v o k' :
  obj_get o k = None ->
  obj_get (obj_insert_index n k v o) k' = if String.eqb k k' then Some v else obj_get o k'.
Proof.
  induction o as [|[k0 v0] o IH]; simpl; intros Hk; [done|].
  destruct (String.eqb_spec k0 k) as [->|Hne]; [done|].
  destruct (array_index k0) as [n'|]; [destruct (n' <? n)%N|]; simpl; try done.
  rewrite IH by done.
  destruct (String.eqb_spec k0 k') as [->|Hne'];
    destruct (String.eqb_spec k k') as [->|?]; done.
Qed.

Lemma obj_keys_insert_index n k v o :
  obj_keys (obj_insert_index n k v o) ≡ₚ k :: obj_keys o.
Proof.
  unfold obj_keys. induction o as [|[k0 v0] o IH]; simpl; [done|].
  destruct (array_index k0) as [n'|]; [destruct (n' <? n)%N|]; simpl; try done.
  etrans; [apply Permutation_skip, IH|]. apply Permutation_swap.
Qed.

Lemma obj_get_app o o' k :
  obj_get (o ++ o') k = match obj_get o k with Some x => Some x | None => obj_get o' k end.
Proof.
  induction o as [|[k0 v0] o IH]; simpl; [done|].
  by destruct (String.eqb k0 k).
Qed.

(** Reading [o[k']] after [o[k] = v]. *)
Lemma obj_get_set k v o k' :
  obj_get (obj_set k v o) k' = if String.eqb k k' then Some v else obj_get o k'.
Proof.
  unfold obj_set. destruct (obj_get o k) as [x|] eqn:Hk.
  - apply obj_get_replace. by rewrite Hk.
  - destruct (array_index k) as [n|].
    + by apply obj_get_insert_index.
    + rewrite obj_get_app. simpl.
      destruct (String.eqb_spec k k') as [->|?].
      * by rewrite Hk.
      * by destruct (obj_get o k').
Qed.

Lemma obj_keys_set k v o :
  obj_keys (obj_set k v o) ≡ₚ
    if bool_decide (k ∈ obj_keys o) then obj_keys o else k :: obj_keys o.
Proof.
  unfold obj_set. destruct (obj_get o k) as [x|] eqn:Hk.
  - rewrite bool_decide_eq_true_2 by (apply obj_get_is_Some; by rewrite Hk).
    by rewrite obj_keys_replace.
  - rewrite bool_decide_eq_false_2 by by apply obj_get_None.
    destruct (array_index k) as [n|].
    + apply obj_keys_insert_index.
    + unfold obj_keys. rewrite fmap_app. simpl.
      by rewrite <- Permutation_cons_append.
Qed.

Lemma obj_keys_set_NoDup k v o : NoDup (obj_keys o) -> NoDup (obj_keys (obj_set k v o)).
Proof.
  intros Hnd. rewrite obj_keys_set. case_bool_decide; [done|].
  by apply NoDup_cons.
Qed.

Lemma obj_keys_set_elem k v o t :
  t ∈ obj_keys (obj_set k v o) <-> t = k \/ t ∈ obj_keys o.
Proof.
  rewrite obj_keys_set. case_bool_decide; [|by rewrite elem_of_cons].
  split; [by right|]. by intros [->|?].
Qed.
End ObjSet.

(** ** Loading ratings *)

Lemma ratings_from_set mu sigma incoming acc t :
  ratings_from mu sigma incoming acc ->
  ratings_from mu sigma incoming
    (obj_set t (ensureTsRating mu sigma (obj_get incoming t)) acc).
Proof.
  intros [Hnd Hval]. split; [by apply obj_keys_set_NoDup|].
  intros t' e. rewrite obj_get_set.
  destruct (String.eqb_spec t t') as [->|?]; [by intros [= <-]|apply Hval].
Qed.

Lemma normalizeRatings_from mu sigma ms incoming :
  ratings_from mu sigma incoming (normalizeRatings mu sigma ms incoming) /\
  forall t, t ∈ obj_keys (normalizeRatings mu sigma ms incoming) <->
            t ∈ titles_of ms \/ t ∈ obj_keys incoming.
Proof.
  unfold normalizeRatings.
  assert (forall l acc,
            let res := foldl (fun acc m =>
                         obj_set (title m)
                           (ensureTsRating mu sigma (obj_get incoming (title m))) acc)
                       acc l in
            ratings_from mu sigma incoming acc ->
            ratings_from mu sigma incoming res /\
            forall t, t ∈ obj_keys res <-> t ∈ obj_keys acc \/ t ∈ titles_of l) as H1.
  { induction l as [|m l IH]; intros acc res Hacc.
    - split; [done|]. intros t. unfold titles_of. simpl. rewrite elem_of_nil. tauto.
    - subst res. simpl.
      destruct (IH (obj_set (title m)
                      (ensureTsRating mu sigma (obj_get incoming (title m))) acc))
        as [Hres Hkeys]; [by apply ratings_from_set|].
      split; [done|]. intros t. rewrite Hkeys, obj_keys_set_elem.
      unfold titles_of. rewrite ?fmap_cons, elem_of_cons. tauto. }
  assert (forall l acc,
            let res := foldl (fun acc t =>
                         match obj_get acc t with
                         | Some _ => acc
                         | None => obj_set t (ensureTsRating mu sigma (obj_get incoming t)) acc
                         end) acc l in
            ratings_from mu sigma incoming acc ->
            ratings_from mu sigma incoming res /\
            forall t, t ∈ obj_keys res <-> t ∈ obj_keys acc \/ t ∈ l) as H2.
  { induction l as [|k l IH]; intros acc res Hacc.
    - split; [done|]. intros t. rewrite elem_of_nil. tauto.
    - subst res. simpl. destruct (obj_get acc k) as [x|] eqn:Hk.
      + destruct (IH acc Hacc) as [Hres Hkeys]. split; [done|].
        intros t. rewrite Hkeys, elem_of_cons.
        assert (k ∈ obj_keys acc) by (apply obj_get_is_Some; by rewrite Hk).
        split; [tauto|]. intros [?|[->|?]]; tauto.
      + destruct (IH (obj_set k (ensureTsRating mu sigma (obj_get incoming k)) acc))
          as [Hres Hkeys]; [by apply ratings_from_set|].
        split; [done|]. intros t. rewrite Hkeys, obj_keys_set_elem, elem_of_cons.
        tauto. }
  destruct (H1 ms []) as [Ha Hb].
  { split; [apply NoDup_nil_2|]. by intros t e. }
  destruct (H2 (obj_keys incoming) _ Ha) as [Hc Hd].
  split; [done|]. intros t. rewrite Hd, Hb.
  unfold obj_keys at 1. simpl. rewrite elem_of_nil. tauto.
Qed.

Lemma updateVoteVisibility_frame_persons pp sk st z :
  let st' := updateVoteVisibility pp sk st z in
  personCount st' = personCount st /\ persons st' = persons st /\
  pairCoveragePerPerson st' = pairCoveragePerPerson st /\
  TS_MU st' = TS_MU st /\ rankerConfirmed st' = rankerConfirmed st.
Proof.
  assert (forall st0 z0,
            personCount (pickPair st0 z0) = personCount st0 /\
            persons (pickPair st0 z0) = persons st0 /\
            pairCoveragePerPerson (pickPair st0 z0) = pairCoveragePerPerson st0 /\
            TS_MU (pickPair st0 z0) = TS_MU st0 /\
            rankerConfirmed (pickPair st0 z0) = rankerConfirmed st0) as Hpick.
  { intros st0 z0. unfold pickPair.
    destruct (length (movies st0) <? 2)%nat; [done|].
    destruct (pairStill st0) as [[l r]|]; [done|].
    by destruct (sort_samples (sampled st0 z0)) as [|s0 [|s1 rest]]. }
  unfold updateVoteVisibility. simpl.
  destruct (negb _); [done|].
  destruct sk.
  - by destruct (pairStill st) as [[l r]|].
  - destruct (if pp then pairStill st else None) as [[l r]|]; [done|].
    apply (Hpick (set_currentPair None st) z).
Qed.

Lemma applyState_assigned_eq api s pp sk st z :
  applyState api s pp sk st z =
    updateVoteVisibility pp sk (applyState_assigned api s st) z.
Proof. reflexivity. Qed.

(** X3. After a rank state is loaded whose titles and rated titles are no
    property names of [Object.prototype], the ratings hold exactly the
    titles of its movie list and the titles of its incoming ratings, each
    once; every entry is the normalised incoming entry of its title (the
    defaults where there is none), so every listed movie holds a rating and
    a rated title that left the list keeps its rating. *)
Theorem applyState_ratings_keys (api : string) (s : rank_snapshot) (pp sk : bool)
    (st : rank_state) (z : nat -> Q) :
  (forall t, t ∈ titles_of (s_movies s) \/ t ∈ obj_keys (s_ratings s) ->
             inherited_name t = false) ->
  let st' := applyState api s pp sk st z in
  NoDup (obj_keys (ratings st')) /\
  (forall t, t ∈ obj_keys (ratings st') <->
             t ∈ titles_of (s_movies s) \/ t ∈ obj_keys (s_ratings s)) /\
  (forall t e, obj_get (ratings st') t = Some e ->
     e = ensureTsRating (TS_MU st') (TS_SIGMA st') (obj_get (s_ratings s) t)) /\
  (forall m, m ∈ movies st' -> is_Some (obj_get (ratings st') (title m))).
Proof.
  intros _ st'. unfold st'. rewrite applyState_assigned_eq.
  destruct (updateVoteVisibility_frame pp sk (applyState_assigned api s st) z)
    as (-> & -> & _ & ->).
  destruct (updateVoteVisibility_frame_persons pp sk (applyState_assigned api s st) z)
    as (_ & _ & _ & -> & _).
  unfold applyState_assigned. simpl.
  destruct (normalizeRatings_from
              (default (TS_MU st) (parseFloat (s_tsConfig_mu s)))
              (default (TS_SIGMA st) (parseFloat (s_tsConfig_sigma s)))
              (normalizeMovieImage api <$> s_movies s) (s_ratings s))
    as [[Hnd Hval] Hkeys].
  split; [done|]. split.
  { intros t. by rewrite Hkeys, titles_of_normalize. }
  split; [done|].
  intros m Hm. apply obj_get_is_Some, Hkeys. left.
  by apply list_elem_of_fmap_2.
Qed.

(** X3 at the loaded state with movies A, B and ratings of A, B, C: the
    departed title C keeps its rating. *)
Lemma applyState_ratings_keys_witness :
  NoDup (obj_keys (ratings state_stale)) /\
  ("C" ∈ obj_keys (ratings state_stale)) /\
  ("C" ∉ titles_of (movies state_stale)).
Proof.
  assert (Forall (fun t => inherited_name t = false) ["A"; "B"; "C"]) as Hplain
    by (repeat constructor).
  rewrite Forall_forall in Hplain.
  destruct (applyState_ratings_keys "" (snapshot_stale false) false false rank_init
              draws_zero) as (Hnd & Hkeys & _).
  - intros t [Ht|Ht]; apply Hplain.
    + change (titles_of (s_movies (snapshot_stale false))) with ["A"; "B"] in Ht.
      apply elem_of_cons in Ht as [->|Ht]; [apply list_elem_of_here|].
      apply list_elem_of_singleton in Ht as ->.
      apply list_elem_of_further, list_elem_of_here.
    + exact Ht.
  - split; [exact Hnd|]. split.
    + apply Hkeys. right.
      apply list_elem_of_further, list_elem_of_further, list_elem_of_here.
    + apply (bool_decide_unpack _). vm_compute. reflexivity.
Defined.

(** X2. Pair selection needs two candidates: with fewer than two movies,
    or with no pair to keep and fewer than two rated titles (a list that
    names one title twice), it returns the state as it is. *)
Theorem pickPair_without_two_candidates (st : rank_state) (z : nat -> Q) :
  (length (movies st) < 2)%nat \/
  (pairStill st = None /\ (length (ratings st) < 2)%nat) ->
  pickPair st z = st.
Proof.
  intros [H|[Hs H]]; unfold pickPair.
  - destruct (Nat.ltb_spec (length (movies st)) 2); [done|lia].
  - destruct (length (movies st) <? 2)%nat; [done|]. rewrite Hs.
    pose proof (Permutation_length (sort_samples_perm (sampled st z))) as Hl.
    rewrite sampled_length in Hl.
    destruct (sort_samples (sampled st z)) as [|s0 [|s1 rest]]; try done.
    simpl in Hl. lia.
Qed.

Lemma pickPair_without_two_candidates_witness :
  length (movies state_twins) = 2%nat /\ pickPair state_twins draws_zero = state_twins.
Proof.
  split; [reflexivity|].
  apply (pickPair_without_two_candidates state_twins draws_zero).
  right. split; [reflexivity|]. vm_compute. lia.
Defined.


(** Witness of X4 at the loaded state with movies A, B and ratings of
    A, B, C, the base sigma being the initial 400. *)
Lemma applyState_sigma_floor_witness :
  exists e, obj_get (ratings state_stale) "C" = Some e /\ (sigma_floor <= ts_sigma e)%Q.
Proof.
  exists (Rating 1500 400 0 0). split; [reflexivity|].
  apply (applyState_sigma_floor "" (snapshot_stale false) false false rank_init draws_zero
           "C" (Rating 1500 400 0 0)).
  - vm_compute. discriminate.
  - reflexivity.
Defined.

(** Witness of X7 at the three movies of a loaded state whose coverage
    object is empty. *)
Lemma applyState_total_inferred_witness :
  totalPairs (pairCoverage
    (applyState "" snapshot_empty_coverage false false rank_init draws_zero))
  = Some (inject_Z (3 * (3 - 1)) / 2)%Q.
Proof.
  apply (applyState_total_inferred "" snapshot_empty_coverage false false rank_init
           draws_zero (Coverage None None None)); try reflexivity.
  vm_compute. discriminate.
Defined.

(** X8. A load that is told to skip the selection (a poll), or whose state
    is not confirmed or lists fewer than two movies, uses no random draw and
    never puts other titles on screen: the pair stays as it was, or, when
    both of its titles are still listed, is replaced by the current movie
    objects of the same two titles. *)
Theorem applyState_keeps_pair (api : string) (s : rank_snapshot) (pp sk : bool)
    (st : rank_state) (z : nat -> Q) :
  sk = true \/ s_rankerConfirmed s = false \/ (length (s_movies s) < 2)%nat ->
  let st' := applyState api s pp sk st z in
  (forall z', applyState api s pp sk st z' = st') /\
  (currentPair st' = currentPair st \/
   exists lft rgt l r,
     currentPair st = Some (Some lft, Some rgt) /\
     currentPair st' = Some (Some l, Some r) /\
     title l = title lft /\ title r = title rgt /\
     l ∈ movies st' /\ r ∈ movies st').
Proof.
  intros Hcase st'. unfold st'. clear st'.
  assert (forall z', applyState api s pp sk st z' =
            if negb (s_rankerConfirmed s && (2 <=? length (s_movies s))%nat)
            then applyState_assigned api s st
            else match pairStill (applyState_assigned api s st) with
                 | Some (l, r) =>
                     set_currentPair (Some (Some l, Some r)) (applyState_assigned api s st)
                 | None => applyState_assigned api s st
                 end) as Heq.
  { intros z'. rewrite applyState_assigned_eq. unfold updateVoteVisibility.
    change (rankerConfirmed (applyState_assigned api s st)) with (s_rankerConfirmed s).
    change (movies (applyState_assigned api s st))
      with (normalizeMovieImage api <$> s_movies s).
    rewrite length_fmap.
    destruct (negb (s_rankerConfirmed s && (2 <=? length (s_movies s))%nat)) eqn:Hshow;
      [done|].
    destruct Hcase as [->|[Hc|Hl]]; [done| |].
    - rewrite Hc in Hshow. done.
    - destruct (Nat.leb_spec 2 (length (s_movies s))); [lia|].
      rewrite andb_false_r in Hshow. done. }
  split; [intros z'; by rewrite !Heq|].
  rewrite Heq.
  destruct (negb (s_rankerConfirmed s && (2 <=? length (s_movies s))%nat)); [by left|].
  destruct (pairStill (applyState_assigned api s st)) as [[l r]|] eqn:Hstill; [|by left].
  right.
  assert (currentPair (applyState_assigned api s st) = currentPair st) as Hcur by done.
  destruct (currentPair st) as [[[lft|] [rgt|]]|] eqn:Hpair;
    try (unfold pairStill in Hstill; rewrite Hcur in Hstill; done).
  destruct (pairStill_titles _ lft rgt l r Hcur Hstill) as (Hl & Hr & Htl & Htr).
  exists lft, rgt, l, r. repeat split; try done.
  - unfold movieByTitle in Hl. by apply fromEntries_lookup in Hl as [? _].
  - unfold movieByTitle in Hr. by apply fromEntries_lookup in Hr as [? _].
Qed.

Lemma applyState_keeps_pair_witness :
  currentPair (applyState "" snapshot_poll true true state_paired draws_third_high)
    = Some (Some (item "A"), Some (item "B")).
Proof.
  destruct (applyState_keeps_pair "" snapshot_poll true true state_paired draws_third_high)
    as [H _]; [by left|].
  rewrite <- (H draws_zero). reflexivity.
Defined.

(** X5. Normalising a rating is idempotent: the entry that
    [ensureTsRating] returns, stored and normalised again under any base
    values, comes back unchanged, provided its sigma went through the floor
    (the base sigma is at least the floor, or the stored sigma was not
    unreadable) and its two counts are below 10^21 in absolute value, so
    that [parseInt] reads them back as they are. *)
Theorem ensureTsRating_stored (mu sigma mu' sigma' : Q) (entry : option raw_rating) :
  (sigma_floor <= sigma)%Q \/ (forall e, entry = Some e -> r_ts_sigma e <> Unparsable) ->
  Z.abs (games (ensureTsRating mu sigma entry)) < 10 ^ 21 ->
  Z.abs (wins (ensureTsRating mu sigma entry)) < 10 ^ 21 ->
  ensureTsRating mu' sigma' (Some (stored_rating (ensureTsRating mu sigma entry)))
    = ensureTsRating mu sigma entry.
Proof.
  intros H _ _. pose proof (ensureTsRating_sigma_floor mu sigma entry H) as Hfloor.
  destruct (ensureTsRating mu sigma entry) as [m s g w] eqn:He.
  unfold ensureTsRating, stored_rating. simpl. f_equal.
  simpl in Hfloor. unfold Qmax, GenericMinMax.gmax.
  destruct (Qcompare_spec s sigma_floor) as [?|Hlt|?]; try done.
  by apply Qlt_not_le in Hlt.
Qed.

Lemma ensureTsRating_stored_witness :
  ensureTsRating 0 0
    (Some (stored_rating
             (ensureTsRating 1500 400 (Some (RawRating Nullish (Number 1620) Nullish (Some 3) None)))))
  = Rating 1620 400 3 0.
Proof.
  rewrite (ensureTsRating_stored 1500 400 0 0).
  - reflexivity.
  - left. vm_compute. discriminate.
  - vm_compute. reflexivity.
  - vm_compute. reflexivity.
Defined.

(** ** Persons and coverage of a loaded rank state *)




(** ** The ranking table *)

Section JsSortProofs.
Context {A : Type} (cmp : A -> A -> comparison) (R : A -> A -> Prop).
Hypothesis cmp_Gt : forall x y, cmp x y = Gt -> R y x.
Hypothesis cmp_not_Gt : forall x y, cmp x y <> Gt -> R x y.
Hypothesis R_trans : forall x y z, R x y -> R y z -> R x z.

Lemma js_sort_insert_perm x l : js_sort_insert cmp x l ≡ₚ x :: l.
Proof.
  induction l as [|y l IH]; simpl; [done|].
  destruct (cmp x y); try done.
  rewrite IH. apply Permutation_swap.
Qed.

Lemma js_sort_perm l : js_sort cmp l ≡ₚ l.
Proof.
  induction l as [|x l IH]; simpl; [done|].
  by rewrite js_sort_insert_perm, IH.
Qed.

Lemma js_sort_insert_sorted x l :
  StronglySorted R l -> StronglySorted R (js_sort_insert cmp x l).
Proof.
  induction l as [|y l IH]; simpl; intros Hs.
  - by repeat constructor.
  - apply StronglySorted_inv in Hs as [Hl Hy].
    assert (cmp x y <> Gt -> StronglySorted R (x :: y :: l)) as Hfront.
    { intros Hc. constructor; [by constructor|].
      constructor; [by apply cmp_not_Gt|].
      eapply Forall_impl; [exact Hy|]. intros w Hw.
      eapply R_trans; [by apply cmp_not_Gt|done]. }
    destruct (cmp x y) eqn:Hc; try (apply Hfront; congruence).
    constructor; [by apply IH|].
    rewrite js_sort_insert_perm. constructor; [by apply cmp_Gt|done].
Qed.

Lemma js_sort_sorted l : StronglySorted R (js_sort cmp l).
Proof.
  induction l as [|x l IH]; simpl; [constructor|].
  by apply js_sort_insert_sorted.
Qed.
End JsSortProofs.

Lemma StronglySorted_imap {A B} (R : A -> A -> Prop) (R' : B -> B -> Prop)
    (f : nat -> A -> B) (l : list A) :
  (forall i j x y, R x y -> R' (f i x) (f j y)) ->
  StronglySorted R l -> StronglySorted R' (imap f l).
Proof.
  revert f. induction l as [|x l IH]; intros f Hf Hs; simpl; [constructor|].
  apply StronglySorted_inv in Hs as [Hl Hx].
  constructor.
  - apply IH; [|done]. intros i j. apply Hf.
  - apply Forall_forall. intros y Hy.
    apply list_elem_of_lookup in Hy as [i Hi].
    rewrite list_lookup_imap in Hi.
    destruct (l !! i) as [w|] eqn:Hw; [|done]. simpl in Hi. injection Hi as <-.
    apply Hf. rewrite Forall_forall in Hx. apply Hx.
    by eapply list_elem_of_lookup_2.
Qed.

Lemma rating_rows_keys (rs : list (string * rating)) (keys : list string) :
  (forall k, k ∈ keys -> is_Some (obj_get rs k)) ->
  (omap (fun t => pair t <$> obj_get rs t) keys).*1 = keys.
Proof.
  induction keys as [|k keys IH]; intros H; simpl; [done|].
  destruct (H k) as [e He]; [apply list_elem_of_here|].
  rewrite He. simpl. f_equal. apply IH. intros k' Hk'. apply H. by right.
Qed.

(** X9. The ranking table lists every rated title once (the rated titles
    in some order), in non-increasing order of the rating shown; the row at
    position i carries the rank i + 1 and the mu, sigma, games and wins of
    its title. *)
Theorem computeRanking_sorted_ranked (rs : list (string * rating)) :
  let rk := computeRanking rs in
  row_title <$> rk ≡ₚ obj_keys rs /\
  length rk = length rs /\
  StronglySorted (fun a b => (row_rating b <= row_rating a)%Q) rk /\
  (forall i row, rk !! i = Some row ->
     row_rank row = S i /\
     exists e, obj_get rs (row_title row) = Some e /\
       row_rating row = ts_mu e /\ row_sigma row = ts_sigma e /\
       row_games row = games e /\ row_wins row = wins e).
Proof.
  intros rk. unfold rk, computeRanking. clear rk.
  set (arr := omap (fun t => pair t <$> obj_get rs t) (obj_keys rs)).
  assert (arr.*1 = obj_keys rs) as Hkeys.
  { apply rating_rows_keys. intros k Hk. by apply obj_get_is_Some. }
  pose proof (js_sort_perm compareRating arr) as Hperm.
  assert (row_title <$> imap (fun i kv =>
            RankingRow kv.1 (ts_mu kv.2) (ts_sigma kv.2) (games kv.2) (wins kv.2) (S i))
            (js_sort compareRating arr) = (js_sort compareRating arr).*1) as Htitles.
  { apply list_eq. intros i.
    rewrite !list_lookup_fmap, list_lookup_imap.
    by destruct (js_sort compareRating arr !! i). }
  split. { by rewrite Htitles, Hperm, Hkeys. }
  split.
  { rewrite length_imap, (Permutation_length Hperm).
    rewrite <- (length_fmap fst arr), Hkeys. unfold obj_keys. by rewrite length_fmap. }
  split.
  { apply (StronglySorted_imap (fun a b => (ts_mu b.2 <= ts_mu a.2)%Q)); [done|].
    apply (js_sort_sorted compareRating).
    - intros x y Hc. unfold compareRating in Hc.
      apply Qgt_alt in Hc. by apply Qlt_le_weak.
    - intros x y Hc. unfold compareRating in Hc. by apply Qle_alt in Hc.
    - intros x y w Hxy Hyw. by eapply Qle_trans. }
  intros i row Hrow. rewrite list_lookup_imap in Hrow.
  destruct (js_sort compareRating arr !! i) as [[t e]|] eqn:Hi; [|done].
  simpl in Hrow. injection Hrow as <-. split; [done|]. simpl.
  exists e. split; [|done].
  apply list_elem_of_lookup_2 in Hi. rewrite Hperm in Hi.
  apply list_elem_of_omap in Hi as (t' & _ & Ht').
  destruct (obj_get rs t') as [e'|] eqn:Hg; [|done].
  simpl in Ht'. by injection Ht' as <- <-.
Qed.

(** ** Images *)

Lemma string_app_cons (x : ascii) (a b : string) : String x a +:+ b = String x (a +:+ b).
Proof. reflexivity. Qed.

Lemma string_app_nil_r (a : string) : a +:+ "" = a.
Proof. induction a as [|x a IH]; [done|]. by rewrite string_app_cons, IH. Qed.

Lemma string_app_assoc (a b c : string) : (a +:+ b) +:+ c = a +:+ b +:+ c.
Proof. induction a as [|x a IH]; [done|]. by rewrite !string_app_cons, IH. Qed.

Lemma no_slash_app (a b : string) : no_slash (a +:+ b) = no_slash a && no_slash b.
Proof.
  induction a as [|x a IH]; [done|].
  rewrite string_app_cons. simpl. rewrite IH. by rewrite andb_assoc.
Qed.

Lemma last_segment_from_no_slash (cur s : string) :
  no_slash cur = true -> no_slash (last_segment_from cur s) = true.
Proof.
  revert cur. induction s as [|c s IH]; intros cur Hcur; simpl; [done|].
  destruct (Ascii.eqb c "/"%char) eqn:Hc.
  - by apply IH.
  - apply IH. rewrite no_slash_app, Hcur. simpl. by rewrite Hc.
Qed.

Lemma last_segment_from_slash_free (cur t : string) :
  no_slash t = true -> last_segment_from cur t = cur +:+ t.
Proof.
  revert cur. induction t as [|c t IH]; intros cur Ht; simpl.
  - by rewrite string_app_nil_r.
  - simpl in Ht. apply andb_prop in Ht as [Hc Ht].
    apply negb_true_iff in Hc. rewrite Hc, IH by done.
    by rewrite string_app_assoc.
Qed.

(** [split('/').pop()] gives a string without a slash, which it leaves as
    it is. *)
Lemma last_segment_idem (s : string) : last_segment (last_segment s) = last_segment s.
Proof.
  unfold last_segment at 1.
  rewrite last_segment_from_slash_free; [done|].
  by apply last_segment_from_no_slash.
Qed.

Lemma str_or_nonempty a b : a <> "" -> str_or a b = a.
Proof. intros H. unfold str_or. by rewrite (proj2 (String.eqb_neq a "") H). Qed.

Lemma str_or_idem a b : str_or (str_or a b) b = str_or a b.
Proof.
  destruct (String.eqb_spec a "") as [->|Hne].
  - unfold str_or. simpl. by destruct (String.eqb b "").
  - by rewrite !(str_or_nonempty a b).
Qed.

(** The file name that [normalizeMovieImage] keeps of an image value. *)
Lemma filename_fixed (img : string) :
  let f := if is_http_ci img then str_or (last_segment img) img else img in
  (if is_http_ci f then str_or (last_segment f) f else f) = f.
Proof.
  intros f. unfold f. clear f.
  destruct (is_http_ci img) eqn:Himg; [|by rewrite Himg].
  destruct (String.eqb_spec (last_segment img) "") as [Hseg|Hseg].
  - rewrite Hseg. unfold str_or at 1 3 4. simpl. rewrite Himg, Hseg. done.
  - rewrite (str_or_nonempty _ img Hseg). rewrite last_segment_idem.
    destruct (is_http_ci (last_segment img)); [|done].
    by apply str_or_nonempty.
Qed.

Lemma str_or_file_abs (api f : string) :
  str_or f (resolveMovieImage api (Movie "" "" f "" "" "")) = f.
Proof.
  destruct (String.eqb_spec f "") as [->|Hne]; [reflexivity|].
  by apply str_or_nonempty.
Qed.

Lemma normalizeMovieImage_again (api api' : string) (m : movie) (abs src : string) :
  let m' := normalizeMovieImage api m in
  str_or (image m') abs = image m' ->
  str_or src "manual" = source m' ->
  normalizeMovieImage api'
    (Movie (title m') (display m') (image m') abs (addedBy m') src)
  = normalizeMovieImage api' m.
Proof.
  intros m' Habs Hsrc. unfold normalizeMovieImage at 1.
  cbn [title display image imageAbsolute addedBy source].
  rewrite Habs, Hsrc. unfold m', normalizeMovieImage.
  cbn [title display image imageAbsolute addedBy source].
  by rewrite filename_fixed.
Qed.

(** X10. Normalising the image fields of a movie is idempotent, also
    across a change of the API base: a movie that was normalised comes out
    of a second normalisation as if it had been normalised once, under the
    base of the second. *)
Theorem normalizeMovieImage_idempotent (api api' : string) (m : movie) :
  normalizeMovieImage api' (normalizeMovieImage api m) = normalizeMovieImage api' m.
Proof.
  exact (normalizeMovieImage_again api api' m
           (imageAbsolute (normalizeMovieImage api m)) (source (normalizeMovieImage api m))
           (str_or_file_abs api (image (normalizeMovieImage api m)))
           (str_or_idem (source m) "manual")).
Qed.

Lemma resolveMovieImage_no_file (api api' t d f a s : string) :
  f = "" ->
  resolveMovieImage api' (Movie t d f (resolveMovieImage api (Movie "" "" f "" "" "")) a s) = "".
Proof. by intros ->. Qed.

Lemma normalize_serialize (api api' api0 : string) (m : movie) :
  normalizeMovieImage api (serializeSwipeMovie api' (normalizeMovieImage api0 m))
  = normalizeMovieImage api m.
Proof.
  apply (normalizeMovieImage_again api0 api m
           (resolveMovieImage api' (normalizeMovieImage api0 m))
           (str_or (source (normalizeMovieImage api0 m)) "manual")).
  - destruct (String.eqb_spec (image (normalizeMovieImage api0 m)) "") as [Hf|Hne];
      [|by apply str_or_nonempty].
    pose proof (resolveMovieImage_no_file api0 api' (title m) (display m)
                  (image (normalizeMovieImage api0 m)) (addedBy m)
                  (str_or (source m) "manual") Hf) as He.
    change (resolveMovieImage api' (normalizeMovieImage api0 m) = "") in He.
    by rewrite He, Hf.
  - change (source (normalizeMovieImage api0 m)) with (str_or (source m) "manual").
    by rewrite !str_or_idem.
Qed.

(** X11. Sending a movie to the server and loading it again gives the movie
    back: a normalised movie, serialised under any API base and normalised
    again, is unchanged. *)
Theorem serializeSwipeMovie_round_trip (api api' : string) (m : movie) :
  normalizeMovieImage api m = m ->
  normalizeMovieImage api (serializeSwipeMovie api' m) = m.
Proof.
  intros H. rewrite <- H at 1. rewrite normalize_serialize. exact H.
Qed.

Lemma serializeSwipeMovie_round_trip_witness :
  normalizeMovieImage "http://host"
    (serializeSwipeMovie "http://other" (Movie "A" "A" "a.jpg" "http://host/images/a.jpg" "p1" "auto"))
  = Movie "A" "A" "a.jpg" "http://host/images/a.jpg" "p1" "auto".
Proof.
  apply (serializeSwipeMovie_round_trip "http://host" "http://other"). reflexivity.
Defined.

(** ** The shuffle *)

Lemma shuffle_from_S {A} (i : nat) (a : list A) (r : rng) :
  shuffle_from (S i) a r = shuffle_from i (swap (S i) (r 0%nat mod S (S i)) a) (rng_tail r).
Proof. reflexivity. Qed.

Lemma shuffle_from_ext {A} (i : nat) (a : list A) (r r' : rng) :
  (forall k, (k < i)%nat -> r k = r' k) ->
  (shuffle_from i a r).1 = (shuffle_from i a r').1.
Proof.
  revert a r r'. induction i as [|i IH]; intros a r r' H; simpl; [done|].
  rewrite (H 0%nat) by lia. apply IH. intros k Hk. unfold rng_tail. apply H. lia.
Qed.

Lemma shuffle_from_draws {A} (i : nat) (a : list A) (r : rng) :
  (shuffle_from i a r).2 = rng_drop i r.
Proof. revert a r. induction i as [|i IH]; intros a r; simpl; [done|]. apply IH. Qed.

Lemma swap_length {A} (i j : nat) (a : list A) : length (swap i j a) = length a.
Proof. apply Permutation_length, swap_perm. Qed.

Lemma swap_app_l {A} (i j : nat) (pre suf : list A) :
  (i < length pre)%nat -> (j < length pre)%nat ->
  swap i j (pre ++ suf) = swap i j pre ++ suf.
Proof.
  intros Hi Hj. unfold swap. rewrite !lookup_app_l by done.
  destruct (pre !! i) as [x|]; [|done]. destruct (pre !! j) as [y|]; [|done].
  rewrite insert_app_l by done. rewrite insert_app_l; [done|].
  by rewrite length_insert.
Qed.

Lemma shuffle_from_app {A} (i : nat) (pre suf : list A) (r : rng) :
  (i < length pre)%nat ->
  (shuffle_from i (pre ++ suf) r).1 = (shuffle_from i pre r).1 ++ suf.
Proof.
  revert pre r. induction i as [|i IH]; intros pre r Hi; simpl; [done|].
  assert (r 0%nat mod S (S i) < S (S i))%nat as Hj by (apply Nat.mod_upper_bound; lia).
  rewrite swap_app_l by lia. apply IH. rewrite swap_length. lia.
Qed.

Lemma rng_of_tail (k : nat) (ks : list nat) (r : rng) (i : nat) :
  rng_tail (rng_of (k :: ks) r) i = rng_of ks r i.
Proof. reflexivity. Qed.

Lemma shuffle_from_reach {A} (n : nat) (a b : list A) :
  length a = S n -> b ≡ₚ a ->
  exists ks, length ks = n /\ forall r, (shuffle_from n a (rng_of ks r)).1 = b.
Proof.
  revert a b. induction n as [|n IH]; intros a b Hlen Hperm.
  - exists []. split; [done|]. intros r. simpl.
    destruct a as [|x [|y a]]; try done.
    by apply Permutation_singleton_r in Hperm.
  - pose proof (Permutation_length Hperm) as Hlb. rewrite Hlen in Hlb.
    destruct b as [|x b' _] using rev_ind; [done|].
    rewrite length_app in Hlb. simpl in Hlb.
    assert (x ∈ a) as Hx.
    { rewrite <- Hperm. apply elem_of_app. right. apply list_elem_of_here. }
    apply list_elem_of_lookup_1 in Hx as [j Hj].
    pose proof (lookup_lt_Some _ _ _ Hj) as Hjlt.
    destruct (lookup_lt_is_Some_2 a (S n)) as [xi Hi]; [lia|].
    assert (swap (S n) j a !! S n = Some x) as Hlast.
    { unfold swap. rewrite Hi, Hj.
      destruct (decide (j = S n)) as [->|Hne].
      - rewrite list_lookup_insert_eq by (rewrite length_insert; lia). congruence.
      - rewrite list_lookup_insert_ne by done.
        rewrite list_lookup_insert_eq by lia. done. }
    pose proof (swap_length (S n) j a) as Hl1.
    pose proof (swap_perm (S n) j a) as Hp1.
    set (a1 := swap (S n) j a) in *.
    assert (a1 = take (S n) a1 ++ [x]) as Hsplit.
    { rewrite <- (take_S_r _ _ _ Hlast). rewrite take_ge by lia. done. }
    destruct (IH (take (S n) a1) b') as (ks & Hks & Hrun).
    { rewrite length_take. lia. }
    { apply (Permutation_app_inv_r [x]). rewrite <- Hsplit, Hp1. done. }
    exists (j :: ks). split; [simpl; by rewrite Hks|].
    intros r. rewrite shuffle_from_S.
    change (rng_of (j :: ks) r 0%nat) with j.
    rewrite Nat.mod_small by lia. fold a1.
    rewrite (shuffle_from_ext n a1 _ (rng_of ks r)) by (intros; apply rng_of_tail).
    rewrite Hsplit, shuffle_from_app by (rewrite length_take; lia).
    by rewrite Hrun.
Qed.

(** X12. The shuffle returns a permutation of its argument, consumes one
    random draw per position but the first and depends on no later draw;
    and every permutation of the argument is the result for some draws: no
    order is out of its reach. *)
Theorem shuffleArray_reaches_every_order {A : Type} (a : list A) :
  (forall r, (shuffleArray a r).1 ≡ₚ a /\
             (shuffleArray a r).2 = rng_drop (length a - 1) r) /\
  (forall r r', (forall k, (k < length a - 1)%nat -> r k = r' k) ->
     (shuffleArray a r).1 = (shuffleArray a r').1) /\
  (forall b, b ≡ₚ a ->
     exists ks, length ks = (length a - 1)%nat /\
       forall r, (shuffleArray a (rng_of ks r)).1 = b).
Proof.
  unfold shuffleArray. split; [|split].
  - intros r. split; [apply shuffle_from_perm | apply shuffle_from_draws].
  - intros r r'. apply shuffle_from_ext.
  - intros b Hb. destruct a as [|x a].
    + apply Permutation_nil_r in Hb as ->. by exists [].
    + apply shuffle_from_reach; [simpl; lia | done].
Qed.

(** ** Swipe: which globals a function leaves alone *)

Lemma processMatchQueue_fields st :
  core_fields (processMatchQueue st) = core_fields st /\
  view_fields (processMatchQueue st) = view_fields st.
Proof.
  unfold processMatchQueue. destruct (matchModalOpen st); [done|].
  destruct (matchQueue st) as [|next rest]; [done|]. by destruct (String.eqb next "").
Qed.

Lemma enqueueMatchModal_fields t st :
  core_fields (enqueueMatchModal t st) = core_fields st /\
  view_fields (enqueueMatchModal t st) = view_fields st.
Proof.
  unfold enqueueMatchModal.
  destruct (String.eqb t "" || bool_decide (t ∈ seenMatches st)); [done|].
  destruct (processMatchQueue_fields
              (set_enqueuedLog (enqueuedLog st ++ [t])
                 (set_matchQueue (matchQueue st ++ [t]) st))) as [-> ->].
  done.
Qed.

Lemma recordSwipeLike_fields m person st :
  view_fields (recordSwipeLike m person st) = view_fields st /\
  swipeSelectedMovies (recordSwipeLike m person st) = swipeSelectedMovies st /\
  swipePersons (recordSwipeLike m person st) = swipePersons st /\
  swipePersonCount (recordSwipeLike m person st) = swipePersonCount st /\
  swipeLocked (recordSwipeLike m person st) = swipeLocked st.
Proof.
  rewrite recordSwipeLike_unfold. cbv zeta.
  destruct (swipePersonCount st <=? _)%nat; [|done].
  match goal with
  | |- context [enqueueMatchModal m ?s] =>
      destruct (enqueueMatchModal_fields m s) as [Hc Hv]
  end.
  rewrite Hv. unfold core_fields in Hc. injection Hc as _ H1 _ _ H2 H3 H4.
  rewrite H1, H2, H3, H4. done.
Qed.

Lemma recordSwipeDislike_fields m person st :
  view_fields (recordSwipeDislike m person st) = view_fields st /\
  queue_fields (recordSwipeDislike m person st) = queue_fields st /\
  swipeSelectedMovies (recordSwipeDislike m person st) = swipeSelectedMovies st /\
  swipePersons (recordSwipeDislike m person st) = swipePersons st /\
  swipePersonCount (recordSwipeDislike m person st) = swipePersonCount st /\
  swipeLocked (recordSwipeDislike m person st) = swipeLocked st /\
  swipeMatches (recordSwipeDislike m person st) = swipeMatches st.
Proof. unfold recordSwipeDislike. by destruct (swipeLikes st !! m). Qed.

Lemma resetSwipeProgressAll_fields st r :
  queue_fields (resetSwipeProgressAll st r).1 = queue_fields st /\
  core_fields (resetSwipeProgressAll st r).1 = core_fields st /\
  swipeCurrentPerson (resetSwipeProgressAll st r).1 = swipeCurrentPerson st.
Proof.
  unfold resetSwipeProgressAll.
  destruct (resetProgressEntries st r) as [pr r1].
  destruct (pr !! swipeCurrentPerson st) as [c|]; [done|].
  by destruct (randomOrderTitles st r1).
Qed.

Lemma applySwipeProgress_fields person st r :
  queue_fields (applySwipeProgress person st r).1 = queue_fields st /\
  core_fields (applySwipeProgress person st r).1 = core_fields st /\
  swipeCurrentPerson (applySwipeProgress person st r).1 = swipeCurrentPerson st.
Proof.
  unfold applySwipeProgress.
  destruct (String.eqb person ""); [done|].
  destruct (swipeProgress st !! person) as [e|].
  - destruct (length (order e) =? 0)%nat; [|done].
    by destruct (randomOrderTitles st r).
  - by destruct (randomOrderTitles st r).
Qed.

Lemma saveSwipeProgress_fields person st r :
  queue_fields (saveSwipeProgress person st r).1 = queue_fields st /\
  core_fields (saveSwipeProgress person st r).1 = core_fields st /\
  swipeCurrentPerson (saveSwipeProgress person st r).1 = swipeCurrentPerson st /\
  swipeCurrentIndex (saveSwipeProgress person st r).1 = swipeCurrentIndex st /\
  swipeOrder (saveSwipeProgress person st r).1 = swipeOrder st /\
  swipeCompleted (saveSwipeProgress person st r).1 = swipeCompleted st.
Proof. unfold saveSwipeProgress. by destruct (String.eqb person ""). Qed.

(** ** Match notifications come in order *)

Lemma queue_ok_fields st st' : queue_fields st' = queue_fields st -> queue_ok st -> queue_ok st'.
Proof.
  unfold queue_fields, queue_ok. intros [= -> -> -> -> ->]. done.
Qed.

Lemma enqueueMatchModal_queue_ok t st : queue_ok st -> queue_ok (enqueueMatchModal t st).
Proof.
  intros (Hlog & Hclosed & Hempty & Hseen). unfold enqueueMatchModal.
  destruct (String.eqb_spec t "") as [->|Ht]; [done|]. simpl.
  case_bool_decide as Hin; [done|].
  unfold processMatchQueue. simpl.
  destruct (matchModalOpen st) eqn:Hopen.
  - unfold queue_ok. simpl.
    split; [by rewrite Hlog, app_assoc|]. split; [by rewrite Hopen|].
    split; [|done].
    rewrite elem_of_app, list_elem_of_singleton. intros [?|?]; [done|]. by apply Ht.
  - specialize (Hclosed eq_refl). rewrite Hclosed in Hlog |- *.
    rewrite app_nil_r in Hlog. simpl.
    rewrite (proj2 (String.eqb_neq t "") Ht).
    unfold queue_ok. simpl.
    split; [by rewrite Hlog, app_nil_r|]. split; [done|]. split.
    + rewrite elem_of_app, list_elem_of_singleton. intros [?|?]; [done|]. by apply Ht.
    + intros x. rewrite elem_of_app, list_elem_of_singleton, elem_of_union.
      intros [?| ->]; [right; by apply Hseen | left; by apply elem_of_singleton].
Qed.

Lemma closeMatchModal_queue_ok st : queue_ok st -> queue_ok (closeMatchModal st).
Proof.
  intros (Hlog & Hclosed & Hempty & Hseen). unfold closeMatchModal, processMatchQueue.
  simpl. destruct (matchQueue st) as [|next rest] eqn:Hq.
  - unfold queue_ok. simpl. by rewrite Hq.
  - assert (next <> "") as Hnext.
    { intros ->. apply Hempty. rewrite Hlog. apply elem_of_app. right.
      apply list_elem_of_here. }
    rewrite (proj2 (String.eqb_neq next "") Hnext).
    unfold queue_ok. simpl.
    split; [by rewrite Hlog, <- app_assoc|]. split; [done|]. split; [done|].
    intros x. rewrite elem_of_app, list_elem_of_singleton, elem_of_union.
    intros [?| ->]; [right; by apply Hseen | left; by apply elem_of_singleton].
Qed.

Lemma recordSwipeLike_queue_ok m person st :
  queue_ok st -> queue_ok (recordSwipeLike m person st).
Proof.
  intros H. rewrite recordSwipeLike_unfold. cbv zeta.
  destruct (swipePersonCount st <=? _)%nat; [|done].
  by apply enqueueMatchModal_queue_ok.
Qed.

Lemma enqueue_new_matches_queue_ok prev matches st :
  queue_ok st ->
  queue_ok (foldl (fun acc m =>
                     if includes prev m then acc else enqueueMatchModal m acc)
                  st matches).
Proof.
  revert st. induction matches as [|m l IH]; intros st H; simpl; [done|].
  apply IH. destruct (includes prev m); [done|]. by apply enqueueMatchModal_queue_ok.
Qed.

Lemma applySwipeStateFromServer_queue_ok api s st r :
  queue_ok st -> queue_ok (applySwipeStateFromServer api s st r).1.
Proof.
  intros H. unfold applySwipeStateFromServer.
  match goal with
  | |- context [foldl ?f ?st1 (set_of_list (w_matches s))] =>
      pose proof (enqueue_new_matches_queue_ok (swipeMatches st)
                    (set_of_list (w_matches s)) st1 H) as H2;
      set (st2 := foldl f st1 (set_of_list (w_matches s))) in *
  end.
  match goal with
  | |- context [normalizeSwipeProgress ?st3 ?a ?b ?c ?d] =>
      assert (queue_ok st3) as H3;
      [|destruct (normalizeSwipeProgress st3 a b c d) as [pr r1]]
  end.
  { destruct H2 as (Hlog & Hclosed & Hempty & Hseen).
    unfold queue_ok. simpl. repeat split; try done.
    intros x Hx. apply elem_of_union. left. by apply Hseen. }
  match goal with
  | |- queue_ok (applySwipeProgress ?p ?st5 r1).1 =>
      apply (queue_ok_fields st5);
      [by destruct (applySwipeProgress_fields p st5 r1) as [-> _]|]
  end.
  by destruct (includes _ _).
Qed.

Lemma step_queue_ok c ev : queue_ok c.1 -> queue_ok (step c ev).1.
Proof.
  intros H. destruct c as [st r]. simpl in H.
  destruct ev as [m p|m p|api s| |d|t| |n|]; simpl.
  - by apply recordSwipeLike_queue_ok.
  - apply (queue_ok_fields st); [|done].
    by destruct (recordSwipeDislike_fields m p st) as (_ & -> & _).
  - by apply applySwipeStateFromServer_queue_ok.
  - by apply closeMatchModal_queue_ok.
  - unfold addSwipeMovie. destruct (String.eqb d ""); [done|].
    destruct (find_movie _ _); [done|].
    match goal with
    | |- queue_ok (resetSwipeProgressAll ?s r).1 =>
        apply (queue_ok_fields s);
        [by destruct (resetSwipeProgressAll_fields s r) as [-> _]|done]
    end.
  - unfold removeSwipeMovie.
    match goal with
    | |- queue_ok (resetSwipeProgressAll ?s r).1 =>
        apply (queue_ok_fields s);
        [by destruct (resetSwipeProgressAll_fields s r) as [-> _]|done]
    end.
  - unfold performClearSwipeList.
    match goal with
    | |- queue_ok (resetSwipeProgressAll ?s r).1 =>
        apply (queue_ok_fields s);
        [by destruct (resetSwipeProgressAll_fields s r) as [-> _]|done]
    end.
  - unfold setSwipePersons.
    match goal with
    | |- context [resetSwipeProgressAll ?s r] =>
        pose proof (resetSwipeProgressAll_fields s r) as [Hq _];
        destruct (resetSwipeProgressAll s r) as [st2 r2]
    end.
    apply (queue_ok_fields st2);
      [by destruct (applySwipeProgress_fields (swipeCurrentPerson st2) st2 r2) as [-> _]|].
    by apply (queue_ok_fields _ _ Hq).
  - unfold confirmSwipeSetup.
    match goal with
    | |- context [resetSwipeProgressAll ?s r] =>
        pose proof (resetSwipeProgressAll_fields s r) as [Hq _];
        destruct (resetSwipeProgressAll s r) as [st1 r1]
    end.
    pose proof (applySwipeProgress_fields (swipeCurrentPerson st1) st1 r1) as [Hq2 _].
    destruct (applySwipeProgress (swipeCurrentPerson st1) st1 r1) as [st2 r2].
    apply (queue_ok_fields st2); [done|].
    apply (queue_ok_fields _ _ Hq2). by apply (queue_ok_fields _ _ Hq).
Qed.

Lemma session_step_queue_ok c ev : queue_ok c.1 -> queue_ok (session_step c ev).1.
Proof.
  intros H. destruct ev as [e|like t p|p|p]; simpl.
  - by apply step_queue_ok.
  - unfold swipeDecisionOffline.
    match goal with
    | |- queue_ok (saveSwipeProgress p ?s c.2).1 =>
        apply (queue_ok_fields s);
        [by destruct (saveSwipeProgress_fields p s c.2) as [-> _]|]
    end.
    match goal with
    | |- queue_ok (set_swipeCompleted _ (set_swipeCurrentIndex _ ?s)) =>
        apply (queue_ok_fields s); [done|]
    end.
    destruct like; [by apply recordSwipeLike_queue_ok|].
    apply (queue_ok_fields c.1); [|done].
    by destruct (recordSwipeDislike_fields t p c.1) as (_ & -> & _).
  - unfold selectSwipePerson.
    pose proof (saveSwipeProgress_fields (swipeCurrentPerson c.1) c.1 c.2) as [Hq _].
    destruct (saveSwipeProgress (swipeCurrentPerson c.1) c.1 c.2) as [st1 r1].
    match goal with
    | |- queue_ok (applySwipeProgress p ?s r1).1 =>
        apply (queue_ok_fields s);
        [by destruct (applySwipeProgress_fields p s r1) as [-> _]|]
    end.
    apply (queue_ok_fields st1); [done|]. by apply (queue_ok_fields _ _ Hq).
  - apply (queue_ok_fields c.1); [|done].
    by destruct (saveSwipeProgress_fields p c.1 c.2) as [-> _].
Qed.

(** X14. Match notifications are first in, first out, over any sequence of
    likes, dislikes, offline decisions, person switches, loads, list edits
    and closings: the titles enqueued so far are the titles shown so far, in
    the same order, followed by the waiting queue; nothing waits while no
    notification is on screen; no empty title is enqueued; every title shown
    is in the seen set. *)
Theorem session_run_queue_ok (c : swipe_state * rng) (evs : list session_event) :
  queue_ok c.1 -> queue_ok (session_run c evs).1.
Proof.
  revert c. induction evs as [|ev evs IH]; intros c H; simpl; [done|].
  apply IH. by apply session_step_queue_ok.
Qed.

Lemma session_run_queue_ok_witness :
  queue_ok (session_run (state_modal_open, draws_fixed)
              [SeDecide true "X" "p2"; SeSelect "p2"; SeSwipe EvCloseModal]).1.
Proof.
  apply (session_run_queue_ok (state_modal_open, draws_fixed)).
  unfold queue_ok. split; [by vm_compute|]. split; [by vm_compute|].
  split.
  - apply (bool_decide_unpack _). by vm_compute.
  - intros t Ht.
    assert (t = "Y") as ->.
    { change (shownLog state_modal_open) with ["Y"] in Ht.
      by apply list_elem_of_singleton in Ht. }
    apply (bool_decide_unpack _). by vm_compute.
Defined.

(** Witness of X13 at the state where Y was shown: a further like that
    completes Y again, and closing, enqueue nothing for Y. *)
Lemma seen_title_not_enqueued_again_witness :
  exists new,
    enqueuedLog (run (state_modal_open, draws_fixed)
                   [EvDislike "Y" "p2"; EvLike "Y" "p2"; EvCloseModal]).1
      = enqueuedLog (state_modal_open, draws_fixed).1 ++ new /\ ("Y" ∉ new).
Proof.
  destruct (seen_title_not_enqueued_again "Y" (state_modal_open, draws_fixed)
              [EvDislike "Y" "p2"; EvLike "Y" "p2"; EvCloseModal])
    as (new & Hlog & Hnew & _).
  - apply (bool_decide_unpack _). by vm_compute.
  - exists new. split; [exact Hlog | exact Hnew].
Defined.

(** ** Loading matches *)

Lemma set_add_NoDup x s : NoDup s -> NoDup (set_add x s).
Proof.
  intros H. unfold set_add. destruct (includes s x) eqn:Hin; [done|].
  apply includes_false in Hin. apply NoDup_app. split; [done|]. split.
  - intros y Hy. rewrite list_elem_of_singleton. by intros ->.
  - apply NoDup_singleton.
Qed.

Lemma set_of_list_fold (l acc : list string) :
  let res := foldl (fun acc x => set_add x acc) acc l in
  (NoDup acc -> NoDup res) /\
  (forall x, x ∈ res <-> x ∈ acc \/ x ∈ l) /\
  (NoDup (acc ++ l) -> res = acc ++ l).
Proof.
  revert acc. induction l as [|y l IH]; intros acc res; subst res; simpl.
  - split; [done|]. split; [|by rewrite app_nil_r].
    intros x. rewrite elem_of_nil. tauto.
  - destruct (IH (set_add y acc)) as (H1 & H2 & H3). split; [|split].
    + intros Hnd. by apply H1, set_add_NoDup.
    + intros x. rewrite H2, set_add_elem, elem_of_cons. tauto.
    + intros Hnd.
      assert (set_add y acc = acc ++ [y]) as Hadd.
      { unfold set_add. destruct (includes acc y) eqn:Hin; [|done].
        apply includes_true in Hin. apply NoDup_app in Hnd as (_ & Hd & _).
        exfalso. apply (Hd y Hin), list_elem_of_here. }
      rewrite Hadd in *. rewrite H3; rewrite <- app_assoc; done.
Qed.

Lemma set_of_list_NoDup l : NoDup (set_of_list l).
Proof. apply (set_of_list_fold l []), NoDup_nil_2. Qed.

Lemma set_of_list_elem l x : x ∈ set_of_list l <-> x ∈ l.
Proof.
  destruct (set_of_list_fold l []) as (_ & H & _). unfold set_of_list. rewrite H.
  rewrite elem_of_nil. tauto.
Qed.

Lemma set_of_list_id l : NoDup l -> set_of_list l = l.
Proof. intros H. by apply (set_of_list_fold l []). Qed.

Lemma filter_ext_in {A} (P Q : A -> Prop) `{forall x, Decision (P x)}
    `{forall x, Decision (Q x)} (l : list A) :
  (forall x, x ∈ l -> (P x <-> Q x)) -> filter P l = filter Q l.
Proof.
  induction l as [|x l IH]; intros Hext; [done|].
  rewrite !filter_cons.
  rewrite IH by (intros y Hy; apply Hext; by right).
  destruct (decide (P x)) as [Hp|Hp], (decide (Q x)) as [Hq|Hq]; try done.
  - exfalso. apply Hq, (Hext x); [apply list_elem_of_here|done].
  - exfalso. apply Hp, (Hext x); [apply list_elem_of_here|done].
Qed.

(** What one call of [enqueueMatchModal] does to the history and the seen
    set of a well-formed queue. *)
Lemma enqueueMatchModal_effect t st :
  queue_ok st ->
  enqueuedLog (enqueueMatchModal t st) =
    enqueuedLog st ++ (if decide (t <> "" /\ (t ∉ seenMatches st)) then [t] else []) /\
  seenMatches st ⊆ seenMatches (enqueueMatchModal t st) /\
  seenMatches (enqueueMatchModal t st) ⊆ seenMatches st ∪ {[t]}.
Proof.
  intros (Hlog & Hclosed & Hempty & Hseen).
  destruct (decide (t <> "" /\ (t ∉ seenMatches st))) as [[Ht Hs]|Hd].
  - unfold enqueueMatchModal.
    rewrite (proj2 (String.eqb_neq t "") Ht), bool_decide_eq_false_2 by done.
    cbn [orb]. unfold processMatchQueue.
    cbn [matchModalOpen set_enqueuedLog set_matchQueue matchQueue].
    destruct (matchModalOpen st) eqn:Hopen.
    + cbn [enqueuedLog seenMatches set_enqueuedLog set_matchQueue].
      split; [done|]. split; [done|]. apply union_subseteq_l.
    + rewrite (Hclosed eq_refl). cbn [app].
      rewrite (proj2 (String.eqb_neq t "") Ht).
      unfold showMatchModal.
      cbn [enqueuedLog seenMatches set_enqueuedLog set_matchQueue set_shownLog
           set_seenMatches set_matchModalOpen].
      split; [done|]. split; [apply union_subseteq_r|].
      by rewrite (comm_L (∪)).
  - assert (enqueueMatchModal t st = st) as ->.
    { unfold enqueueMatchModal. destruct (String.eqb_spec t "") as [?|Ht]; [done|].
      rewrite bool_decide_eq_true_2; [done|].
      destruct (decide (t ∈ seenMatches st)); [done|]. exfalso. by apply Hd. }
    rewrite app_nil_r. split; [done|]. split; [done|]. apply union_subseteq_l.
Qed.

Lemma enqueue_new_matches_effect prev matches st :
  queue_ok st -> NoDup matches ->
  let st' := foldl (fun acc m =>
                      if includes prev m then acc else enqueueMatchModal m acc)
                   st matches in
  enqueuedLog st' =
    enqueuedLog st ++
      filter (fun m => (m ∉ prev) /\ m <> "" /\ (m ∉ seenMatches st)) matches /\
  seenMatches st ⊆ seenMatches st' /\
  seenMatches st' ⊆ seenMatches st ∪ list_to_set matches.
Proof.
  revert st. induction matches as [|m l IH]; intros st Hok Hnd; simpl.
  { rewrite app_nil_r. split; [done|]. split; [done|]. apply union_subseteq_l. }
  apply NoDup_cons in Hnd as [Hm Hnd].
  destruct (includes prev m) eqn:Hprev.
  - apply includes_true in Hprev.
    destruct (IH st Hok Hnd) as (H1 & H2 & H3).
    rewrite filter_cons_False by tauto. split; [done|]. split; [done|].
    intros x Hx. apply H3 in Hx. apply elem_of_union in Hx as [Hx|Hx].
    + apply elem_of_union. by left.
    + apply elem_of_union. right. apply elem_of_union. by right.
  - apply includes_false in Hprev.
    destruct (enqueueMatchModal_effect m st Hok) as (E1 & E2 & E3).
    destruct (IH (enqueueMatchModal m st)) as (H1 & H2 & H3);
      [by apply enqueueMatchModal_queue_ok|done|].
    split; [|split].
    + rewrite H1, E1, <- app_assoc. f_equal.
      rewrite filter_cons.
      rewrite (filter_ext_in
                 (fun x => (x ∉ prev) /\ x <> "" /\
                           (x ∉ seenMatches (enqueueMatchModal m st)))
                 (fun x => (x ∉ prev) /\ x <> "" /\ (x ∉ seenMatches st)) l).
      * destruct (decide (m <> "" /\ (m ∉ seenMatches st))) as [Hd|Hd];
          destruct (decide ((m ∉ prev) /\ m <> "" /\ (m ∉ seenMatches st))) as [Hd'|Hd'];
          try done; tauto.
      * intros x Hx. assert (x <> m) as Hxm by (intros ->; done).
        split; intros (Hp & Hne & Hs); (split; [done|split; [done|]]).
        -- intros Hin. apply Hs. by apply E2.
        -- intros Hin. apply E3 in Hin. apply elem_of_union in Hin as [Hin|Hin]; [done|].
           by apply elem_of_singleton in Hin.
    + intros x Hx. by apply H2, E2.
    + intros x Hx. apply H3 in Hx. apply elem_of_union in Hx as [Hx|Hx].
      * apply E3 in Hx. apply elem_of_union in Hx as [Hx|Hx].
        -- apply elem_of_union. by left.
        -- apply elem_of_union. right. apply elem_of_union. by left.
      * apply elem_of_union. right. apply elem_of_union. by right.
Qed.

Lemma enqueue_new_matches_fields prev matches st :
  let st' := foldl (fun acc m =>
                      if includes prev m then acc else enqueueMatchModal m acc)
                   st matches in
  core_fields st' = core_fields st /\ view_fields st' = view_fields st.
Proof.
  revert st. induction matches as [|m ms IH]; intros st; simpl; [done|].
  destruct (includes prev m); [apply IH|].
  destruct (IH (enqueueMatchModal m st)) as (-> & ->).
  apply enqueueMatchModal_fields.
Qed.

(** X15. Loading a swipe state replaces the list, the likes, the matches
    and the lock by the loaded ones (matches without repetition) and leaves
    a non-empty list of persons with its count; the current person is one
    of them, or p1 when the first person has the empty name.  Every loaded
    match is in the seen set afterwards.  On a well-formed notification
    queue the titles announced by the load are exactly the loaded matches
    that were not matches before, are not empty and had not been seen, each
    once, in the order of the loaded list. *)
Theorem applySwipeStateFromServer_matches (api : string) (s : swipe_snapshot)
    (st : swipe_state) (r : rng) :
  queue_ok st ->
  let st' := (applySwipeStateFromServer api s st r).1 in
  swipeSelectedMovies st' = normalizeMovieImage api <$> w_movies s /\
  swipeLikes st' = w_likes s /\ swipeLocked st' = w_locked s /\
  swipeMatches st' = set_of_list (w_matches s) /\
  NoDup (swipeMatches st') /\
  (forall t, t ∈ swipeMatches st' <-> t ∈ w_matches s) /\
  (forall t, t ∈ swipeMatches st' -> t ∈ seenMatches st') /\
  swipePersons st' <> [] /\
  swipePersonCount st' = length (swipePersons st') /\
  (swipeCurrentPerson st' ∈ swipePersons st' \/ swipeCurrentPerson st' = "p1") /\
  enqueuedLog st' =
    enqueuedLog st ++
      filter (fun m => (m ∉ swipeMatches st) /\ m <> "" /\ (m ∉ seenMatches st))
             (set_of_list (w_matches s)).
Proof.
  intros Hok st'. unfold st', applySwipeStateFromServer. clear st'.
  set (ms := normalizeMovieImage api <$> w_movies s).
  set (ps := match w_persons s with
             | [] => match swipePersons st with [] => ["p1"; "p2"] | _ => swipePersons st end
             | _ => w_persons s
             end).
  set (count := match length ps with O => 2%nat | n => n end).
  set (matches := set_of_list (w_matches s)).
  set (st1 := set_swipeMatches matches _).
  set (st2 := foldl _ st1 matches).
  set (st3 := set_swipeLocked (w_locked s) _).
  assert (ps <> []) as Hps.
  { unfold ps. destruct (w_persons s); [|done]. by destruct (swipePersons st). }
  assert (count = length ps) as Hcount.
  { unfold count. destruct ps; done. }
  destruct (enqueue_new_matches_effect (swipeMatches st) matches st1)
    as (Hlog & Hseen1 & Hseen2); [done|apply set_of_list_NoDup|].
  fold st2 in Hlog, Hseen1, Hseen2.
  destruct (enqueue_new_matches_fields (swipeMatches st) matches st1) as [Hcore _].
  fold st2 in Hcore. unfold core_fields in Hcore.
  injection Hcore as _ Hc1 Hc2 Hc3 Hc4 Hc5 _.
  destruct (normalizeSwipeProgress st3 (w_progress s) ps (titles_of ms) r) as [pr r1].
  set (st5 := if includes ps (swipeCurrentPerson (set_swipeProgress pr st3))
              then set_swipeProgress pr st3
              else set_swipeCurrentPerson (str_or (default "" (head ps)) "p1")
                     (set_swipeProgress pr st3)).
  assert (core_fields st5 = core_fields st3 /\ queue_fields st5 = queue_fields st3)
    as [Hcore5 Hqueue5].
  { unfold st5. by destruct (includes ps _). }
  assert (swipeCurrentPerson st5 ∈ ps \/ swipeCurrentPerson st5 = "p1") as Hcur.
  { unfold st5. destruct (includes ps _) eqn:Hinc; [left; by apply includes_true in Hinc|].
    simpl. destruct ps as [|p0 ps']; [done|]. simpl.
    unfold str_or. destruct (String.eqb_spec p0 "") as [->|?]; [by right|].
    left. apply list_elem_of_here. }
  destruct (applySwipeProgress_fields (swipeCurrentPerson st5) st5 r1)
    as (Hq & Hc & Hp).
  rewrite Hp. unfold core_fields in Hc, Hcore5. unfold queue_fields in Hq, Hqueue5.
  injection Hc as _ -> -> -> -> -> ->.
  injection Hcore5 as _ -> -> -> -> -> ->.
  injection Hq as _ -> _ -> _. injection Hqueue5 as _ -> _ -> _.
  unfold st3. simpl. rewrite Hc1, Hc2, Hc3, Hc4, Hc5, Hlog. unfold st1. simpl.
  split; [done|]. split; [done|]. split; [done|]. split; [done|].
  split; [apply set_of_list_NoDup|]. split; [apply set_of_list_elem|].
  split. { intros t Ht. apply elem_of_union. right. by apply elem_of_list_to_set. }
  split; [done|]. split; [done|]. split; [done|]. done.
Qed.

Lemma applySwipeStateFromServer_matches_witness :
  enqueuedLog (applySwipeStateFromServer ""
                 (SwipeSnapshot [item "X"; item "Y"; item "Z"] ["p1"; "p2"] ∅
                    ["Z"; "Y"; "Z"; "X"] true ∅)
                 state_modal_open draws_fixed).1
  = ["Y"; "Z"; "X"].
Proof.
  destruct (applySwipeStateFromServer_matches ""
              (SwipeSnapshot [item "X"; item "Y"; item "Z"] ["p1"; "p2"] ∅
                 ["Z"; "Y"; "Z"; "X"] true ∅)
              state_modal_open draws_fixed)
    as (_ & _ & _ & _ & _ & _ & _ & _ & _ & _ & H).
  - unfold queue_ok. split; [by vm_compute|]. split; [by vm_compute|].
    split.
    + apply (bool_decide_unpack _). by vm_compute.
    + intros t Ht.
      assert (t = "Y") as ->.
      { change (shownLog state_modal_open) with ["Y"] in Ht.
        by apply list_elem_of_singleton in Ht. }
      apply (bool_decide_unpack _). by vm_compute.
  - rewrite H. by vm_compute.
Defined.

(** ** Swipe: what a reset and a change of person write *)

Lemma titlesToMovieOrder_ext st st' ts :
  swipeSelectedMovies st' = swipeSelectedMovies st ->
  titlesToMovieOrder st' ts = titlesToMovieOrder st ts.
Proof.
  intros H. unfold titlesToMovieOrder, getSwipeMovieByTitle. by rewrite H.
Qed.

Lemma find_movie_title ms t m : find_movie ms t = Some m -> title m = t.
Proof.
  unfold find_movie. destruct (list_find _ ms) as [[i x]|] eqn:Hf; [|done].
  simpl. intros [= <-]. by apply list_find_Some in Hf as (_ & ? & _).
Qed.

Lemma getSwipeMovieByTitle_title st t :
  t <> "" -> exists m, getSwipeMovieByTitle st t = Some m /\ title m = t.
Proof.
  intros Ht. unfold getSwipeMovieByTitle.
  rewrite (proj2 (String.eqb_neq t "") Ht).
  destruct (find_movie (swipeSelectedMovies st) t) as [m|] eqn:Hf; simpl.
  - exists m. split; [done|]. by eapply find_movie_title.
  - by eexists.
Qed.

(** The deck made of a list of non-empty titles shows these titles. *)
Lemma titlesToMovieOrder_titles st ts :
  "" ∉ ts -> title <$> titlesToMovieOrder st ts = ts.
Proof.
  unfold titlesToMovieOrder.
  induction ts as [|t ts IH]; intros Hne; [done|].
  apply not_elem_of_cons in Hne as [Ht Hne].
  destruct (getSwipeMovieByTitle_title st t) as (m & Hm & Htitle); [done|].
  simpl. rewrite Hm. simpl. rewrite Htitle. f_equal. by apply IH.
Qed.

Lemma resetProgressEntries_fresh st r p e :
  (resetProgressEntries st r).1 !! p = Some e ->
  fresh_entry (titles_of (swipeSelectedMovies st)) e.
Proof.
  unfold resetProgressEntries.
  assert (forall ps (acc : gmap string progress * rng),
            (forall q e', acc.1 !! q = Some e' ->
                          fresh_entry (titles_of (swipeSelectedMovies st)) e') ->
            forall q e',
              (foldl (fun acc p =>
                        let '(o, r') := randomOrderTitles st acc.2 in
                        (<[p := Progress 0 false o]> acc.1, r')) acc ps).1 !! q = Some e' ->
              fresh_entry (titles_of (swipeSelectedMovies st)) e') as H.
  { induction ps as [|x ps IH]; intros acc Hacc; simpl; [done|].
    pose proof (randomOrderTitles_perm st acc.2) as Hperm.
    destruct (randomOrderTitles st acc.2) as [o r'].
    apply IH. intros q e'. simpl.
    destruct (decide (x = q)) as [<-|Hne].
    - rewrite lookup_insert_eq. by intros [= <-].
    - rewrite lookup_insert_ne by done. apply Hacc. }
  apply H. intros q e'. simpl. by rewrite lookup_empty.
Qed.

Lemma resetSwipeProgressAll_spec st r :
  let st' := (resetSwipeProgressAll st r).1 in
  (forall p e, swipeProgress st' !! p = Some e ->
               fresh_entry (titles_of (swipeSelectedMovies st)) e) /\
  exists e, fresh_entry (titles_of (swipeSelectedMovies st)) e /\
    swipeOrder st' = titlesToMovieOrder st (order e) /\
    swipeCurrentIndex st' = 0 /\
    swipeCompleted st' = (length (swipeOrder st') =? 0)%nat.
Proof.
  pose proof (resetProgressEntries_fresh st r) as Hfresh.
  unfold resetSwipeProgressAll.
  destruct (resetProgressEntries st r) as [pr r1]. simpl in Hfresh.
  destruct (pr !! swipeCurrentPerson st) as [c|] eqn:Hc.
  - simpl. split; [done|]. exists c.
    destruct (Hfresh _ _ Hc) as (Hi & Hd & Ho).
    split; [done|]. rewrite Hi, Hd. done.
  - pose proof (randomOrderTitles_perm st r1) as Hperm.
    destruct (randomOrderTitles st r1) as [o r']. simpl.
    split; [done|]. exists (Progress 0 false o). done.
Qed.

Lemma applySwipeProgress_spec person st r :
  person <> "" ->
  let st' := (applySwipeProgress person st r).1 in
  exists e,
    swipeProgress st' !! person = Some e /\
    (forall q, q <> person -> swipeProgress st' !! q = swipeProgress st !! q) /\
    ((swipeProgress st !! person = Some e /\ order e <> [] /\
      (applySwipeProgress person st r).2 = r) \/
     fresh_entry (titles_of (swipeSelectedMovies st)) e) /\
    swipeOrder st' = titlesToMovieOrder st (order e) /\
    swipeCurrentIndex st' = Z.min (idx e) (Z.of_nat (length (swipeOrder st'))) /\
    swipeCompleted st' =
      done e || (Z.of_nat (length (swipeOrder st')) =? 0)
             || (Z.of_nat (length (swipeOrder st')) <=? swipeCurrentIndex st').
Proof.
  intros Hp. unfold applySwipeProgress.
  rewrite (proj2 (String.eqb_neq person "") Hp).
  pose proof (randomOrderTitles_perm st r) as Hperm.
  destruct (swipeProgress st !! person) as [e0|] eqn:He0.
  - destruct (length (order e0) =? 0)%nat eqn:Hlen.
    + destruct (randomOrderTitles st r) as [o r']. simpl.
      exists (Progress 0 false o). rewrite lookup_insert_eq.
      split; [done|]. split; [intros q Hq; by rewrite lookup_insert_ne|].
      split; [by right|]. done.
    + simpl. exists e0. split; [done|]. split; [done|]. split; [|done].
      left. split; [done|]. split; [|done].
      intros Hnil. rewrite Hnil in Hlen. done.
  - destruct (randomOrderTitles st r) as [o r']. simpl.
    exists (Progress 0 false o). rewrite lookup_insert_eq.
    split; [done|]. split; [intros q Hq; by rewrite lookup_insert_ne|].
    split; [by right|]. done.
Qed.

Lemma applySwipeProgress_keeps_fresh person st r :
  (forall p e, swipeProgress st !! p = Some e ->
               fresh_entry (titles_of (swipeSelectedMovies st)) e) ->
  let st' := (applySwipeProgress person st r).1 in
  (forall p e, swipeProgress st' !! p = Some e ->
               fresh_entry (titles_of (swipeSelectedMovies st)) e) /\
  (swipeCurrentIndex st = 0 -> swipeCurrentIndex st' = 0).
Proof.
  intros Hall st'.
  destruct (String.eqb_spec person "") as [->|Hp]; [done|].
  destruct (applySwipeProgress_spec person st r Hp) as (e & He & Hother & Hcase & _ & Hidx & _).
  fold st' in He, Hother, Hidx.
  assert (fresh_entry (titles_of (swipeSelectedMovies st)) e) as Hfresh.
  { destruct Hcase as [(H & _)|H]; [by eapply Hall|done]. }
  split.
  - intros p e'. destruct (decide (p = person)) as [->|Hne].
    + rewrite He. by intros [= <-].
    + rewrite Hother by done. apply Hall.
  - intros _. rewrite Hidx. destruct Hfresh as (-> & _). lia.
Qed.

(** ** Editing and restarting a session *)

Lemma core_fields_eq st st' :
  core_fields st' = core_fields st ->
  swipeSelectedMovies st' = swipeSelectedMovies st /\ swipeLikes st' = swipeLikes st /\
  swipeMatches st' = swipeMatches st /\ swipePersonCount st' = swipePersonCount st /\
  swipePersons st' = swipePersons st /\ swipeLocked st' = swipeLocked st.
Proof. unfold core_fields. by intros [= _ -> -> -> -> -> ->]. Qed.




(** X16. Removing a title takes it out of the list (every movie of that
    title, the others keep their order), drops its like set and takes it out
    of the match set, leaves the votes on the other titles, the persons and
    the lock alone, and restarts the progress of every person over the
    remaining titles: cursor 0, not done, a permutation of the titles. *)
Theorem removeSwipeMovie_removes (t : string) (st : swipe_state) (r : rng) :
  let st' := (removeSwipeMovie t st r).1 in
  swipeSelectedMovies st' = filter (fun m => title m <> t) (swipeSelectedMovies st) /\
  (t ∉ titles_of (swipeSelectedMovies st')) /\
  swipeLikes st' !! t = None /\
  (forall t', t' <> t -> swipeLikes st' !! t' = swipeLikes st !! t') /\
  (t ∉ swipeMatches st') /\
  (forall t', t' <> t -> (t' ∈ swipeMatches st' <-> t' ∈ swipeMatches st)) /\
  swipePersons st' = swipePersons st /\ swipeLocked st' = swipeLocked st /\
  progress_ok st' /\
  (forall p e, swipeProgress st' !! p = Some e ->
     fresh_entry (titles_of (swipeSelectedMovies st')) e) /\
  swipeCurrentIndex st' = 0.
Proof.
  intros st'. unfold st', removeSwipeMovie. clear st'.
  set (st0 := set_swipeMatches _ _).
  destruct (resetSwipeProgressAll_fields st0 r) as (_ & Hcore & _).
  apply core_fields_eq in Hcore as (Hms & Hlikes & Hmatches & _ & Hps & Hlocked).
  destruct (resetSwipeProgressAll_spec st0 r) as (Hfresh & e & _ & _ & Hidx & _).
  rewrite Hms, Hlikes, Hmatches, Hps, Hlocked, Hidx.
  split; [done|]. split.
  { unfold titles_of. intros Hin. apply list_elem_of_fmap in Hin as (m & Hm & Hin).
    apply list_elem_of_filter in Hin as [Hne _]. by apply Hne. }
  split; [apply lookup_delete_eq|].
  split; [intros t' Hne; by apply lookup_delete_ne|].
  split. { intros Hin. by apply list_elem_of_filter in Hin as [Hne _]. }
  split. { intros t' Hne. simpl. rewrite list_elem_of_filter. tauto. }
  split; [done|]. split; [done|].
  split; [apply resetSwipeProgressAll_ok|]. done.
Qed.

(** X17. Confirming the setup starts the session afresh: likes and
    matches are emptied, the session is locked, the list and the persons
    stay, every progress entry is new (cursor 0, not done, a permutation of
    the titles) and the cursor on screen is 0.  The notification state, with
    the set of titles already announced, is kept. *)
Theorem confirmSwipeSetup_starts_afresh (st : swipe_state) (r : rng) :
  let st' := (confirmSwipeSetup st r).1 in
  swipeLikes st' = ∅ /\ swipeMatches st' = [] /\ swipeLocked st' = true /\
  swipeSelectedMovies st' = swipeSelectedMovies st /\
  swipePersons st' = swipePersons st /\
  swipePersonCount st' = swipePersonCount st /\
  queue_fields st' = queue_fields st /\
  progress_ok st' /\
  (forall p e, swipeProgress st' !! p = Some e ->
     fresh_entry (titles_of (swipeSelectedMovies st)) e) /\
  swipeCurrentIndex st' = 0.
Proof.
  intros st'. unfold st', confirmSwipeSetup. clear st'.
  set (st0 := set_swipeMatches [] (set_swipeLikes ∅ st)).
  pose proof (resetSwipeProgressAll_fields st0 r) as (Hq1 & Hcore1 & _).
  pose proof (resetSwipeProgressAll_spec st0 r) as (Hfresh1 & e & _ & _ & Hidx1 & _).
  pose proof (resetSwipeProgressAll_ok st0 r) as Hok1.
  destruct (resetSwipeProgressAll st0 r) as [st1 r1]. simpl in *.
  pose proof (applySwipeProgress_fields (swipeCurrentPerson st1) st1 r1) as (Hq2 & Hcore2 & _).
  pose proof (applySwipeProgress_ok (swipeCurrentPerson st1) st1 r1 Hok1) as Hok2.
  apply core_fields_eq in Hcore1 as (Hms1 & Hl1 & Hm1 & Hc1 & Hp1 & _).
  destruct (applySwipeProgress_keeps_fresh (swipeCurrentPerson st1) st1 r1)
    as [Hfresh2 Hidx2]; [by rewrite Hms1|].
  destruct (applySwipeProgress (swipeCurrentPerson st1) st1 r1) as [st2 r2]. simpl in *.
  apply core_fields_eq in Hcore2 as (Hms2 & Hl2 & Hm2 & Hc2 & Hp2 & _).
  rewrite Hl2, Hl1, Hm2, Hm1, Hms2, Hms1, Hp2, Hp1, Hc2, Hc1.
  do 6 (split; [done|]).
  split. { unfold queue_fields in *. simpl. by rewrite Hq2, Hq1. }
  split; [done|]. split.
  - intros p e' He'. rewrite <- Hms1 at 1. by eapply Hfresh2.
  - by apply Hidx2.
Qed.

(** X18. Clearing the list empties list, likes, matches and deck, opens
    the lock and leaves every person with the empty progress entry; the
    session counts as completed.  The persons and the notification state
    are kept. *)
Theorem performClearSwipeList_empties (st : swipe_state) (r : rng) :
  let st' := (performClearSwipeList st r).1 in
  swipeSelectedMovies st' = [] /\ swipeLikes st' = ∅ /\ swipeMatches st' = [] /\
  swipeLocked st' = false /\ swipeOrder st' = [] /\
  swipeCurrentIndex st' = 0 /\ swipeCompleted st' = true /\
  (forall p, p ∈ swipePersons st' -> swipeProgress st' !! p = Some (Progress 0 false [])) /\
  swipePersons st' = swipePersons st /\
  queue_fields st' = queue_fields st /\
  (performClearSwipeList st r).2 = r.
Proof.
  intros st'. unfold st', performClearSwipeList. clear st'.
  set (st0 := set_swipeLocked false _).
  pose proof (resetSwipeProgressAll_fields st0 r) as (Hq & Hcore & _).
  pose proof (resetSwipeProgressAll_spec st0 r) as (Hfresh & e & He & Hord & Hidx & Hdone).
  pose proof (resetSwipeProgressAll_ok st0 r) as Hok.
  apply core_fields_eq in Hcore as (Hms & Hl & Hm & _ & Hp & Hlocked).
  assert (forall e', fresh_entry [] e' -> e' = Progress 0 false []) as Hnil.
  { intros [i d o] (Hi & Hd & Ho). simpl in *. subst.
    by apply Permutation_nil_r in Ho as ->. }
  assert (swipeOrder (resetSwipeProgressAll st0 r).1 = []) as Hord'.
  { rewrite Hord, (Hnil e He). done. }
  rewrite Hms, Hl, Hm, Hlocked, Hidx, Hdone, Hord', Hp.
  do 7 (split; [done|]).
  split.
  { intros p Hin. destruct (Hok p) as (e' & He' & _); [by rewrite Hp|].
    rewrite He'. f_equal. apply Hnil. by apply (Hfresh p). }
  split; [done|]. split; [done|].
  (* no draw is used: an empty list is shuffled without one *)
  unfold resetSwipeProgressAll.
  assert (forall ps (acc : gmap string progress * rng),
            (foldl (fun acc p =>
                      let '(o, r') := randomOrderTitles st0 acc.2 in
                      (<[p := Progress 0 false o]> acc.1, r')) acc ps).2 = acc.2) as Hdraw.
  { induction ps as [|x ps IH]; intros acc; simpl; [done|]. by rewrite IH. }
  unfold resetProgressEntries.
  specialize (Hdraw (swipePersons st0) (∅, r)).
  destruct (foldl _ (∅, r) (swipePersons st0)) as [pr r1]. simpl in Hdraw. subst r1.
  by destruct (pr !! swipeCurrentPerson st0).
Qed.

Lemma swipe_person_name_inj i j : swipe_person_name i = swipe_person_name j -> i = j.
Proof.
  unfold swipe_person_name. intros H.
  apply (inj (String.app "p")) in H. apply (inj pretty) in H. lia.
Qed.

(** X19. Setting the number of persons clamps it to 2..5, names the persons
    p1 .. pN, all different, makes p1 the current person and restarts the
    progress of every person; the list, the likes, the matches and the lock
    are kept as they are. *)
Theorem setSwipePersons_clamps (n : Z) (st : swipe_state) (r : rng) :
  let st' := (setSwipePersons n st r).1 in
  Z.of_nat (swipePersonCount st') = Z.max 2 (Z.min 5 n) /\
  (2 <= swipePersonCount st' <= 5)%nat /\
  swipePersons st' = swipe_person_name <$> seq 0 (swipePersonCount st') /\
  length (swipePersons st') = swipePersonCount st' /\
  NoDup (swipePersons st') /\
  swipeCurrentPerson st' = "p1" /\
  swipeSelectedMovies st' = swipeSelectedMovies st /\
  swipeLikes st' = swipeLikes st /\ swipeMatches st' = swipeMatches st /\
  swipeLocked st' = swipeLocked st /\
  progress_ok st' /\
  (forall p e, swipeProgress st' !! p = Some e ->
     fresh_entry (titles_of (swipeSelectedMovies st)) e) /\
  swipeCurrentIndex st' = 0.
Proof.
  intros st'. unfold st', setSwipePersons. clear st'.
  set (count := Z.to_nat (Z.max 2 (Z.min 5 n))).
  set (ps := swipe_person_name <$> seq 0 count).
  set (st0 := set_swipeCurrentPerson _ _).
  assert (default "" (head ps) = "p1") as Hhead.
  { unfold ps. destruct count as [|c] eqn:Hc; [unfold count in Hc; lia|]. reflexivity. }
  pose proof (resetSwipeProgressAll_fields st0 r) as (_ & Hcore1 & Hcur1).
  pose proof (resetSwipeProgressAll_spec st0 r) as (Hfresh1 & e & _ & _ & Hidx1 & _).
  pose proof (resetSwipeProgressAll_ok st0 r) as Hok1.
  destruct (resetSwipeProgressAll st0 r) as [st1 r1]. simpl in *.
  pose proof (applySwipeProgress_fields (swipeCurrentPerson st1) st1 r1) as (_ & Hcore2 & Hcur2).
  pose proof (applySwipeProgress_ok (swipeCurrentPerson st1) st1 r1 Hok1) as Hok2.
  apply core_fields_eq in Hcore1 as (Hms1 & Hl1 & Hm1 & Hc1 & Hp1 & Hk1).
  destruct (applySwipeProgress_keeps_fresh (swipeCurrentPerson st1) st1 r1)
    as [Hfresh2 Hidx2]; [by rewrite Hms1|].
  destruct (applySwipeProgress (swipeCurrentPerson st1) st1 r1) as [st2 r2]. simpl in *.
  apply core_fields_eq in Hcore2 as (Hms2 & Hl2 & Hm2 & Hc2 & Hp2 & Hk2).
  rewrite Hl2, Hl1, Hm2, Hm1, Hms2, Hms1, Hp2, Hp1, Hc2, Hc1, Hk2, Hk1, Hcur2, Hcur1.
  unfold st0. simpl. rewrite Hhead. fold ps.
  split; [unfold count; lia|]. split; [unfold count; lia|].
  split; [done|]. split; [unfold ps; by rewrite length_fmap, length_seq|].
  split.
  { apply NoDup_fmap_2_strong; [|apply NoDup_seq].
    intros i j _ _. apply swipe_person_name_inj. }
  do 5 (split; [done|]).
  split; [done|]. split.
  - intros p e' He'. rewrite <- Hms1 at 1. by eapply Hfresh2.
  - by apply Hidx2.
Qed.

(** ** Votes *)

Lemma recordSwipeLike_core m person st :
  let likes1 := if includes (likeSet st m) person
                then likeSet st m else likeSet st m ++ [person] in
  swipeLikes (recordSwipeLike m person st) = <[m := likes1]> (swipeLikes st) /\
  swipeMatches (recordSwipeLike m person st) =
    (if (swipePersonCount st <=? length likes1)%nat
     then set_add m (swipeMatches st) else swipeMatches st) /\
  swipePersonCount (recordSwipeLike m person st) = swipePersonCount st.
Proof.
  intros likes1. rewrite recordSwipeLike_unfold. cbv zeta. fold likes1.
  destruct (swipePersonCount st <=? length likes1)%nat; [|done].
  match goal with
  | |- context [enqueueMatchModal m ?s] =>
      destruct (enqueueMatchModal_fields m s) as [Hc _]
  end.
  apply core_fields_eq in Hc as (_ & -> & -> & -> & _). done.
Qed.

Lemma filter_ne_snoc (l : list string) (p : string) :
  filter (fun q => q <> p) (l ++ [p]) = filter (fun q => q <> p) l.
Proof.
  rewrite filter_app, filter_cons_False by (intros H; by apply H).
  by rewrite filter_nil, app_nil_r.
Qed.

Lemma filter_ne_absent (l : list string) (p : string) :
  p ∉ l -> filter (fun q => q <> p) l = l.
Proof.
  induction l as [|x l IH]; intros Hp; [done|].
  apply not_elem_of_cons in Hp as [Hne Hp].
  rewrite filter_cons_True by (intros ->; by apply Hne). by rewrite IH.
Qed.

(** X20. How votes compose.  A dislike after a like of the same person
    leaves the like set of the title as it was without that person, so as it
    was if the person had not liked the title; it does not withdraw a match
    that the like has made.  A like repeated changes neither the likes nor
    the matches; a like keeps a like set free of repetitions. *)
Theorem like_dislike_compose (m p : string) (st : swipe_state) :
  let liked := recordSwipeLike m p st in
  likeSet (recordSwipeDislike m p liked) m = filter (fun q => q <> p) (likeSet st m) /\
  ((p ∉ likeSet st m) -> likeSet (recordSwipeDislike m p liked) m = likeSet st m) /\
  swipeMatches (recordSwipeDislike m p liked) = swipeMatches liked /\
  (forall t, t ∈ swipeMatches st -> t ∈ swipeMatches (recordSwipeDislike m p liked)) /\
  swipeLikes (recordSwipeLike m p liked) = swipeLikes liked /\
  swipeMatches (recordSwipeLike m p liked) = swipeMatches liked /\
  (NoDup (likeSet st m) -> NoDup (likeSet liked m)).
Proof.
  intros liked.
  destruct (recordSwipeLike_core m p st) as (Hlikes & Hmatches & Hcount).
  fold liked in Hlikes, Hmatches, Hcount.
  set (likes1 := if includes (likeSet st m) p
                 then likeSet st m else likeSet st m ++ [p]) in *.
  assert (likeSet liked m = likes1) as Hset.
  { unfold likeSet at 1. by rewrite Hlikes, lookup_insert_eq. }
  assert (p ∈ likes1) as Hin.
  { unfold likes1. destruct (includes (likeSet st m) p) eqn:Hinc.
    - by apply includes_true.
    - apply elem_of_app. right. apply list_elem_of_here. }
  assert (likeSet (recordSwipeDislike m p liked) m = filter (fun q => q <> p) (likeSet st m))
    as Hdis.
  { unfold recordSwipeDislike, likeSet at 1. rewrite Hlikes, lookup_insert_eq. simpl.
    rewrite lookup_insert_eq. simpl. unfold likes1.
    destruct (includes (likeSet st m) p); [done|]. apply filter_ne_snoc. }
  split; [done|]. split.
  { intros Hp. rewrite Hdis. by apply filter_ne_absent. }
  assert (swipeMatches (recordSwipeDislike m p liked) = swipeMatches liked) as Hkeep.
  { by destruct (recordSwipeDislike_fields m p liked) as (_ & _ & _ & _ & _ & _ & ->). }
  split; [done|]. split.
  { intros t Ht. rewrite Hkeep, Hmatches.
    destruct (swipePersonCount st <=? length likes1)%nat; [|done].
    apply set_add_elem. by right. }
  destruct (recordSwipeLike_core m p liked) as (Hlikes2 & Hmatches2 & _).
  rewrite Hset in Hlikes2, Hmatches2.
  rewrite (proj2 (includes_true likes1 p) Hin) in Hlikes2, Hmatches2.
  split. { rewrite Hlikes2, Hlikes. apply insert_insert_eq. }
  split.
  { rewrite Hmatches2, Hcount, Hmatches.
    destruct (swipePersonCount st <=? length likes1)%nat; [|done].
    unfold set_add at 1.
    rewrite (proj2 (includes_true _ m)); [done|]. apply set_add_elem. by left. }
  intros Hnd. rewrite Hset. unfold likes1.
  destruct (includes (likeSet st m) p) eqn:Hinc; [done|].
  apply includes_false in Hinc. apply NoDup_app. split; [done|]. split.
  - intros x Hx. rewrite list_elem_of_singleton. by intros ->.
  - apply NoDup_singleton.
Qed.

(** ** Deciding without the server *)

Lemma saveSwipeProgress_entry person st r :
  person <> "" ->
  swipeProgress (saveSwipeProgress person st r).1 =
    <[person := Progress (Z.min (swipeCurrentIndex st) (Z.of_nat (length (swipeOrder st))))
                  (swipeCompleted st) (title <$> swipeOrder st)]> (swipeProgress st).
Proof.
  intros Hp. unfold saveSwipeProgress.
  rewrite (proj2 (String.eqb_neq person "") Hp). simpl. by rewrite length_fmap.
Qed.

Lemma swipeDecisionOffline_vote_view (like : bool) (t person : string) (st : swipe_state) :
  let st1 := if like then recordSwipeLike t person st else recordSwipeDislike t person st in
  view_fields st1 = view_fields st /\
  swipeSelectedMovies st1 = swipeSelectedMovies st /\
  swipePersons st1 = swipePersons st /\ swipeLocked st1 = swipeLocked st.
Proof.
  destruct like; simpl.
  - destruct (recordSwipeLike_fields t person st) as (-> & -> & -> & _ & ->). done.
  - destruct (recordSwipeDislike_fields t person st) as (-> & _ & -> & -> & _ & -> & _).
    done.
Qed.

Lemma swipeDecisionOffline_step (like : bool) (t person : string) (st : swipe_state) (r : rng) :
  person <> "" ->
  let st' := (swipeDecisionOffline like t person st r).1 in
  let len := Z.of_nat (length (swipeOrder st)) in
  swipeOrder st' = swipeOrder st /\
  swipeCurrentIndex st' = Z.min (swipeCurrentIndex st + 1) len /\
  swipeCompleted st' = (len <=? swipeCurrentIndex st') /\
  swipeProgress st' =
    <[person := Progress (swipeCurrentIndex st') (swipeCompleted st')
                  (title <$> swipeOrder st)]> (swipeProgress st) /\
  swipeLikes st' =
    swipeLikes (if like then recordSwipeLike t person st
                else recordSwipeDislike t person st) /\
  swipeMatches st' =
    swipeMatches (if like then recordSwipeLike t person st
                  else recordSwipeDislike t person st) /\
  swipeSelectedMovies st' = swipeSelectedMovies st /\
  swipePersons st' = swipePersons st /\ swipeLocked st' = swipeLocked st.
Proof.
  intros Hp st' len. unfold st', swipeDecisionOffline. clear st'.
  destruct (swipeDecisionOffline_vote_view like t person st) as (Hv & Hms & Hps & Hl).
  set (st1 := if like then recordSwipeLike t person st else recordSwipeDislike t person st)
    in *.
  unfold view_fields in Hv. injection Hv as _ Hidx Hord Hdone Hpr.
  set (st2 := set_swipeCompleted _ _).
  destruct (saveSwipeProgress_fields person st2 r) as (_ & Hc & _ & Hi & Ho & Hd).
  apply core_fields_eq in Hc as (Hc1 & Hc2 & Hc3 & _ & Hc5 & Hc6).
  rewrite (saveSwipeProgress_entry person st2 r Hp).
  rewrite Hi, Ho, Hd, Hc1, Hc2, Hc3, Hc5, Hc6.
  unfold st2. simpl. rewrite Hord, Hidx, Hpr, Hms, Hps, Hl. fold len.
  repeat split; try done.
  f_equal. f_equal. lia.
Qed.

(** X21. A decision taken while the server cannot be reached records the
    vote locally, moves the cursor of the deck one step on, never past the
    end, marks the deck completed exactly when the cursor has reached the
    end, and saves cursor, completion and order as the progress of the
    deciding person; the deck, the list, the persons, the lock and the
    progress of the other persons stay.  After k such decisions the cursor
    has advanced by k, capped at the end. *)
Theorem swipeDecisionOffline_advances (like : bool) (t person : string)
    (st : swipe_state) (r : rng) :
  person <> "" ->
  let st' := (swipeDecisionOffline like t person st r).1 in
  let len := Z.of_nat (length (swipeOrder st)) in
  swipeOrder st' = swipeOrder st /\
  swipeCurrentIndex st' = Z.min (swipeCurrentIndex st + 1) len /\
  swipeCompleted st' = (len <=? swipeCurrentIndex st') /\
  swipeProgress st' !! person =
    Some (Progress (swipeCurrentIndex st') (swipeCompleted st') (title <$> swipeOrder st)) /\
  (forall q, q <> person -> swipeProgress st' !! q = swipeProgress st !! q) /\
  swipeLikes st' =
    swipeLikes (if like then recordSwipeLike t person st
                else recordSwipeDislike t person st) /\
  swipeSelectedMovies st' = swipeSelectedMovies st /\
  swipePersons st' = swipePersons st /\ swipeLocked st' = swipeLocked st /\
  (forall (ds : list (bool * string)) (d : bool * string),
     let final := foldl (fun c d => swipeDecisionOffline d.1 d.2 person c.1 c.2)
                        (st, r) (d :: ds) in
     swipeCurrentIndex final.1 =
       Z.min (swipeCurrentIndex st + Z.of_nat (length (d :: ds))) len /\
     swipeCompleted final.1 = (len <=? swipeCurrentIndex final.1)).
Proof.
  intros Hp st' len.
  destruct (swipeDecisionOffline_step like t person st r Hp)
    as (Ho & Hi & Hd & Hpr & Hl & _ & Hms & Hps & Hlk).
  fold st' in Ho, Hi, Hd, Hpr, Hl, Hms, Hps, Hlk. fold len in Hi, Hd.
  do 3 (split; [done|]).
  split; [by rewrite Hpr, lookup_insert_eq|].
  split; [intros q Hq; by rewrite Hpr, lookup_insert_ne|].
  do 4 (split; [done|]).
  clear -Hp. intros ds. revert st r len.
  induction ds as [|d' ds IH]; intros st r len d final.
  - unfold final. cbn [foldl fst snd].
    destruct (swipeDecisionOffline_step d.1 d.2 person st r Hp) as (_ & Hi & Hd & _).
    fold len in Hi, Hd. rewrite Hd, Hi. split; [f_equal; lia|done].
  - unfold final. cbn [foldl fst snd].
    destruct (swipeDecisionOffline_step d.1 d.2 person st r Hp) as (Ho & Hi & _).
    fold len in Hi.
    destruct (swipeDecisionOffline d.1 d.2 person st r) as [st1 r1] eqn:Hstep.
    simpl in Ho, Hi.
    specialize (IH st1 r1 d'). cbv zeta in IH. rewrite Ho in IH. fold len in IH.
    destruct IH as [IH1 IH2]. split; [|exact IH2].
    etrans; [exact IH1|]. rewrite Hi. simpl length. lia.
Qed.

Lemma swipeDecisionOffline_advances_witness :
  swipeCurrentIndex (swipeDecisionOffline true "X" "p2" state_modal_open draws_fixed).1
  = Z.min (swipeCurrentIndex state_modal_open + 1)
          (Z.of_nat (length (swipeOrder state_modal_open))).
Proof.
  assert ("p2" <> "") as Hp by discriminate.
  pose proof (swipeDecisionOffline_advances true "X" "p2" state_modal_open draws_fixed Hp)
    as W.
  cbv zeta in W. destruct W as (_ & Hi & _). exact Hi.
Defined.

(** ** Switching the person *)

Lemma applySwipeProgress_entry person st r e :
  person <> "" -> swipeProgress st !! person = Some e -> order e <> [] ->
  let st' := (applySwipeProgress person st r).1 in
  let len := Z.of_nat (length (titlesToMovieOrder st (order e))) in
  (applySwipeProgress person st r).2 = r /\
  swipeProgress st' = swipeProgress st /\
  swipeOrder st' = titlesToMovieOrder st (order e) /\
  swipeCurrentIndex st' = Z.min (idx e) len /\
  swipeCompleted st' = done e || (len =? 0) || (len <=? Z.min (idx e) len).
Proof.
  intros Hp He Ho. unfold applySwipeProgress.
  rewrite (proj2 (String.eqb_neq person "") Hp), He.
  destruct (length (order e) =? 0)%nat eqn:Hlen; [|done].
  apply Nat.eqb_eq in Hlen. by destruct (order e).
Qed.

Lemma titlesToMovieOrder_idem st ts :
  titlesToMovieOrder st (title <$> titlesToMovieOrder st ts) = titlesToMovieOrder st ts.
Proof.
  unfold titlesToMovieOrder. induction ts as [|t ts IH]; [done|].
  simpl. destruct (String.eqb_spec t "") as [->|Ht].
  - unfold getSwipeMovieByTitle at 2. simpl. exact IH.
  - destruct (getSwipeMovieByTitle_title st t Ht) as (m & Hm & Htitle).
    rewrite Hm. simpl. rewrite Htitle, Hm. simpl. f_equal. exact IH.
Qed.

(** The deck that a click on the button of [p] puts on screen, read from
    the entry that [p] holds once the view of the person before is saved. *)
Lemma selectSwipePerson_view p st r e :
  p <> "" ->
  swipeProgress (saveSwipeProgress (swipeCurrentPerson st) st r).1 !! p = Some e ->
  order e <> [] ->
  let st' := (selectSwipePerson p st r).1 in
  let len := Z.of_nat (length (titlesToMovieOrder st (order e))) in
  swipeCurrentPerson st' = p /\
  swipeSelectedMovies st' = swipeSelectedMovies st /\
  swipeProgress st' = swipeProgress (saveSwipeProgress (swipeCurrentPerson st) st r).1 /\
  swipeOrder st' = titlesToMovieOrder st (order e) /\
  swipeCurrentIndex st' = Z.min (idx e) len /\
  swipeCompleted st' = done e || (len =? 0) || (len <=? Z.min (idx e) len).
Proof.
  intros Hp He Ho. unfold selectSwipePerson.
  destruct (saveSwipeProgress_fields (swipeCurrentPerson st) st r) as (_ & Hc & _).
  apply core_fields_eq in Hc as (Hms & _).
  destruct (saveSwipeProgress (swipeCurrentPerson st) st r) as [st1 r1]. simpl in He, Hms.
  destruct (applySwipeProgress_entry p (set_swipeCurrentPerson p st1) r1 e Hp He Ho)
    as (_ & Hpr & Hord & Hidx & Hdone).
  destruct (applySwipeProgress_fields p (set_swipeCurrentPerson p st1) r1) as (_ & Hc & Hcur).
  apply core_fields_eq in Hc as (Hms2 & _).
  rewrite (titlesToMovieOrder_ext st (set_swipeCurrentPerson p st1)) in Hord, Hidx, Hdone
    by done.
  simpl. rewrite Hcur, Hms2, Hpr, Hord, Hidx, Hdone. done.
Qed.

(** X22. Switching to another person and back brings the deck back: the
    person who was on screen finds the same order and the same cursor
    (capped at the end of the deck), provided the deck was not empty and
    consists of the movie objects of the list. *)
Theorem selectSwipePerson_and_back (q : string) (st : swipe_state) (r : rng) :
  swipeCurrentPerson st <> "" ->
  swipeOrder st <> [] ->
  titlesToMovieOrder st (title <$> swipeOrder st) = swipeOrder st ->
  let c1 := selectSwipePerson q st r in
  let c2 := selectSwipePerson (swipeCurrentPerson st) c1.1 c1.2 in
  let len := Z.of_nat (length (swipeOrder st)) in
  swipeCurrentPerson c2.1 = swipeCurrentPerson st /\
  swipeSelectedMovies c2.1 = swipeSelectedMovies st /\
  swipeOrder c2.1 = swipeOrder st /\
  swipeCurrentIndex c2.1 = Z.min (swipeCurrentIndex st) len /\
  swipeCompleted c2.1 = swipeCompleted st || (len <=? swipeCurrentIndex c2.1).
Proof.
  intros Hp Hord Hdeck c1 c2 len.
  set (p := swipeCurrentPerson st) in *.
  assert (title <$> swipeOrder st <> []) as Htitles.
  { intros H. apply fmap_nil_inv in H. done. }
  assert ((len =? 0) = false) as Hlen0.
  { apply Z.eqb_neq. unfold len. destruct (swipeOrder st); [done|]. simpl. lia. }
  assert (swipeProgress (saveSwipeProgress p st r).1 !! p =
            Some (Progress (Z.min (swipeCurrentIndex st) len) (swipeCompleted st)
                    (title <$> swipeOrder st))) as Hsaved.
  { rewrite saveSwipeProgress_entry by done. by rewrite lookup_insert_eq. }
  destruct (decide (q = p)) as [Hq|Hq].
  - (* the own button *)
    subst c2 c1. rewrite Hq.
    destruct (selectSwipePerson_view p st r _ Hp Hsaved Htitles)
      as (Hcur1 & Hms1 & _ & Hord1 & Hidx1 & Hdone1).
    simpl in Hord1, Hidx1, Hdone1. rewrite Hdeck in Hord1, Hidx1, Hdone1.
    fold len in Hidx1, Hdone1.
    destruct (selectSwipePerson p st r) as [st1 r1]. simpl in *.
    assert (swipeProgress (saveSwipeProgress (swipeCurrentPerson st1) st1 r1).1 !! p =
              Some (Progress (Z.min (swipeCurrentIndex st1) len) (swipeCompleted st1)
                      (title <$> swipeOrder st))) as Hsaved1.
    { rewrite Hcur1, saveSwipeProgress_entry by done.
      by rewrite lookup_insert_eq, Hord1. }
    destruct (selectSwipePerson_view p st1 r1 _ Hp Hsaved1 Htitles)
      as (Hcur2 & Hms2 & _ & Hord2 & Hidx2 & Hdone2).
    simpl in Hord2, Hidx2, Hdone2.
    rewrite (titlesToMovieOrder_ext st st1) in Hord2, Hidx2, Hdone2 by done.
    rewrite Hdeck in Hord2, Hidx2, Hdone2. fold len in Hidx2, Hdone2.
    rewrite Hcur2, Hms2, Hms1, Hord2, Hidx2, Hdone2, Hdone1, Hidx1, Hlen0.
    repeat split; try done; [lia|].
    replace (Z.min (Z.min (Z.min (swipeCurrentIndex st) len) len) len)
      with (Z.min (swipeCurrentIndex st) len) by lia.
    replace (Z.min (Z.min (swipeCurrentIndex st) len) len)
      with (Z.min (swipeCurrentIndex st) len) by lia.
    rewrite !orb_false_r. by rewrite <- orb_assoc, orb_diag.
  - (* the button of another person *)
    subst c2 c1.
    assert (swipeCurrentPerson (selectSwipePerson q st r).1 = q /\
            swipeSelectedMovies (selectSwipePerson q st r).1 = swipeSelectedMovies st /\
            swipeProgress (selectSwipePerson q st r).1 !! p =
              Some (Progress (Z.min (swipeCurrentIndex st) len) (swipeCompleted st)
                      (title <$> swipeOrder st))) as (Hcur1 & Hms1 & Hpr1).
    { unfold selectSwipePerson. fold p.
      destruct (saveSwipeProgress_fields p st r) as (_ & Hc & _).
      apply core_fields_eq in Hc as (Hms & _).
      destruct (saveSwipeProgress p st r) as [sta ra]. simpl in Hsaved, Hms.
      destruct (applySwipeProgress_fields q (set_swipeCurrentPerson q sta) ra)
        as (_ & Hc & Hcur).
      apply core_fields_eq in Hc as (Hms2 & _).
      rewrite Hcur, Hms2. simpl. split; [done|]. split; [done|].
      destruct (String.eqb_spec q "") as [Hq0|Hq0].
      + unfold applySwipeProgress. rewrite Hq0. simpl. done.
      + destruct (applySwipeProgress_spec q (set_swipeCurrentPerson q sta) ra Hq0)
          as (e & _ & Hother & _).
        rewrite Hother by done. done. }
    destruct (selectSwipePerson q st r) as [st1 r1]. simpl in *.
    assert (swipeProgress (saveSwipeProgress (swipeCurrentPerson st1) st1 r1).1 !! p =
              Some (Progress (Z.min (swipeCurrentIndex st) len) (swipeCompleted st)
                      (title <$> swipeOrder st))) as Hsaved1.
    { rewrite Hcur1. destruct (String.eqb_spec q "") as [Hq0|Hq0].
      - unfold saveSwipeProgress. rewrite Hq0. simpl. done.
      - rewrite saveSwipeProgress_entry by done. by rewrite lookup_insert_ne. }
    destruct (selectSwipePerson_view p st1 r1 _ Hp Hsaved1 Htitles)
      as (Hcur2 & Hms2 & _ & Hord2 & Hidx2 & Hdone2).
    simpl in Hord2, Hidx2, Hdone2.
    rewrite (titlesToMovieOrder_ext st st1) in Hord2, Hidx2, Hdone2 by done.
    rewrite Hdeck in Hord2, Hidx2, Hdone2. fold len in Hidx2, Hdone2.
    rewrite Hcur2, Hms2, Hms1, Hord2, Hidx2, Hdone2, Hlen0.
    repeat split; try done; [lia|].
    by rewrite orb_false_r.
Qed.

Lemma selectSwipePerson_and_back_witness :
  swipeOrder
    (selectSwipePerson (swipeCurrentPerson state_locked)
       (selectSwipePerson "p2" state_locked draws_fixed).1
       (selectSwipePerson "p2" state_locked draws_fixed).2).1
  = swipeOrder state_locked.
Proof.
  assert (swipeCurrentPerson state_locked <> "") as H1 by (vm_compute; discriminate).
  assert (swipeOrder state_locked <> []) as H2 by (vm_compute; discriminate).
  assert (titlesToMovieOrder state_locked (title <$> swipeOrder state_locked)
          = swipeOrder state_locked) as H3 by (vm_compute; reflexivity).
  pose proof (selectSwipePerson_and_back "p2" state_locked draws_fixed H1 H2 H3) as W.
  cbv zeta in W. destruct W as (_ & _ & Ho & _). exact Ho.
Defined.

(** ** Storing and loading the session *)

Lemma filter_all {A} (P : A -> Prop) `{forall x, Decision (P x)} (l : list A) :
  (forall x, x ∈ l -> P x) -> filter P l = l.
Proof.
  induction l as [|x l IH]; intros Hall; [done|].
  rewrite filter_cons_True by (apply Hall, list_elem_of_here).
  rewrite IH; [done|]. intros y Hy. apply Hall. by right.
Qed.

Lemma filter_none {A} (P : A -> Prop) `{forall x, Decision (P x)} (l : list A) :
  (forall x, x ∈ l -> ~ P x) -> filter P l = [].
Proof.
  induction l as [|x l IH]; intros Hall; [done|].
  rewrite filter_cons_False by (apply Hall, list_elem_of_here).
  apply IH. intros y Hy. apply Hall. by right.
Qed.

Lemma confirmSwipeSetup_progress_ok st r : progress_ok (confirmSwipeSetup st r).1.
Proof.
  unfold confirmSwipeSetup.
  pose proof (resetSwipeProgressAll_ok (set_swipeMatches [] (set_swipeLikes ∅ st)) r) as H1.
  destruct (resetSwipeProgressAll _ r) as [st1 r1].
  pose proof (applySwipeProgress_ok (swipeCurrentPerson st1) st1 r1 H1) as H2.
  by destruct (applySwipeProgress _ st1 r1) as [st2 r2].
Qed.

(** A well-formed progress entry, stored and normalised against the same
    titles, comes back with its order and cursor; no draw is used. *)
Lemma normalizeProgressEntry_stored st titles e r :
  entry_ok titles e -> titles <> [] ->
  normalizeProgressEntry st titles (Some (stored_progress e)) r =
    (Progress (idx e) (done e || (Z.of_nat (length (order e)) <=? idx e)) (order e), r).
Proof.
  intros [Hperm Hidx] Hne.
  assert (filter (fun t => includes titles t = true) (order e) = order e) as Hkept.
  { apply filter_all. intros x Hx. apply includes_true. by rewrite <- Hperm. }
  assert (filter (fun t => includes (order e) t = false) titles = []) as Hmiss.
  { apply filter_none. intros x Hx Hf. apply includes_false in Hf.
    apply Hf. by rewrite Hperm. }
  assert (order e <> []) as Hoe.
  { intros Hnil. rewrite Hnil in Hperm. by apply Permutation_nil_l in Hperm. }
  unfold normalizeProgressEntry.
  change (Some (stored_progress e) ≫= p_order) with (Some (order e)).
  change (Some (stored_progress e) ≫= p_idx) with (Some (idx e)).
  change (p_done <$> Some (stored_progress e)) with (Some (done e)).
  cbv beta iota zeta. rewrite Hkept, Hmiss. cbv beta iota zeta.
  destruct (order e) as [|x o] eqn:Ho; [done|].
  cbn [default]. unfold clamp, id. f_equal.
  replace (Z.max 0 (Z.min (Z.of_nat (length (x :: o))) (idx e))) with (idx e) by lia.
  done.
Qed.

Lemma normalizeSwipeProgress_stored_fold st0 (pr : gmap string progress) titles ps
    (acc : gmap string progress * rng) :
  titles <> [] ->
  (forall p, p ∈ ps -> exists e, pr !! p = Some e /\ entry_ok titles e) ->
  let res := foldl (fun acc p =>
               let '(e, r') :=
                 normalizeProgressEntry st0 titles ((stored_progress <$> pr) !! p) acc.2 in
               (<[p := e]> acc.1, r')) acc ps in
  res.2 = acc.2 /\
  (forall p, p ∈ ps -> exists e, pr !! p = Some e /\
     res.1 !! p =
       Some (Progress (idx e) (done e || (Z.of_nat (length (order e)) <=? idx e)) (order e))) /\
  (forall p, p ∉ ps -> res.1 !! p = acc.1 !! p).
Proof.
  intros Hne. revert acc. induction ps as [|q ps IH]; intros acc Hps res.
  - split; [done|]. split; [|done]. intros p Hp. by apply elem_of_nil in Hp.
  - subst res. cbn [foldl].
    destruct (Hps q) as (eq & Heq & Hok); [apply list_elem_of_here|].
    rewrite lookup_fmap, Heq. cbn [fmap option_fmap option_map].
    rewrite (normalizeProgressEntry_stored st0 titles eq acc.2 Hok Hne).
    destruct (IH (<[q := Progress (idx eq)
                          (done eq || (Z.of_nat (length (order eq)) <=? idx eq))
                          (order eq)]> acc.1, acc.2))
      as (H1 & H2 & H3).
    { intros p Hp. apply Hps. by right. }
    split; [done|]. split.
    + intros p Hp. destruct (decide (p ∈ ps)) as [Hin|Hin]; [by apply H2|].
      apply elem_of_cons in Hp as [->|Hp]; [|done].
      exists eq. split; [done|]. rewrite H3 by done. simpl. by rewrite lookup_insert_eq.
    + intros p Hp. apply not_elem_of_cons in Hp as [Hpq Hp].
      rewrite H3 by done. simpl. by rewrite lookup_insert_ne.
Qed.

(** X24. The progress of a well-formed session survives storing and
    loading: every person gets the stored order and cursor back, the entry
    is marked done when the cursor stands at the end, persons only get
    entries, and no random draw is used. *)
Theorem normalizeSwipeProgress_keeps_stored (st0 st : swipe_state) (r : rng) :
  progress_ok st ->
  swipeSelectedMovies st <> [] ->
  let res := normalizeSwipeProgress st0 (stored_progress <$> swipeProgress st)
               (swipePersons st) (titles_of (swipeSelectedMovies st)) r in
  res.2 = r /\
  (forall p, p ∈ swipePersons st ->
     exists e, swipeProgress st !! p = Some e /\
       res.1 !! p =
         Some (Progress (idx e) (done e || (Z.of_nat (length (order e)) <=? idx e))
                 (order e))) /\
  (forall p, p ∉ swipePersons st -> res.1 !! p = None).
Proof.
  intros Hok Hne res.
  destruct (normalizeSwipeProgress_stored_fold st0 (swipeProgress st)
              (titles_of (swipeSelectedMovies st)) (swipePersons st) (∅, r))
    as (H1 & H2 & H3).
  - unfold titles_of. intros H. apply fmap_nil_inv in H. done.
  - exact Hok.
  - split; [exact H1|]. split; [exact H2|].
    intros p Hp. unfold res, normalizeSwipeProgress. rewrite (H3 p Hp). apply lookup_empty.
Qed.

Lemma normalizeSwipeProgress_keeps_stored_witness :
  (normalizeSwipeProgress swipe_init (stored_progress <$> swipeProgress state_locked)
     (swipePersons state_locked) (titles_of (swipeSelectedMovies state_locked))
     draws_fixed).2 = draws_fixed.
Proof.
  assert (progress_ok state_locked) as H1 by apply confirmSwipeSetup_progress_ok.
  assert (swipeSelectedMovies state_locked <> []) as H2 by (vm_compute; discriminate).
  pose proof (normalizeSwipeProgress_keeps_stored swipe_init state_locked draws_fixed H1 H2)
    as W.
  cbv zeta in W. destruct W as (Hr & _). exact Hr.
Defined.

Lemma normalize_serialize_list api api' (ms : list movie) :
  (forall m, m ∈ ms -> normalizeMovieImage api m = m) ->
  normalizeMovieImage api <$> (serializeSwipeMovie api' <$> ms) = ms.
Proof.
  induction ms as [|m ms IH]; intros H; [done|].
  rewrite !fmap_cons. f_equal.
  - rewrite <- (H m) at 1 by apply list_elem_of_here.
    rewrite normalize_serialize. apply H, list_elem_of_here.
  - apply IH. intros x Hx. apply H. by right.
Qed.

Lemma enqueue_known_matches prev matches st :
  (forall m, m ∈ matches -> m ∈ prev) ->
  foldl (fun acc m => if includes prev m then acc else enqueueMatchModal m acc)
        st matches = st.
Proof.
  revert st. induction matches as [|m l IH]; intros st H; [done|].
  cbn [foldl]. rewrite (proj2 (includes_true prev m)) by apply H, list_elem_of_here.
  apply IH. intros x Hx. apply H. by right.
Qed.

(** X23. Loading back the state that the session has just sent changes
    nothing that matters: for a session whose movies are normalised, whose
    persons are not empty and include the current person, and whose match
    set lists no title twice, the list, the likes, the matches, the persons
    with their count, the lock and the current person come back as they
    were, and no notification is enqueued or shown; the matches are all in
    the seen set afterwards. *)
Theorem persist_load_round_trip (api api' : string) (st : swipe_state) (r : rng) :
  (forall m, m ∈ swipeSelectedMovies st -> normalizeMovieImage api m = m) ->
  swipePersons st <> [] ->
  swipeCurrentPerson st ∈ swipePersons st ->
  NoDup (swipeMatches st) ->
  let st' := (applySwipeStateFromServer api (persistSwipeState api' st) st r).1 in
  swipeSelectedMovies st' = swipeSelectedMovies st /\
  swipeLikes st' = swipeLikes st /\ swipeMatches st' = swipeMatches st /\
  swipePersons st' = swipePersons st /\
  swipePersonCount st' = length (swipePersons st) /\
  swipeLocked st' = swipeLocked st /\
  swipeCurrentPerson st' = swipeCurrentPerson st /\
  enqueuedLog st' = enqueuedLog st /\ shownLog st' = shownLog st /\
  matchQueue st' = matchQueue st /\ matchModalOpen st' = matchModalOpen st /\
  seenMatches st' = seenMatches st ∪ list_to_set (swipeMatches st).
Proof.
  intros Hnorm Hps Hcur Hnd st'. unfold st', applySwipeStateFromServer. clear st'.
  cbv zeta. unfold persistSwipeState, serializeSwipeMovies.
  cbn [w_movies w_persons w_likes w_matches w_locked w_progress].
  rewrite (normalize_serialize_list api api' _ Hnorm).
  rewrite (set_of_list_id _ Hnd).
  assert (match swipePersons st with
          | [] => match swipePersons st with [] => ["p1"; "p2"] | _ => swipePersons st end
          | _ => swipePersons st
          end = swipePersons st) as -> by by destruct (swipePersons st).
  assert (match length (swipePersons st) with O => 2%nat | n => n end
          = length (swipePersons st)) as -> by by destruct (swipePersons st).
  rewrite enqueue_known_matches by done.
  match goal with
  | |- context [normalizeSwipeProgress ?a ?b ?c ?d ?e] =>
      destruct (normalizeSwipeProgress a b c d e) as [pr r1]
  end.
  cbn [swipeCurrentPerson set_swipeProgress set_swipeLocked set_seenMatches
       set_swipeMatches set_swipeLikes set_swipePersonCount set_swipePersons
       set_swipeSelectedMovies].
  rewrite (proj2 (includes_true _ _) Hcur). cbv iota.
  cbn [swipeCurrentPerson set_swipeProgress set_swipeLocked set_seenMatches
       set_swipeMatches set_swipeLikes set_swipePersonCount set_swipePersons
       set_swipeSelectedMovies].
  match goal with
  | |- context [applySwipeProgress ?p ?s r1] =>
      set (s5 := s); destruct (applySwipeProgress_fields p s5 r1) as (Hq & Hc & Hp)
  end.
  apply core_fields_eq in Hc as (-> & -> & -> & -> & -> & ->).
  rewrite Hp. unfold queue_fields in Hq. injection Hq as -> -> -> -> ->.
  done.
Qed.

Lemma persist_load_round_trip_witness :
  swipeSelectedMovies
    (applySwipeStateFromServer "http://host" (persistSwipeState "http://host" state_modal_open)
       state_modal_open draws_fixed).1
  = swipeSelectedMovies state_modal_open.
Proof.
  assert (forall m, m ∈ swipeSelectedMovies state_modal_open ->
                    normalizeMovieImage "http://host" m = m) as H1.
  { intros m Hm.
    change (swipeSelectedMovies state_modal_open)
      with [Movie "X" "X" "" "" "p1" "manual"; Movie "Y" "Y" "" "" "p1" "manual"] in Hm.
    apply elem_of_cons in Hm as [->|Hm]; [by vm_compute|].
    apply list_elem_of_singleton in Hm as ->. by vm_compute. }
  assert (swipePersons state_modal_open <> []) as H2 by (vm_compute; discriminate).
  assert (swipeCurrentPerson state_modal_open ∈ swipePersons state_modal_open) as H3.
  { apply (bool_decide_unpack _). by vm_compute. }
  assert (NoDup (swipeMatches state_modal_open)) as H4.
  { apply (bool_decide_unpack _). by vm_compute. }
  pose proof (persist_load_round_trip "http://host" "http://host" state_modal_open
                draws_fixed H1 H2 H3 H4) as W.
  cbv zeta in W. destruct W as (Hm & _). exact Hm.
Defined.

(** ** A session stays well formed *)

Lemma session_ok_names st : session_ok st -> names_ok st.
Proof. by intros (? & ? & _). Qed.


Lemma fresh_entry_ok titles e : fresh_entry titles e -> entry_ok titles e.
Proof. intros (Hi & _ & Ho). split; [done|]. rewrite Hi. lia. Qed.

Lemma deck_titles st (o titles : list string) :
  ("" ∉ titles) -> o ≡ₚ titles ->
  title <$> titlesToMovieOrder st o ≡ₚ titles /\
  length (titlesToMovieOrder st o) = length o.
Proof.
  intros Hne Hperm.
  assert (title <$> titlesToMovieOrder st o = o) as Ht.
  { apply titlesToMovieOrder_titles. by rewrite Hperm. }
  split; [by rewrite Ht|].
  rewrite <- (length_fmap title), Ht. done.
Qed.


Lemma applySwipeProgress_establish person st r :
  person <> "" ->
  ("" ∉ titles_of (swipeSelectedMovies st)) -> ("" ∉ swipePersons st) ->
  progress_ok st -> entries_ok st ->
  session_ok (applySwipeProgress person st r).1.
Proof.
  intros Hperson Ht Hp Hok Hent.
  destruct (applySwipeProgress_fields person st r) as (_ & Hc & _).
  apply core_fields_eq in Hc as (Hms & _ & _ & _ & Hps & _).
  pose proof (applySwipeProgress_ok person st r Hok) as Hok'.
  destruct (applySwipeProgress_spec person st r Hperson)
    as (e & He & Hother & Hcase & Hord & Hidx & _).
  assert (entry_ok (titles_of (swipeSelectedMovies st)) e) as Hentry.
  { destruct Hcase as [(H & _)|H]; [by eapply Hent | by apply fresh_entry_ok]. }
  destruct Hentry as [Hperm Hbounds].
  destruct (deck_titles st (order e) _ Ht Hperm) as [Hdeck Hlen].
  unfold session_ok, entries_ok, view_ok. rewrite Hms, Hps.
  split; [done|]. split; [done|]. split; [done|]. split.
  - intros p e'. destruct (decide (p = person)) as [->|Hne].
    + rewrite He. by intros [= <-].
    + rewrite Hother by done. apply Hent.
  - rewrite Hidx, Hord. split; [done|]. lia.
Qed.







Lemma applySwipeStateFromServer_establish api s st r :
  names_ok st ->
  snapshot_distinct s -> ("" ∉ titles_of (w_movies s)) -> ("" ∉ w_persons s) ->
  session_ok (applySwipeStateFromServer api s st r).1.
Proof.
  intros (Ht & Hp) Hdist Htitles Hpersons.
  unfold applySwipeStateFromServer.
  set (ms := normalizeMovieImage api <$> w_movies s).
  set (ps := match w_persons s with
             | [] => match swipePersons st with [] => ["p1"; "p2"] | _ => swipePersons st end
             | _ => w_persons s
             end).
  set (count := match length ps with O => 2%nat | n => n end).
  set (matches := set_of_list (w_matches s)).
  set (st1 := set_swipeMatches matches _).
  set (st2 := foldl _ st1 matches).
  set (st3 := set_swipeLocked (w_locked s) _).
  assert ("" ∉ ps) as Hps.
  { unfold ps. destruct (w_persons s) as [|x l]; [|done].
    destruct (swipePersons st) as [|y l'] eqn:Hsp; [|first [done | by rewrite <- Hsp]].
    apply (bool_decide_unpack _). by vm_compute. }
  destruct (enqueue_new_matches_fields (swipeMatches st) matches st1) as [Hcore _].
  fold st2 in Hcore. apply core_fields_eq in Hcore as (Hms2 & _ & _ & _ & Hps2 & _).
  assert (swipeSelectedMovies st3 = ms) as Hsel3 by (unfold st3; simpl; by rewrite Hms2).
  assert (swipePersons st3 = ps) as Hps3 by (unfold st3; simpl; by rewrite Hps2).
  assert (titles_of ms = titles_of (w_movies s)) as Htm
    by (unfold ms; apply titles_of_normalize).
  destruct (normalizeSwipeProgress_fold st3 (w_progress s) (titles_of ms) ps (∅, r))
    as [Hall Hsome].
  { by rewrite Hsel3. }
  { rewrite Htm. apply Hdist. }
  { apply Hdist. }
  { intros q e. simpl. by rewrite lookup_empty. }
  unfold normalizeSwipeProgress.
  destruct (foldl _ (∅, r) ps) as [pr r1]. simpl in Hall, Hsome.
  set (st5 := if includes ps (swipeCurrentPerson (set_swipeProgress pr st3))
              then set_swipeProgress pr st3
              else set_swipeCurrentPerson (str_or (default "" (head ps)) "p1")
                     (set_swipeProgress pr st3)).
  assert (core_fields st5 = core_fields st3 /\ swipeProgress st5 = pr) as [Hc5 Hpr5].
  { unfold st5. by destruct (includes ps _). }
  apply core_fields_eq in Hc5 as (Hms5 & _ & _ & _ & Hps5 & _).
  assert (swipeCurrentPerson st5 <> "") as Hcur5.
  { unfold st5. destruct (includes ps _) eqn:Hinc.
    - apply includes_true in Hinc. intros Heq. apply Hps. by rewrite <- Heq.
    - simpl. unfold str_or. by destruct (String.eqb_spec (default "" (head ps)) ""). }
  apply applySwipeProgress_establish; [done| | | |].
  - by rewrite Hms5, Hsel3, Htm.
  - by rewrite Hps5, Hps3.
  - intros p Hin. rewrite Hps5, Hps3 in Hin. rewrite Hpr5, Hms5, Hsel3.
    destruct (Hsome p) as [e He]; [by right|].
    exists e. split; [done|]. by eapply Hall.
  - intros p e. rewrite Hpr5, Hms5, Hsel3. apply Hall.
Qed.

Lemma applySwipeStateFromServer_session_ok api s st r :
  session_ok st ->
  snapshot_distinct s -> ("" ∉ titles_of (w_movies s)) -> ("" ∉ w_persons s) ->
  session_ok (applySwipeStateFromServer api s st r).1.
Proof. intros Hs. apply applySwipeStateFromServer_establish. by apply session_ok_names. Qed.







(** ** The movie-by-title map and a fresh pair *)

Lemma fromEntries_snoc ms m : fromEntries (ms ++ [m]) = <[title m := m]> (fromEntries ms).
Proof. unfold fromEntries. by rewrite foldl_app. Qed.

(** X26. For a title that a movie of the list carries, or that is no
    property name of [Object.prototype], the movie-by-title map finds
    exactly the titles of the movie list: a lookup gives the last movie of
    the list that carries the title, and nothing for a title that no movie
    carries. *)
Theorem movieByTitle_last_of_title (st : rank_state) (t : string) :
  t ∈ titles_of (movies st) \/ inherited_name t = false ->
  movieByTitle st !! t = last (filter (fun m => title m = t) (movies st)) /\
  (is_Some (movieByTitle st !! t) <-> t ∈ titles_of (movies st)).
Proof.
  intros _. split; [|apply fromEntries_is_Some].
  unfold movieByTitle. induction (movies st) as [|m ms IH] using rev_ind.
  - apply lookup_empty.
  - rewrite fromEntries_snoc, filter_app.
    destruct (decide (title m = t)) as [Heq|Hne].
    + rewrite filter_cons_True by done. rewrite filter_nil, last_snoc, <- Heq.
      apply lookup_insert_eq.
    + rewrite filter_cons_False by done. rewrite filter_nil, app_nil_r.
      by rewrite lookup_insert_ne.
Qed.

(** X26 at the list that names the title A twice, and at the title C that
    it does not name. *)
Lemma movieByTitle_last_of_title_witness :
  movieByTitle state_twins !! "A" = last (movies state_twins) /\
  movieByTitle state_twins !! "C" = None.
Proof.
  destruct (movieByTitle_last_of_title state_twins "A") as [HA _].
  { left. apply (bool_decide_unpack _). vm_compute. reflexivity. }
  destruct (movieByTitle_last_of_title state_twins "C") as [HC _].
  { right. reflexivity. }
  split.
  - rewrite HA. vm_compute. reflexivity.
  - rewrite HC. vm_compute. reflexivity.
Defined.

Lemma two_elements_length {A} (l : list A) (a b : A) :
  a ∈ l -> b ∈ l -> a <> b -> (2 <= length l)%nat.
Proof.
  intros Ha Hb Hne. destruct l as [|x [|y l]]; simpl; [| |lia].
  - by apply elem_of_nil in Ha.
  - apply list_elem_of_singleton in Ha, Hb. congruence.
Qed.

(** X27. A confirmed load that is not a poll, of a state whose rated titles
    are all listed, whose titles are no property names of
    [Object.prototype] and whose list names at least two titles, puts a pair
    of two listed movies with different titles on screen. *)
Theorem applyState_fresh_pair (api : string) (s : rank_snapshot) (st : rank_state)
    (z : nat -> Q) :
  s_rankerConfirmed s = true ->
  (forall t, t ∈ obj_keys (s_ratings s) -> t ∈ titles_of (s_movies s)) ->
  (forall t, t ∈ titles_of (s_movies s) -> inherited_name t = false) ->
  (exists a b, a ∈ titles_of (s_movies s) /\ b ∈ titles_of (s_movies s) /\ a <> b) ->
  let st' := applyState api s false false st z in
  exists m0 m1,
    currentPair st' = Some (Some m0, Some m1) /\
    m0 ∈ movies st' /\ m1 ∈ movies st' /\ title m0 <> title m1.
Proof.
  intros Hconf Hrated _ (a & b & Ha & Hb & Hab) st'. unfold st'. clear st'.
  destruct (updateVoteVisibility_frame false false (applyState_assigned api s st) z)
    as (_ & Hmovies & _).
  rewrite applyState_assigned_eq in *. rewrite Hmovies. clear Hmovies.
  set (st0 := applyState_assigned api s st).
  assert (titles_of (movies st0) = titles_of (s_movies s)) as Htitles
    by apply titles_of_normalize.
  destruct (normalizeRatings_from (TS_MU st0) (TS_SIGMA st0) (movies st0) (s_ratings s))
    as [[Hnd _] Hkeys].
  change (normalizeRatings (TS_MU st0) (TS_SIGMA st0) (movies st0) (s_ratings s))
    with (ratings st0) in Hnd, Hkeys.
  assert (forall t, t ∈ obj_keys (ratings st0) <-> t ∈ titles_of (s_movies s)) as Hkeys'.
  { intros t. rewrite Hkeys, Htitles. split; [intros [?|?]; auto | by left]. }
  assert (2 <= length (movies st0))%nat as Hlen.
  { rewrite <- (length_fmap title). fold (titles_of (movies st0)). rewrite Htitles.
    by apply (two_elements_length _ a b). }
  assert (2 <= length (ratings st0))%nat as Hlenr.
  { rewrite <- (length_fmap fst). fold (obj_keys (ratings st0)).
    apply (two_elements_length _ a b); [by apply Hkeys' | by apply Hkeys' | done]. }
  unfold updateVoteVisibility.
  change (rankerConfirmed st0) with (s_rankerConfirmed s). rewrite Hconf.
  destruct (Nat.leb_spec 2 (length (movies st0))) as [_|?]; [|lia].
  cbn [andb negb]. unfold pickPair.
  change (movies (set_currentPair None st0)) with (movies st0).
  destruct (Nat.ltb_spec (length (movies st0)) 2) as [?|_]; [lia|].
  change (pairStill (set_currentPair None st0)) with (@None (movie * movie)).
  cbv iota.
  pose proof (sort_samples_perm (sampled (set_currentPair None st0) z)) as Hperm.
  pose proof (Permutation_length Hperm) as Hl. rewrite sampled_length in Hl.
  change (ratings (set_currentPair None st0)) with (ratings st0) in Hl.
  assert ((sort_samples (sampled (set_currentPair None st0) z)).*1 ≡ₚ obj_keys (ratings st0))
    as Hfst.
  { rewrite Hperm. unfold sampled. by rewrite sample_titles_fst. }
  destruct (sort_samples (sampled (set_currentPair None st0) z)) as [|s0 [|s1 rest]];
    cbn [length] in Hl; try lia.
  rewrite movieByTitle_set_currentPair.
  assert (NoDup (s0.1 :: s1.1 :: rest.*1)) as Hnd2 by by rewrite Hfst.
  assert (forall x, x ∈ s0.1 :: s1.1 :: rest.*1 -> is_Some (movieByTitle st0 !! x)) as Hin.
  { intros x Hx. apply fromEntries_is_Some. rewrite Htitles. apply Hkeys'.
    by rewrite <- Hfst. }
  destruct (Hin s0.1) as [m0 H0]; [apply list_elem_of_here|].
  destruct (Hin s1.1) as [m1 H1]; [apply list_elem_of_further, list_elem_of_here|].
  exists m0, m1. cbn [currentPair set_currentPair]. rewrite H0, H1.
  unfold movieByTitle in H0, H1.
  apply fromEntries_lookup in H0 as [? Ht0]. apply fromEntries_lookup in H1 as [? Ht1].
  repeat split; try done.
  rewrite Ht0, Ht1. intros Heq. apply NoDup_cons in Hnd2 as [Hnot _].
  apply Hnot. rewrite Heq. apply list_elem_of_here.
Qed.

Lemma applyState_fresh_pair_witness :
  exists m0 m1,
    currentPair (applyState "" snapshot_poll false false rank_init draws_third_high)
      = Some (Some m0, Some m1) /\ title m0 <> title m1.
Proof.
  assert (Forall (fun t => inherited_name t = false) ["A"; "B"; "C"]) as Hplain
    by (repeat constructor).
  rewrite Forall_forall in Hplain.
  destruct (applyState_fresh_pair "" snapshot_poll rank_init draws_third_high)
    as (m0 & m1 & Hpair & _ & _ & Hne).
  - reflexivity.
  - intros t Ht.
    change (obj_keys (s_ratings snapshot_poll)) with ["A"; "B"] in Ht.
    change (titles_of (s_movies snapshot_poll)) with ["A"; "B"; "C"].
    apply elem_of_cons in Ht as [->|Ht]; [apply list_elem_of_here|].
    apply list_elem_of_singleton in Ht as ->.
    apply list_elem_of_further, list_elem_of_here.
  - intros t Ht. apply Hplain. exact Ht.
  - exists "A", "B". split; [apply list_elem_of_here|].
    split; [apply list_elem_of_further, list_elem_of_here|discriminate].
  - exists m0, m1. split; [exact Hpair|exact Hne].
Defined.

(** ** Polling *)

Lemma pickPair_only_pair st z :
  pickPair st z = set_currentPair (currentPair (pickPair st z)) st.
Proof.
  unfold pickPair. destruct (length (movies st) <? 2)%nat.
  { by rewrite set_currentPair_same. }
  destruct (pairStill st) as [[l r]|]; [done|].
  destruct (sort_samples (sampled st z)) as [|s0 [|s1 rest]];
    try by rewrite set_currentPair_same.
  done.
Qed.

Lemma updateVoteVisibility_only_pair pp sk st z :
  updateVoteVisibility pp sk st z =
    set_currentPair (currentPair (updateVoteVisibility pp sk st z)) st.
Proof.
  unfold updateVoteVisibility.
  destruct (negb _); [by rewrite set_currentPair_same|].
  destruct sk.
  - destruct (pairStill st) as [[l r]|]; [done|by rewrite set_currentPair_same].
  - destruct (if pp then pairStill st else None) as [[l r]|]; [done|].
    rewrite (pickPair_only_pair (set_currentPair None st) z) at 1. done.
Qed.

Lemma pair_settled_refreshed st l0 r0 :
  pairStill st = Some (l0, r0) ->
  pair_settled (set_currentPair (Some (Some l0, Some r0)) st).
Proof.
  intros Hstill.
  destruct (currentPair st) as [[[lft|] [rgt|]]|] eqn:Hpair;
    try (unfold pairStill in Hstill; rewrite Hpair in Hstill; done).
  destruct (pairStill_titles st lft rgt l0 r0 Hpair Hstill) as (Hl & Hr & Htl & Htr).
  rewrite <- Htl in Hl. rewrite <- Htr in Hr.
  intros l r H. rewrite (pairStill_refreshed st l0 r0 Hl Hr) in H. by injection H as <- <-.
Qed.

Lemma pair_settled_picked st t0 t1 :
  pair_settled
    (set_currentPair (Some (movieByTitle st !! t0, movieByTitle st !! t1)) st).
Proof.
  intros l r H. unfold pairStill in H.
  cbn [currentPair set_currentPair] in H. rewrite movieByTitle_set_currentPair in H.
  destruct (movieByTitle st !! t0) as [m0|] eqn:H0; [|done].
  destruct (movieByTitle st !! t1) as [m1|] eqn:H1; [|done].
  pose proof H0 as H0'. pose proof H1 as H1'.
  unfold movieByTitle in H0', H1'.
  apply fromEntries_lookup in H0' as [_ Ht0]. apply fromEntries_lookup in H1' as [_ Ht1].
  rewrite Ht0, Ht1, H0, H1 in H. cbn [currentPair set_currentPair]. by injection H as <- <-.
Qed.

Lemma pair_settled_none st : pairStill st = None -> pair_settled st.
Proof. intros H l r. by rewrite H. Qed.

Lemma pickPair_settled st z :
  pairStill st = None -> pair_settled (pickPair st z).
Proof.
  intros Hnone. unfold pickPair.
  destruct (length (movies st) <? 2)%nat; [by apply pair_settled_none|].
  rewrite Hnone.
  destruct (sort_samples (sampled st z)) as [|s0 [|s1 rest]];
    try by apply pair_settled_none.
  apply pair_settled_picked.
Qed.

Lemma updateVoteVisibility_settled pp sk st z :
  rankerConfirmed st && (2 <=? length (movies st))%nat = true ->
  pair_settled (updateVoteVisibility pp sk st z).
Proof.
  intros Hshow. unfold updateVoteVisibility. rewrite Hshow. cbn [negb].
  destruct sk.
  - destruct (pairStill st) as [[l r]|] eqn:Hstill;
      [by apply pair_settled_refreshed | by apply pair_settled_none].
  - destruct pp.
    + destruct (pairStill st) as [[l r]|] eqn:Hstill;
        [by apply pair_settled_refreshed | by apply pickPair_settled].
    + by apply pickPair_settled.
Qed.

(** X28. Polling the same state again changes nothing: after any load of
    a state, a further load of the same state that skips the selection
    leaves every global of the ranker, the pair on screen included, as the
    first load left it, whatever the random draws. *)
Theorem applyState_poll_again (api : string) (s : rank_snapshot) (pp pp' sk : bool)
    (st : rank_state) (z z' : nat -> Q) :
  applyState api s pp' true (applyState api s pp sk st z) z'
  = applyState api s pp sk st z.
Proof.
  rewrite !applyState_assigned_eq.
  set (st0 := applyState_assigned api s st).
  set (st1 := updateVoteVisibility pp sk st0 z).
  destruct (updateVoteVisibility_frame pp sk st0 z) as (_ & Hmovies & _ & Hsigma).
  destruct (updateVoteVisibility_frame_persons pp sk st0 z) as (_ & _ & _ & Hmu & Hconf).
  fold st1 in Hmovies, Hsigma, Hmu, Hconf.
  assert (applyState_assigned api s st1 = st1) as Hassigned.
  { unfold st1 at 2. rewrite (updateVoteVisibility_only_pair pp sk st0 z). fold st1.
    unfold applyState_assigned. rewrite Hmu, Hsigma.
    change (TS_MU st0) with (default (TS_MU st) (parseFloat (s_tsConfig_mu s))).
    change (TS_SIGMA st0) with (default (TS_SIGMA st) (parseFloat (s_tsConfig_sigma s))).
    unfold st0, applyState_assigned, set_currentPair.
    cbn [TS_MU TS_SIGMA movies ratings currentPair personCount persons pairCoverage
         pairCoveragePerPerson rankerConfirmed].
    by destruct (parseFloat (s_tsConfig_mu s)), (parseFloat (s_tsConfig_sigma s)). }
  rewrite Hassigned. unfold updateVoteVisibility at 1. rewrite Hconf, Hmovies.
  destruct (rankerConfirmed st0 && (2 <=? length (movies st0))%nat) eqn:Hshow; [|done].
  cbn [negb].
  pose proof (updateVoteVisibility_settled pp sk st0 z Hshow) as Hsettled. fold st1 in Hsettled.
  destruct (pairStill st1) as [[l r]|] eqn:Hstill; [|done].
  rewrite <- (Hsettled l r Hstill). apply set_currentPair_same.
Qed.

(** ** Every operation on the swipe session *)


(** The reset of everything leaves the persons of a confirmed session
    without a progress entry. *)
Lemma resetAllStates_unsettles : ~ progress_ok (resetAllStates state_locked).
Proof.
  intros Hok. destruct (Hok "p1") as (e & He & _).
  - apply (bool_decide_unpack _). vm_compute. reflexivity.
  - vm_compute in He. discriminate.
Qed.






